(** * PoolTogether v4 client: contract-graph resolution and caching

    A shallow embedding of [src/PrizePool.ts] and [src/LinkedPrizePool.ts].

    - Contract descriptors ([Contract] of the contract-list schema) are
      records; a contract list is a [list Contract].
    - JS objects used as maps ([Providers], [PrizePoolAddresses],
      [PrizePoolAddressesByChainId]) are [gmap]s.
    - The accessors of a [PrizePool] are [async] methods.  They are written
      in a small free monad [Prog] whose operations are the effects the
      methods have: reading and assigning fields of [this], building an
      ethers [Contract], issuing a read against the chain, and suspending
      at an [await].  One interpreter runs a call to completion (a caller
      that awaits each call before the next); a second one interleaves
      several calls at their suspension points, as the JS event loop does. *)

From Stdlib Require Import ZArith Lia List Ascii.
From stdpp Require Import base gmap strings list fin_maps.

Open Scope Z_scope.

(** ** The contract-list schema *)

(** [ContractType] of [./constants]: the type tags the two files use. *)
Module ContractType.
Inductive t : Set :=
| YieldSourcePrizePool
| PrizePool
| Ticket
| Token
| Other (name : string).
End ContractType.

(** An ABI is only ever passed along; [ERC20Abi] is the one the code names. *)
Inductive Abi : Set :=
| ERC20Abi
| NamedAbi (name : string).

Record Version : Set := { major : Z; minor : Z; patch : Z }.

(** An entry of [extensions.children]. *)
Record Child : Set := { child_chainId : Z; child_address : string }.

(** [extensions]: [children] may be absent ([undefined]). *)
Record Extensions : Set := { children : option (list Child) }.

Record Contract : Set := {
  chainId : Z;
  address : string;
  version : Version;
  type : ContractType.t;
  abi : Abi;
  tags : list string;
  extensions : Extensions
}.

Record ContractList : Set := {
  list_name : string;
  contracts : list Contract
}.

#[global] Instance ContractType_eq_dec : EqDecision ContractType.t.
Proof. solve_decision. Defined.
#[global] Instance Abi_eq_dec : EqDecision Abi.
Proof. solve_decision. Defined.
#[global] Instance Version_eq_dec : EqDecision Version.
Proof. solve_decision. Defined.
#[global] Instance Child_eq_dec : EqDecision Child.
Proof. solve_decision. Defined.
#[global] Instance Extensions_eq_dec : EqDecision Extensions.
Proof. solve_decision. Defined.
#[global] Instance Contract_eq_dec : EqDecision Contract.
Proof. solve_decision. Defined.

(** A chain client ([Provider | Signer]); it is bound to one network. *)
Record Provider : Set := { provider_network : Z }.

#[global] Instance Provider_eq_dec : EqDecision Provider.
Proof. solve_decision. Defined.

(** [Providers]: [{ [chainId: number]: Provider }]. *)
Abbreviation Providers := (gmap Z Provider).

(** Modelled from the spec: [getContractsByType] of [./utils] is not among
    the sources; it keeps the descriptors carrying the requested type tag,
    in input order. *)
Definition getContractsByType (cs : list Contract) (t : ContractType.t)
  : list Contract :=
  filter (fun c => type c = t) cs.

(** Modelled from the spec: [createContractMetadata] of [./utils] is not
    among the sources; it builds the descriptor of a contract from its
    network, address, type tag and ABI. *)
Definition createContractMetadata (chain : Z) (addr : string)
    (t : ContractType.t) (a : Abi) : Contract :=
  {| chainId := chain; address := addr;
     version := {| major := 1; minor := 0; patch := 0 |};
     type := t; abi := a; tags := []; extensions := {| children := None |} |}.

(** ** Pool handles: [PrizePool.ts] *)

(** An ethers [Contract] object.  [contract_id] is its identity: every
    [new Contract(...)] yields a distinct object. *)
Record EthersContract : Set := {
  contract_id : nat;
  contract_address : string;
  contract_abi : Abi;
  contract_provider : Provider
}.

#[global] Instance EthersContract_eq_dec : EqDecision EthersContract.
Proof. solve_decision. Defined.

(** The fields of a [PrizePool] object, those of [ContractWrapper]
    included ([pool_chainId], [signerOrProvider], [contractMetadataList]). *)
Record PrizePool : Set := {
  pool_chainId : Z;
  signerOrProvider : Provider;
  contractMetadataList : list Contract;
  prizePoolMetadata : Contract;
  ticketMetadata : option Contract;
  tokenMetadata : option Contract;
  prizePoolContract : EthersContract;
  ticketContract : option EthersContract;
  tokenContract : option EthersContract
}.

(** A read of contract state, as sent to the chain client: the contract it
    is addressed to, the function and its arguments. *)
Inductive Call : Set :=
| call_getToken (pool : string)
| call_getTicket (pool : string)
| call_balanceOf (token user : string)
| call_getBalanceAt (ticket user : string) (unixTimestamp : Z)
| call_allowance (token owner spender : string)
| call_delegateOf (ticket user : string)
| call_totalSupply (ticket : string)
| call_getTotalSupplyAt (ticket : string) (unixTimestamp : Z)
| call_tokenData (token : string).

#[global] Instance Call_eq_dec : EqDecision Call.
Proof. solve_decision. Defined.

Record TokenData : Set := {
  decimals : Z;
  name : string;
  symbol : string
}.

(** A decoded result ([result[0]] of an ethers [Result]). *)
Inductive Value : Set :=
| VAddress (a : string)
| VNumber (n : Z)
| VTokenData (d : TokenData).

(** The errors an accessor call rejects with. *)
Inductive Error : Set :=
| InvalidAddress
| NetworkMismatch
| ResolutionFailure.

#[global] Instance Error_eq_dec : EqDecision Error.
Proof. solve_decision. Defined.

Inductive Outcome (A : Type) : Type :=
| Ok (a : A)
| Err (e : Error).
Arguments Ok {A} a.
Arguments Err {A} e.

(** *** The effects of an [async] method *)

Inductive Prog (A : Type) : Type :=
| Ret (a : A)
| Throw (e : Error)
| ReadThis (k : PrizePool -> Prog A)
| WriteThis (f : PrizePool -> PrizePool) (k : Prog A)
| NewContract (addr : string) (a : Abi) (p : Provider)
    (k : EthersContract -> Prog A)
| Issue (c : Call) (k : nat -> Prog A)
| Await (n : nat) (k : option Value -> Prog A)
| Tick (k : Prog A).
Arguments Ret {A} a.
Arguments Throw {A} e.
Arguments ReadThis {A} k.
Arguments WriteThis {A} f k.
Arguments NewContract {A} addr a p k.
Arguments Issue {A} c k.
Arguments Await {A} n k.
Arguments Tick {A} k.

Fixpoint bind {A B : Type} (p : Prog A) (f : A -> Prog B) : Prog B :=
  match p with
  | Ret a => f a
  | Throw e => Throw e
  | ReadThis k => ReadThis (fun s => bind (k s) f)
  | WriteThis g k => WriteThis g (bind k f)
  | NewContract addr a pr k => NewContract addr a pr (fun c => bind (k c) f)
  | Issue c k => Issue c (fun n => bind (k n) f)
  | Await n k => Await n (fun v => bind (k v) f)
  | Tick k => Tick (bind k f)
  end.

Declare Scope prog_scope.
Delimit Scope prog_scope with prog.
Notation "'let!' x ':=' p 'in' q" := (bind p (fun x => q))
  (at level 10, x name, p at level 100, q at level 200) : prog_scope.
Notation "'do!' p 'in' q" := (bind p (fun _ => q))
  (at level 10, p at level 100, q at level 200) : prog_scope.
Open Scope prog_scope.

Definition readThis : Prog PrizePool := ReadThis Ret.
Definition writeThis (f : PrizePool -> PrizePool) : Prog unit :=
  WriteThis f (Ret tt).
Definition newContract (addr : string) (a : Abi) (p : Provider)
  : Prog EthersContract := NewContract addr a p Ret.
(** [await] of a promise that no chain read settles. *)
Definition tick : Prog unit := Tick (Ret tt).
(** Calling [contract.functions.f(...)] sends the read; the promise it
    returns is the index of the read in the trace. *)
Definition issue (c : Call) : Prog nat := Issue c Ret.
(** [await] of the promise of a read: the decoded [result[0]], or the
    rejection of the read. *)
Definition await (n : nat) : Prog Value :=
  Await n (fun v => match v with
                    | Some x => Ret x
                    | None => Throw ResolutionFailure
                    end).

Definition asAddress (v : Value) : Prog string :=
  match v with VAddress a => Ret a | _ => Throw ResolutionFailure end.
Definition asNumber (v : Value) : Prog Z :=
  match v with VNumber n => Ret n | _ => Throw ResolutionFailure end.
Definition asTokenData (v : Value) : Prog TokenData :=
  match v with VTokenData d => Ret d | _ => Throw ResolutionFailure end.

(** *** Child-contract resolution *)

(** The two cached children of a handle: the [key] argument of
    [getAndSetEthersContract] ([this.ticketContract] / [this.tokenContract]). *)
Inductive ChildKey : Set := key_ticket | key_token.

#[global] Instance ChildKey_eq_dec : EqDecision ChildKey.
Proof. solve_decision. Defined.

Definition cached (key : ChildKey) (this : PrizePool) : option EthersContract :=
  match key with
  | key_ticket => ticketContract this
  | key_token => tokenContract this
  end.

Definition set_ticket (m : Contract) (c : EthersContract) (this : PrizePool)
  : PrizePool :=
  {| pool_chainId := pool_chainId this;
     signerOrProvider := signerOrProvider this;
     contractMetadataList := contractMetadataList this;
     prizePoolMetadata := prizePoolMetadata this;
     ticketMetadata := Some m;
     tokenMetadata := tokenMetadata this;
     prizePoolContract := prizePoolContract this;
     ticketContract := Some c;
     tokenContract := tokenContract this |}.

Definition set_token (m : Contract) (c : EthersContract) (this : PrizePool)
  : PrizePool :=
  {| pool_chainId := pool_chainId this;
     signerOrProvider := signerOrProvider this;
     contractMetadataList := contractMetadataList this;
     prizePoolMetadata := prizePoolMetadata this;
     ticketMetadata := ticketMetadata this;
     tokenMetadata := Some m;
     prizePoolContract := prizePoolContract this;
     ticketContract := ticketContract this;
     tokenContract := Some c |}.

(** The read that resolves a child: [prizePoolContract.functions.getTicket()]
    or [.getToken()]. *)
Definition resolution_call (key : ChildKey) (this : PrizePool) : Call :=
  match key with
  | key_ticket => call_getTicket (contract_address (prizePoolContract this))
  | key_token => call_getToken (contract_address (prizePoolContract this))
  end.

Definition TicketAbi : Abi := NamedAbi "Ticket".

(** Modelled from the spec: [ContractWrapper.getAndSetEthersContract] is not
    among the sources.  Ticket resolution is "symmetric to token resolution,
    reading a different accessor and producing a ticket-interface handle":
    return the cached contract if there is one; otherwise await the address,
    build the metadata and the ethers contract, store both and return the
    contract.  Like [getTokenContract] below, it is given no marker of a
    resolution in flight. *)
Definition getAndSetEthersContract (key : ChildKey) (contractType : ContractType.t)
    (getContractAddress : Prog string) : Prog EthersContract :=
  let! this := readThis in
  match cached key this with
  | Some c => Ret c
  | None =>
      let! contractAddress := getContractAddress in
      let! this := readThis in
      let contractMetadata :=
        createContractMetadata (pool_chainId this) contractAddress contractType
          (match key with key_ticket => TicketAbi | key_token => ERC20Abi end) in
      let! contract :=
        newContract (address contractMetadata) (abi contractMetadata)
          (signerOrProvider this) in
      do! writeThis (match key with
                     | key_ticket => set_ticket contractMetadata contract
                     | key_token => set_token contractMetadata contract
                     end) in
      Ret contract
  end.

(** [getTicketContract] *)
Definition getTicketContract : Prog EthersContract :=
  let getAddress : Prog string :=
    let! this := readThis in
    let! result := issue (call_getTicket (contract_address (prizePoolContract this))) in
    let! result := await result in
    asAddress result in
  getAndSetEthersContract key_ticket ContractType.Ticket getAddress.

(** [getTokenContract] *)
Definition getTokenContract : Prog EthersContract :=
  let! this := readThis in
  match tokenContract this with
  | Some c => Ret c
  | None =>
      let getAddress : Prog string :=
        let! this := readThis in
        let! result := issue (call_getToken (contract_address (prizePoolContract this))) in
        let! result := await result in
        asAddress result in
      let! tokenAddress := getAddress in
      let! this := readThis in
      let tokenMetadata :=
        createContractMetadata (pool_chainId this) tokenAddress
          ContractType.Token ERC20Abi in
      let! tokenContract :=
        newContract (address tokenMetadata) (abi tokenMetadata)
          (signerOrProvider this) in
      do! writeThis (set_token tokenMetadata tokenContract) in
      Ret tokenContract
  end.

Definition resolve (key : ChildKey) : Prog EthersContract :=
  match key with
  | key_ticket => getTicketContract
  | key_token => getTokenContract
  end.

(** *** Accessors *)

Record PrizePoolTokenBalances : Set := { token : Z; ticket : Z }.

Record DepositAllowance : Set := {
  allowanceUnformatted : Z;
  isApproved : bool
}.

(** Modelled from the spec: [getUserERC20Balance] of [./utils] is not among
    the sources; it issues one [balanceOf] read for the user on the given
    contract.  The value is the promise of that read. *)
Definition getUserERC20Balance (usersAddress : string) (c : EthersContract)
  : Prog nat :=
  issue (call_balanceOf (contract_address c) usersAddress).

(** Modelled from the spec: [getTokenData] of [./utils] is not among the
    sources; one read returning name, symbol and decimals. *)
Definition utils_getTokenData (c : EthersContract) : Prog nat :=
  issue (call_tokenData (contract_address c)).

Definition awaitNumber (promise : nat) : Prog Z :=
  let! result := await promise in asNumber result.

Definition awaitAddress (promise : nat) : Prog string :=
  let! result := await promise in asAddress result.

Definition awaitTokenData (promise : nat) : Prog TokenData :=
  let! result := await promise in asTokenData result.

(** Modelled from the spec: [validateSignerOrProviderNetwork] of [./utils] is
    not among the sources; it rejects with [NetworkMismatch] unless the
    network of the active chain client is the handle's network. *)
Definition validateSignerOrProviderNetwork : Prog unit :=
  let! this := readThis in
  do! tick in
  if decide (provider_network (signerOrProvider this) = pool_chainId this)
  then Ret tt else Throw NetworkMismatch.

Section Accessors.

(** [isAddress] of ethers: the syntactic check of an address. *)
Variable isAddress : string -> bool.

(** Modelled from the spec: [validateAddress] of [./utils] is not among the
    sources; it rejects with [InvalidAddress] unless the address is
    syntactically well-formed. *)
Definition validateAddress (usersAddress : string) : Prog unit :=
  do! tick in
  if isAddress usersAddress then Ret tt else Throw InvalidAddress.

Definition getUserPrizePoolBalances (usersAddress : string)
  : Prog PrizePoolTokenBalances :=
  do! validateAddress usersAddress in
  do! validateSignerOrProviderNetwork in
  let! tokenContract := getTokenContract in
  let! ticketContract := getTicketContract in
  let! tokenBalancePromise := getUserERC20Balance usersAddress tokenContract in
  let! ticketBalancePromise := getUserERC20Balance usersAddress ticketContract in
  let! token := awaitNumber tokenBalancePromise in
  let! ticket := awaitNumber ticketBalancePromise in
  Ret {| token := token; ticket := ticket |}.

Definition getUserTicketBalance (usersAddress : string) : Prog Z :=
  do! validateAddress usersAddress in
  do! validateSignerOrProviderNetwork in
  let! ticketContract := getTicketContract in
  let! promise := getUserERC20Balance usersAddress ticketContract in
  awaitNumber promise.

Definition getUserTicketTwabAt (usersAddress : string) (unixTimestamp : Z)
  : Prog Z :=
  do! validateAddress usersAddress in
  do! validateSignerOrProviderNetwork in
  let! ticketContract := getTicketContract in
  let! result :=
    issue (call_getBalanceAt (contract_address ticketContract)
             usersAddress unixTimestamp) in
  let! twab := awaitNumber result in
  Ret twab.

Definition getUserTokenBalance (usersAddress : string) : Prog Z :=
  do! validateAddress usersAddress in
  do! validateSignerOrProviderNetwork in
  let! tokenContract := getTokenContract in
  let! promise := getUserERC20Balance usersAddress tokenContract in
  awaitNumber promise.

Definition getUserDepositAllowance (usersAddress : string)
  : Prog DepositAllowance :=
  do! validateAddress usersAddress in
  do! validateSignerOrProviderNetwork in
  let! tokenContract := getTokenContract in
  let! this := readThis in
  let prizePoolAddress := address (prizePoolMetadata this) in
  let! result :=
    issue (call_allowance (contract_address tokenContract)
             usersAddress prizePoolAddress) in
  let! allowanceUnformatted := awaitNumber result in
  Ret {| allowanceUnformatted := allowanceUnformatted;
         isApproved := negb (allowanceUnformatted =? 0)%Z |}.

Definition getUserTicketDelegate (usersAddress : string) : Prog string :=
  do! validateAddress usersAddress in
  let! ticketContract := getTicketContract in
  let! result :=
    issue (call_delegateOf (contract_address ticketContract) usersAddress) in
  awaitAddress result.

Definition getTokenData : Prog TokenData :=
  do! validateSignerOrProviderNetwork in
  let! tokenContract := getTokenContract in
  let! promise := utils_getTokenData tokenContract in
  awaitTokenData promise.

Definition getTicketData : Prog TokenData :=
  do! validateSignerOrProviderNetwork in
  let! ticketContract := getTicketContract in
  let! promise := utils_getTokenData ticketContract in
  awaitTokenData promise.

Definition getTicketTotalSupply : Prog Z :=
  do! validateSignerOrProviderNetwork in
  let! ticketContract := getTicketContract in
  let! result := issue (call_totalSupply (contract_address ticketContract)) in
  let! totalSupply := awaitNumber result in
  Ret totalSupply.

Definition getTicketTwabTotalSupplyAt (unixTimestamp : Z) : Prog Z :=
  do! validateSignerOrProviderNetwork in
  let! ticketContract := getTicketContract in
  let! result :=
    issue (call_getTotalSupplyAt (contract_address ticketContract)
             unixTimestamp) in
  let! totalSupply := awaitNumber result in
  Ret totalSupply.

(** The read methods of a handle, with their arguments. *)
Inductive Accessor : Set :=
| GetUserPrizePoolBalances (usersAddress : string)
| GetUserTicketBalance (usersAddress : string)
| GetUserTicketTwabAt (usersAddress : string) (unixTimestamp : Z)
| GetUserTokenBalance (usersAddress : string)
| GetUserDepositAllowance (usersAddress : string)
| GetUserTicketDelegate (usersAddress : string)
| GetTokenData
| GetTicketData
| GetTicketTotalSupply
| GetTicketTwabTotalSupplyAt (unixTimestamp : Z).

Inductive Output : Set :=
| OutBalances (b : PrizePoolTokenBalances)
| OutNumber (n : Z)
| OutAllowance (a : DepositAllowance)
| OutAddress (a : string)
| OutTokenData (d : TokenData).

Definition fmap_prog {A B : Type} (f : A -> B) (p : Prog A) : Prog B :=
  let! a := p in Ret (f a).

Definition call (a : Accessor) : Prog Output :=
  match a with
  | GetUserPrizePoolBalances u => fmap_prog OutBalances (getUserPrizePoolBalances u)
  | GetUserTicketBalance u => fmap_prog OutNumber (getUserTicketBalance u)
  | GetUserTicketTwabAt u t => fmap_prog OutNumber (getUserTicketTwabAt u t)
  | GetUserTokenBalance u => fmap_prog OutNumber (getUserTokenBalance u)
  | GetUserDepositAllowance u => fmap_prog OutAllowance (getUserDepositAllowance u)
  | GetUserTicketDelegate u => fmap_prog OutAddress (getUserTicketDelegate u)
  | GetTokenData => fmap_prog OutTokenData getTokenData
  | GetTicketData => fmap_prog OutTokenData getTicketData
  | GetTicketTotalSupply => fmap_prog OutNumber getTicketTotalSupply
  | GetTicketTwabTotalSupplyAt t => fmap_prog OutNumber (getTicketTwabTotalSupplyAt t)
  end.

End Accessors.

(** *** Running calls *)

(** What the calls on one handle act on: the handle object, the reads sent
    to the chain so far (oldest first) and the identity of the next ethers
    contract object. *)
Record World : Set := {
  this : PrizePool;
  reads : list Call;
  next_id : nat
}.

Definition set_this (f : PrizePool -> PrizePool) (w : World) : World :=
  {| this := f (this w); reads := reads w; next_id := next_id w |}.

Definition log_read (c : Call) (w : World) : World :=
  {| this := this w; reads := reads w ++ [c]; next_id := next_id w |}.

Definition alloc_contract (addr : string) (a : Abi) (p : Provider) (w : World)
  : EthersContract * World :=
  ({| contract_id := next_id w; contract_address := addr;
      contract_abi := a; contract_provider := p |},
   {| this := this w; reads := reads w; next_id := S (next_id w) |}).

Section Interpreters.

(** The chain: what the [n]-th read sent gets for an answer ([None] when
    the read fails: transport error, revert). *)
Variable chain : nat -> Call -> option Value.

Definition response (n : nat) (w : World) : option Value :=
  match reads w !! n with
  | Some c => chain n c
  | None => None
  end.

(** A call awaited to completion before anything else runs. *)
Fixpoint run {A : Type} (p : Prog A) (w : World) : Outcome A * World :=
  match p with
  | Ret a => (Ok a, w)
  | Throw e => (Err e, w)
  | ReadThis k => run (k (this w)) w
  | WriteThis f k => run k (set_this f w)
  | NewContract addr a pr k =>
      let (c, w') := alloc_contract addr a pr w in run (k c) w'
  | Issue c k => run (k (length (reads w))) (log_read c w)
  | Await n k => run (k (response n w)) w
  | Tick k => run k w
  end.

(** The event loop.  [advance] runs a call synchronously up to its next
    [await]; [resume] continues a suspended call once what it awaits has
    settled. *)
Fixpoint advance {A : Type} (p : Prog A) (w : World) : Prog A * World :=
  match p with
  | ReadThis k => advance (k (this w)) w
  | WriteThis f k => advance k (set_this f w)
  | NewContract addr a pr k =>
      let (c, w') := alloc_contract addr a pr w in advance (k c) w'
  | Issue c k => advance (k (length (reads w))) (log_read c w)
  | Ret _ | Throw _ | Await _ _ | Tick _ => (p, w)
  end.

Definition resume {A : Type} (p : Prog A) (w : World) : Prog A * World :=
  match p with
  | Await n k => advance (k (response n w)) w
  | Tick k => advance k w
  | _ => (p, w)
  end.

(** Several calls in flight on one handle. *)
Record System (A : Type) : Type := {
  tasks : list (Prog A);
  world : World
}.
Arguments tasks {A} s.
Arguments world {A} s.

(** Invoking an [async] method runs it up to its first [await]. *)
Definition spawn {A : Type} (p : Prog A) (s : System A) : System A :=
  let (p', w') := advance p (world s) in
  {| tasks := tasks s ++ [p']; world := w' |}.

Definition step {A : Type} (i : nat) (s : System A) : System A :=
  match tasks s !! i with
  | Some p =>
      let (p', w') := resume p (world s) in
      {| tasks := <[i := p']> (tasks s); world := w' |}
  | None => s
  end.

Definition schedule {A : Type} (order : list nat) (s : System A) : System A :=
  fold_left (fun s i => step i s) order s.

Definition settled {A : Type} (p : Prog A) : option (Outcome A) :=
  match p with
  | Ret a => Some (Ok a)
  | Throw e => Some (Err e)
  | _ => None
  end.

Definition result_of {A : Type} (i : nat) (s : System A) : option (Outcome A) :=
  match tasks s !! i with
  | Some p => settled p
  | None => None
  end.

Variable isAddress : string -> bool.

(** A caller that awaits each accessor call before making the next. *)
Definition run_calls (calls : list Accessor) (w : World) : World :=
  fold_left (fun w a => snd (run (call isAddress a) w)) calls w.

End Interpreters.

Arguments tasks {A} s.
Arguments world {A} s.

(** *** What one resolution does, spelled out *)

Section ResolutionSpec.

Variable chain : nat -> Call -> option Value.

(** What one resolution does, spelled out. *)
Definition resolved (key : ChildKey) (a : string) (w : World) : EthersContract * World :=
  let t := this w in
  let m := createContractMetadata (pool_chainId t) a
             (match key with key_ticket => ContractType.Ticket | key_token => ContractType.Token end)
             (match key with key_ticket => TicketAbi | key_token => ERC20Abi end) in
  let c := {| contract_id := next_id w; contract_address := a;
              contract_abi := abi m; contract_provider := signerOrProvider t |} in
  (c, {| this := match key with
                 | key_ticket => set_ticket m c t
                 | key_token => set_token m c t
                 end;
         reads := reads w ++ [resolution_call key t];
         next_id := S (next_id w) |}).

Definition resolve_spec (key : ChildKey) (w : World) : Outcome EthersContract * World :=
  match cached key (this w) with
  | Some c => (Ok c, w)
  | None =>
      match chain (length (reads w)) (resolution_call key (this w)) with
      | Some (VAddress a) => let (c, w') := resolved key a w in (Ok c, w')
      | _ => (Err ResolutionFailure, log_read (resolution_call key (this w)) w)
      end
  end.

(** *** How a handle evolves under calls *)

(** The reads the accessors send themselves, as opposed to the two
    reads that resolve a child. *)
Definition is_accessor_read (c : Call) : bool :=
  match c with
  | call_getToken _ | call_getTicket _ => false
  | _ => true
  end.

Definition is_address_answer (o : option Value) : bool :=
  match o with Some (VAddress _) => true | _ => false end.

(** Occurrences of the read [c] in [l]. *)
Definition count_call (c : Call) (l : list Call) : nat :=
  length (filter (fun x => x = c) l).

(** Occurrences of [c] in [l] that the chain does not answer with an
    address, [l] being the reads from position [start] on. *)
Fixpoint failed_calls (c : Call) (start : nat) (l : list Call) : nat :=
  match l with
  | [] => 0
  | x :: l' =>
      ((if decide (x = c)
        then if is_address_answer (chain start x) then 0 else 1
        else 0) + failed_calls c (S start) l')%nat
  end.

(** 1 when the child [key] went from not cached to cached. *)
Definition populated (key : ChildKey) (w w' : World) : nat :=
  match cached key (this w), cached key (this w') with
  | None, Some _ => 1
  | _, _ => 0
  end.

(** [w'] is [w] after some calls that sent the reads [l]: the fields of
    the handle other than the caches are the same, a cached child stays
    the same object, no resolution read is sent for a cached child, and
    every resolution read either failed or is the one that filled the
    cache. *)
Record evolves (l : list Call) (w w' : World) : Prop := {
  ev_chainId : pool_chainId (this w') = pool_chainId (this w);
  ev_provider : signerOrProvider (this w') = signerOrProvider (this w);
  ev_list : contractMetadataList (this w') = contractMetadataList (this w);
  ev_metadata : prizePoolMetadata (this w') = prizePoolMetadata (this w);
  ev_contract : prizePoolContract (this w') = prizePoolContract (this w);
  ev_cached : forall key c,
    cached key (this w) = Some c -> cached key (this w') = Some c;
  ev_next_id : (next_id w <= next_id w')%nat;
  ev_reads : reads w' = reads w ++ l;
  ev_hit : forall key,
    is_Some (cached key (this w)) ->
    count_call (resolution_call key (this w)) l = 0%nat;
  ev_miss : forall key,
    (count_call (resolution_call key (this w)) l
     <= failed_calls (resolution_call key (this w)) (length (reads w)) l
        + populated key w w')%nat
}.

(** The call [p] keeps [evolves] and sends at most [n] reads resolving
    the child [key]. *)
Definition within {A : Type} (key : ChildKey) (n : nat) (p : Prog A) : Prop :=
  forall w, exists l,
    evolves l w (snd (run chain p w)) /\
    (count_call (resolution_call key (this w)) l <= n)%nat.

(** How many of the reads [l] resolve the child [key] of the handle. *)
Definition resolution_reads (key : ChildKey) (this : PrizePool) (l : list Call)
  : nat :=
  count_call (resolution_call key this) l.

(** The reads sent after the first [n]. *)
Definition reads_since (n : nat) (w : World) : list Call := drop n (reads w).

(** A read sent during the step from [w] to [w'] resolved the child
    [key]: it asked for the child's address and the chain gave one. *)
Definition resolved_between (key : ChildKey) (w w' : World) : Prop :=
  exists i : nat,
    (length (reads w) <= i)%nat /\
    reads w' !! i = Some (resolution_call key (this w)) /\
    is_address_answer (chain i (resolution_call key (this w))) = true.

(** A call that can only fail because a read failed. *)
Definition fails_on_reads_only {A : Type} (p : Prog A) : Prop :=
  forall w e w', run chain p w = (Err e, w') -> e = ResolutionFailure.

(** *** Where a cached child comes from *)

(** The call [p] keeps the property [J] of the handle and its trace. *)
Definition preserves {A : Type} (J : World -> Prop) (p : Prog A) : Prop :=
  forall w, J w -> J (snd (run chain p w)).

(** [w] is [w0] some reads later, and the child [key] it has cached is the
    one [w0] had cached, or a contract at the address that a read
    resolving the child, sent since [w0], was answered with. *)
Definition cache_answered (key : ChildKey) (w0 w : World) : Prop :=
  prizePoolContract (this w) = prizePoolContract (this w0) /\
  (length (reads w0) <= length (reads w))%nat /\
  forall c,
    cached key (this w) = Some c ->
    cached key (this w0) = Some c \/
    exists i : nat,
      (length (reads w0) <= i)%nat /\
      reads w !! i = Some (resolution_call key (this w0)) /\
      chain i (resolution_call key (this w0))
      = Some (VAddress (contract_address c)).

(** *** The reads of a call that returns *)

(** Every read an accessor sent for itself from position [n] on was
    answered. *)
Definition answered (n : nat) (w : World) : Prop :=
  forall i c,
    (n <= i)%nat -> reads w !! i = Some c -> is_accessor_read c = true ->
    chain i c <> None.

(** A call that keeps [answered] when it succeeds. *)
Definition succeeds_answered {A : Type} (n : nat) (p : Prog A) : Prop :=
  forall w a w', answered n w -> run chain p w = (Ok a, w') -> answered n w'.

(** Awaiting the promise of a read: the handle and the trace stay as they
    are, and the call goes on only if the read was answered. *)
Definition awaits {A : Type} (q : nat -> Prog A) : Prop :=
  forall m w,
    snd (run chain (q m) w) = w /\
    forall a, fst (run chain (q m) w) = Ok a -> response chain m w <> None.

End ResolutionSpec.

(** *** Calls in flight together *)

(** No call in flight yet. *)
Definition idle {A : Type} (w : World) : System A :=
  {| tasks := []; world := w |}.

(** Two calls made one right after the other, before either is resumed,
    then resumed in the given order. *)
Definition race {A : Type} (chain : nat -> Call -> option Value)
    (p q : Prog A) (order : list nat) (w : World) : System A :=
  schedule chain order (spawn q (spawn p (idle w))).

Section Racing.

Variable chain : nat -> Call -> option Value.

(** A call resolving [key], suspended on the read it sent as the [n]-th:
    resumed with an address it builds a new contract object and stores
    it in the handle; resumed with anything else it fails. *)
Definition resolving (key : ChildKey) (n : nat) (t : Prog EthersContract)
  : Prop :=
  exists k,
    t = Await n k /\
    forall v w',
      advance (k v) w' =
      match v with
      | Some (VAddress a) =>
          (Ret (fst (resolved key a w')),
           {| this := this (snd (resolved key a w'));
              reads := reads w';
              next_id := S (next_id w') |})
      | _ => (Throw ResolutionFailure, w')
      end.

(** The state a call resolving [key] can be in once started. *)
Definition in_flight (key : ChildKey) (n bound : nat)
    (t : Prog EthersContract) : Prop :=
  resolving key n t \/ t = Throw ResolutionFailure \/
  exists c, t = Ret c /\ (contract_id c < bound)%nat.

(** What holds of two calls resolving [key] that were both started on
    [w], where the child is not cached, however they are resumed. *)
Record racing (key : ChildKey) (w : World) (s : System EthersContract)
  : Prop := {
  race_tasks : exists t0 t1,
    tasks s = [t0; t1] /\
    in_flight key (length (reads w)) (next_id (world s)) t0 /\
    in_flight key (S (length (reads w))) (next_id (world s)) t1 /\
    (forall c0 c1, t0 = Ret c0 -> t1 = Ret c1 ->
                   contract_id c0 <> contract_id c1) /\
    (forall c, cached key (this (world s)) = Some c ->
               t0 = Ret c \/ t1 = Ret c);
  race_reads :
    reads (world s)
    = reads w ++ [resolution_call key (this w); resolution_call key (this w)]
}.

End Racing.

(** *** The validations an accessor starts with *)

Section Validation.

Variable isAddress : string -> bool.

Definition usersAddress_of (a : Accessor) : option string :=
  match a with
  | GetUserPrizePoolBalances u
  | GetUserTicketBalance u
  | GetUserTicketTwabAt u _
  | GetUserTokenBalance u
  | GetUserDepositAllowance u
  | GetUserTicketDelegate u => Some u
  | _ => None
  end.

(** Whether the method calls [validateSignerOrProviderNetwork]:
    [getUserTicketDelegate] is the one that does not. *)
Definition validates_network (a : Accessor) : bool :=
  match a with
  | GetUserTicketDelegate _ => false
  | _ => true
  end.

(** The error the validations of [a] raise on the handle [t], if any:
    the address first, then the network. *)
Definition validation (a : Accessor) (t : PrizePool) : option Error :=
  match usersAddress_of a with
  | Some u =>
      if isAddress u then
        if validates_network a then
          if decide (provider_network (signerOrProvider t) = pool_chainId t)
          then None else Some NetworkMismatch
        else None
      else Some InvalidAddress
  | None =>
      if decide (provider_network (signerOrProvider t) = pool_chainId t)
      then None else Some NetworkMismatch
  end.

End Validation.

(** ** Building handles: [initializePrizePools] and [LinkedPrizePool.ts] *)

(** What a builder can throw. *)
Inductive BuildError : Set :=
| ConstructionFailure (chain : Z) (addr : string)
| TypeError (message : string).

#[global] Instance BuildError_eq_dec : EqDecision BuildError.
Proof. solve_decision. Defined.

Inductive Result (A : Type) : Type :=
| Returned (a : A)
| Thrown (e : BuildError).
Arguments Returned {A} a.
Arguments Thrown {A} e.

(** Modelled from the spec: the constructor of [ContractWrapper], which
    [new PrizePool(...)] runs first, is not among the sources.  "A missing
    key [of the network-to-client mapping] is a construction-time error for
    that network's deployments": the construction throws when
    [providers[chainId]] is [undefined].  Otherwise the handle is built as
    the constructor in [PrizePool.ts] does: metadata and primary contract
    set, nothing cached. *)
Definition new_PrizePool (id : nat) (prizePoolMetadata : Contract)
    (signerOrProvider : option Provider) (contractMetadataList : list Contract)
  : Result PrizePool :=
  match signerOrProvider with
  | None =>
      Thrown (ConstructionFailure (chainId prizePoolMetadata)
                (address prizePoolMetadata))
  | Some provider =>
      Returned
        {| pool_chainId := chainId prizePoolMetadata;
           signerOrProvider := provider;
           contractMetadataList := contractMetadataList;
           prizePoolMetadata := prizePoolMetadata;
           ticketMetadata := None;
           tokenMetadata := None;
           prizePoolContract :=
             {| contract_id := id;
                contract_address := address prizePoolMetadata;
                contract_abi := abi prizePoolMetadata;
                contract_provider := provider |};
           ticketContract := None;
           tokenContract := None |}
  end.

(** The body of the [forEach] of [initializePrizePools]: [try] to push a
    new handle, [catch] and log the error. *)
Definition try_push (providers : Providers) (contracts : list Contract)
    (acc : list PrizePool * list BuildError) (prizePoolMetadata : Contract)
  : list PrizePool * list BuildError :=
  let provider := providers !! chainId prizePoolMetadata in
  match new_PrizePool (length (fst acc)) prizePoolMetadata provider contracts with
  | Returned prizePool => (fst acc ++ [prizePool], snd acc)
  | Thrown e => (fst acc, snd acc ++ [e])
  end.

(** [initializePrizePools] of [PrizePool.ts]: the handles pushed, and the
    errors written to [console.error]. *)
Definition initializePrizePools (contractList : ContractList)
    (providers : Providers) : list PrizePool * list BuildError :=
  let prizePoolMetadatas :=
    getContractsByType (contracts contractList) ContractType.PrizePool in
  fold_left (try_push providers (contracts contractList)) prizePoolMetadatas ([], []).

(** *** [LinkedPrizePool.ts] *)

(** The value side of [PrizePoolAddresses]: [{ token, ticket }]. *)
Record ChildAddresses : Set := {
  addr_token : string;
  addr_ticket : string
}.

#[global] Instance ChildAddresses_eq_dec : EqDecision ChildAddresses.
Proof. solve_decision. Defined.

Abbreviation PrizePoolAddresses := (gmap string ChildAddresses).
Abbreviation PrizePoolAddressesByChainId := (gmap Z (gmap string ChildAddresses)).

(** An etherplex [Context]: a contract registered under a name, and the
    calls chained on it. *)
Record Context : Set := {
  ctx_name : string;
  ctx_abi : Abi;
  ctx_address : string;
  ctx_calls : list string
}.

#[global] Instance Context_eq_dec : EqDecision Context.
Proof. solve_decision. Defined.

(** What a batch returns for one context: the decoded outputs of its
    [token] and [ticket] calls ([result[name].token[0]] and
    [result[name].ticket[0]]). *)
Record ContextResult : Set := {
  res_token : string;
  res_ticket : string
}.

(** A call of [batch]: the network it was built for, the client it was
    given ([providers[chainId]], possibly [undefined]) and its contexts. *)
Record BatchRequest : Set := {
  req_chainId : Z;
  req_provider : option Provider;
  req_contexts : list Context
}.

#[global] Instance BatchRequest_eq_dec : EqDecision BatchRequest.
Proof. solve_decision. Defined.

Record LinkedPrizePool : Set := {
  providers : Providers;
  prizePools : list PrizePool;
  contractList : ContractList
}.

(** Modelled from the spec: [sortContractsByChainId] of [./utils] is not
    among the sources; it partitions the descriptors by network id, each
    part in input order. *)
Definition sortContractsByChainId (cs : list Contract) : gmap Z (list Contract) :=
  foldr (fun c m => <[chainId c := filter (fun x => chainId x = chainId c) cs]> m)
    ∅ cs.

(** Modelled from the spec: part of [sortContractsByContractTypeAndChildren],
    which is not among the sources.  [c] is one of the declared children of
    [parent]: same network id and address. *)
Definition is_child_of (parent c : Contract) : Prop :=
  match children (extensions parent) with
  | Some l =>
      Exists (fun ch => child_chainId ch = chainId c /\ child_address ch = address c) l
  | None => False
  end.

#[global] Instance is_child_of_dec parent c : Decision (is_child_of parent c).
Proof. unfold is_child_of. destruct (children (extensions parent)); apply _. Defined.

(** Modelled from the spec: [sortContractsByContractTypeAndChildren] of
    [./utils] is not among the sources.  One group per descriptor of the
    given type, in input order: the descriptor itself, then its declared
    children of type Token or Ticket found among the full list. *)
Definition sortContractsByContractTypeAndChildren (cs : list Contract)
    (t : ContractType.t) : list (list Contract) :=
  map (fun parent =>
         parent ::
         filter (fun c => (type c = ContractType.Token \/ type c = ContractType.Ticket)
                          /\ is_child_of parent c) cs)
    (getContractsByType cs t).

(** Modelled from the spec: part of [extendContractWithChildren], which is
    not among the sources.  "Record the discovered {token, ticket} pair as
    declared children on the corresponding primary descriptor": a copy of
    the descriptor with the pair as its children; the descriptor itself
    when nothing was discovered for it. *)
Definition withChildren (c : Contract) (found : option ChildAddresses) : Contract :=
  match found with
  | Some found =>
      {| chainId := chainId c; address := address c;
         version := version c; type := type c; abi := abi c;
         tags := tags c;
         extensions :=
           {| children :=
                Some [ {| child_chainId := chainId c;
                          child_address := addr_token found |};
                       {| child_chainId := chainId c;
                          child_address := addr_ticket found |} ] |} |}
  | None => c
  end.

(** Modelled from the spec: [extendContractWithChildren] of [./utils] is not
    among the sources.  A descriptor of the given type gets the discovered
    [{token, ticket}] pair recorded as its declared children; when its
    network has no entry (the batch of that network failed) the deployment
    is excluded from the augmented list.  Other descriptors are kept. *)
Definition extendContractWithChildren (cs : list Contract)
    (addressesByChainId : PrizePoolAddressesByChainId) (t : ContractType.t)
  : list Contract :=
  flat_map
    (fun c =>
       if decide (type c = t) then
         match addressesByChainId !! chainId c with
         | None => []
         | Some addresses => [withChildren c (addresses !! address c)]
         end
       else [c])
    cs.

(** [createTokenContract] *)
Definition createTokenContract (chain : Z) (addr : string) : Contract :=
  {| chainId := chain;
     address := addr;
     version := {| major := 1; minor := 0; patch := 0 |};
     type := ContractType.Token;
     abi := ERC20Abi;
     tags := [];
     extensions := {| children := None |} |}.

(** [contracts.find(c => c.address === token.address && c.chainId === token.chainId)] *)
Definition find_contract (cs : list Contract) (token : Child) : option Contract :=
  List.find
    (fun c => bool_decide (address c = child_address token
                           /\ chainId c = child_chainId token)) cs.

(** The body of the [forEach] of [extendContractsWithToken]: the lookup is
    made in [contracts], the list passed in; the push goes to
    [updatedContracts], its copy. *)
Definition push_missing (contracts updatedContracts : list Contract)
    (token : Child) : list Contract :=
  match find_contract contracts token with
  | Some _ => updatedContracts
  | None =>
      updatedContracts
        ++ [createTokenContract (child_chainId token) (child_address token)]
  end.

(** [extendContractsWithToken] *)
Definition extendContractsWithToken (contracts : list Contract) : list Contract :=
  let updatedContracts := contracts in
  let tokens : list Child :=
    flat_map (fun c => default [] (children (extensions c)))
      (filter (fun c => is_Some (children (extensions c))) contracts) in
  fold_left (push_missing contracts) tokens updatedContracts.

(** [new PrizePool(provider, contracts)], the call [createPrizePools]
    makes: two arguments for the three parameters [(prizePoolMetadata,
    signerOrProvider, contractMetadataList)] of the constructor.  The
    client is bound to [prizePoolMetadata], the group to
    [signerOrProvider], and [contractMetadataList] is [undefined].  The
    constructor evaluates [new Contract(prizePoolMetadata.address,
    prizePoolMetadata.abi, signerOrProvider)].  When the network has no
    client, [prizePoolMetadata] is [undefined] and reading a property of
    it throws a TypeError.  When it has one, a client has neither an
    [address] nor an [abi], and the [Contract] of ethers throws a
    TypeError when it maps over the fragments of an undefined ABI.  No
    handle is built either way. *)
Definition new_PrizePool_two_arguments (provider : option Provider)
    (contracts : list Contract) : Result PrizePool :=
  match provider with
  | None => Thrown (TypeError "Cannot read properties of undefined")
  | Some _ => Thrown (TypeError "Cannot read properties of undefined")
  end.

(** [createPrizePools]: a [map] over the groups; an exception thrown in
    the callback, by [prizePoolContract.chainId] when [find] found nothing
    or by the constructor, leaves the loop and the function. *)
Fixpoint createPrizePools_from (providers : Providers)
    (groups : list (list Contract)) : Result (list PrizePool) :=
  match groups with
  | [] => Returned []
  | contracts :: rest =>
      match List.find (fun c => bool_decide (type c = ContractType.YieldSourcePrizePool))
              contracts with
      | None => Thrown (TypeError "Cannot read properties of undefined")
      | Some prizePoolContract =>
          let provider := providers !! chainId prizePoolContract in
          match new_PrizePool_two_arguments provider contracts with
          | Thrown e => Thrown e
          | Returned prizePool =>
              match createPrizePools_from providers rest with
              | Thrown e => Thrown e
              | Returned prizePools => Returned (prizePool :: prizePools)
              end
          end
      end
  end.

Definition createPrizePools (providers : Providers) (contracts : list Contract)
  : Result (list PrizePool) :=
  let prizePoolContractLists :=
    sortContractsByContractTypeAndChildren contracts
      ContractType.YieldSourcePrizePool in
  createPrizePools_from providers prizePoolContractLists.

(** The constructor of [LinkedPrizePool]. *)
Definition new_LinkedPrizePool (providers : Providers)
    (linkedPrizePoolContractList : ContractList) : Result LinkedPrizePool :=
  match createPrizePools providers (contracts linkedPrizePoolContractList) with
  | Thrown e => Thrown e
  | Returned prizePools =>
      Returned {| providers := providers;
                  prizePools := prizePools;
                  contractList := linkedPrizePoolContractList |}
  end.

Section Assembly.

(** [batch] of etherplex: one round trip for all the contexts; [None]
    when it rejects. *)
Variable batch : Provider -> list Context -> option (gmap string ContextResult).

(** [etherplexContract(address, abi, address).token().ticket()] *)
Definition batchCall (prizePoolContract : Contract) : Context :=
  {| ctx_name := address prizePoolContract;
     ctx_abi := abi prizePoolContract;
     ctx_address := address prizePoolContract;
     ctx_calls := ["token"; "ticket"] |}.

(** [batch(provider as BaseProvider, ...batchCalls)]: with no client
    ([undefined]) the call rejects. *)
Definition call_batch (provider : option Provider) (batchCalls : list Context)
  : option (gmap string ContextResult) :=
  match provider with
  | Some p => batch p batchCalls
  | None => None
  end.

(** [Object.keys(result).forEach(...)]: every key of the result gets
    [{ token: result[key].token[0], ticket: result[key].ticket[0] }]. *)
Definition addressesOfResult (result : gmap string ContextResult)
  : gmap string ChildAddresses :=
  (fun r => {| addr_token := res_token r; addr_ticket := res_ticket r |})
    <$> result.

(** [fetchPrizePoolAddressesByChainId]: the call of [batch] it makes, and
    what its promise settles to ([None]: rejected). *)
Definition fetchPrizePoolAddressesByChainId (chain : Z)
    (provider : option Provider) (prizePoolContracts : list Contract)
  : list BatchRequest * option (Z * gmap string ChildAddresses) :=
  let batchCalls := map batchCall prizePoolContracts in
  let request :=
    {| req_chainId := chain; req_provider := provider;
       req_contexts := batchCalls |} in
  match call_batch provider batchCalls with
  | None => ([request], None)
  | Some result =>
      let addressesByPrizePool := addressesOfResult result in
      ([request], Some (chain, addressesByPrizePool))
  end.

(** The primary pools of one network, and whether the batch for them
    succeeds. *)
Definition poolsOn (chain : Z) (contracts : list Contract) : list Contract :=
  filter (fun c => chainId c = chain)
    (getContractsByType contracts ContractType.YieldSourcePrizePool).

(** What the fetch for one network is fulfilled with, if it is. *)
Definition addressesOn (providers : Providers) (contracts : list Contract)
    (chain : Z) : option (gmap string ChildAddresses) :=
  match call_batch (providers !! chain) (map batchCall (poolsOn chain contracts)) with
  | Some result => Some (addressesOfResult result)
  | None => None
  end.

Definition batch_succeeds (providers : Providers) (contracts : list Contract)
    (chain : Z) : Prop :=
  is_Some (call_batch (providers !! chain) (map batchCall (poolsOn chain contracts))).

#[global] Instance batch_succeeds_dec providers contracts chain :
  Decision (batch_succeeds providers contracts chain).
Proof. unfold batch_succeeds. apply _. Defined.

(** The first half of [initializeLinkedPrizePool]: one fetch per network
    holding a primary pool, all settled. *)
Definition fetchAll (providers : Providers) (contracts : list Contract)
  : list (list BatchRequest * option (Z * gmap string ChildAddresses)) :=
  let prizePoolContracts :=
    getContractsByType contracts ContractType.YieldSourcePrizePool in
  let prizePoolContractsByChainId := sortContractsByChainId prizePoolContracts in
  let chainIds := map fst (map_to_list prizePoolContractsByChainId) in
  map (fun chain =>
         fetchPrizePoolAddressesByChainId chain (providers !! chain)
           (default [] (prizePoolContractsByChainId !! chain)))
    chainIds.

(** The responses that are [fulfilled], then the object keyed by network. *)
Definition collectAddresses
    (responses : list (list BatchRequest * option (Z * gmap string ChildAddresses)))
  : PrizePoolAddressesByChainId :=
  let prizePoolAddresses := omap snd responses in
  fold_left (fun m ppa => <[fst ppa := snd ppa]> m) prizePoolAddresses ∅.

(** [initializeLinkedPrizePool]: the batched reads sent and the outcome. *)
Definition initializeLinkedPrizePool (providers : Providers)
    (linkedPrizePoolContractList : ContractList)
  : list BatchRequest * Result LinkedPrizePool :=
  let contracts := contracts linkedPrizePoolContractList in
  let prizePoolAddressesResponses := fetchAll providers contracts in
  let prizePoolAddressesByChainId := collectAddresses prizePoolAddressesResponses in
  let contractsWithChildren :=
    extendContractWithChildren contracts prizePoolAddressesByChainId
      ContractType.YieldSourcePrizePool in
  let contractsWithToken := extendContractsWithToken contractsWithChildren in
  let updatedContractList :=
    {| list_name := list_name linkedPrizePoolContractList;
       contracts := contractsWithToken |} in
  (concat (map fst prizePoolAddressesResponses),
   new_LinkedPrizePool providers updatedContractList).

End Assembly.

(** ** The assembler on a store of JS objects

    [extendContractsWithToken] copies an array and pushes onto the copy.
    To say that the caller's array and descriptors are left alone, arrays
    and descriptor objects live in a store and are passed by reference. *)

Module Store.

(** Arrays of references to descriptor objects, the descriptor objects,
    and the next free reference. *)
Record Heap : Type := {
  arrays : gmap nat (list nat);
  objects : gmap nat Contract;
  next_loc : nat
}.

(** [[...elems]], or any operation returning a new array. *)
Definition alloc_array (elems : list nat) (h : Heap) : nat * Heap :=
  (next_loc h,
   {| arrays := <[next_loc h := elems]> (arrays h);
      objects := objects h;
      next_loc := S (next_loc h) |}).

(** An object literal. *)
Definition alloc_object (c : Contract) (h : Heap) : nat * Heap :=
  (next_loc h,
   {| arrays := arrays h;
      objects := <[next_loc h := c]> (objects h);
      next_loc := S (next_loc h) |}).

(** [array.push(x)] *)
Definition push (array x : nat) (h : Heap) : Heap :=
  {| arrays := alter (fun l => l ++ [x]) array (arrays h);
     objects := objects h;
     next_loc := next_loc h |}.

Definition elements (h : Heap) (array : nat) : list nat :=
  default [] (arrays h !! array).

(** The descriptors an array holds. *)
Definition deref (h : Heap) (array : nat) : list Contract :=
  omap (fun o => objects h !! o) (elements h array).

(** The body of the [forEach] of [extendContractsWithToken]. *)
Definition push_missing (contracts : list Contract) (updatedContracts : nat)
    (h : Heap) (token : Child) : Heap :=
  match find_contract contracts token with
  | Some _ => h
  | None =>
      let (o, h') :=
        alloc_object
          (createTokenContract (child_chainId token) (child_address token)) h in
      push updatedContracts o h'
  end.

(** [extendContractsWithToken] *)
Definition extendContractsWithToken (contracts : nat) (h : Heap) : nat * Heap :=
  let (updatedContracts, h1) := alloc_array (elements h contracts) h in
  let values := deref h contracts in
  let tokens : list Child :=
    flat_map (fun c => default [] (children (extensions c)))
      (filter (fun c => is_Some (children (extensions c))) values) in
  (updatedContracts,
   fold_left (push_missing values updatedContracts) tokens h1).

(** Modelled from the spec: part of [extendContractWithChildren], which is
    not among the sources.  What one element contributes to the new array:
    a new object for an extended descriptor, the same reference for a
    descriptor kept as it is, nothing for an excluded deployment. *)
Definition extend_one (addressesByChainId : PrizePoolAddressesByChainId)
    (t : ContractType.t) (acc : list nat * Heap) (o : nat) : list nat * Heap :=
  match objects (snd acc) !! o with
  | None => acc
  | Some c =>
      if decide (type c = t) then
        match addressesByChainId !! chainId c with
        | None => acc
        | Some addresses =>
            match addresses !! address c with
            | Some found =>
                let (o', h') := alloc_object (withChildren c (Some found)) (snd acc) in
                (fst acc ++ [o'], h')
            | None => (fst acc ++ [o], snd acc)
            end
        end
      else (fst acc ++ [o], snd acc)
  end.

(** Modelled from the spec: [extendContractWithChildren] of [./utils] is
    not among the sources.  Descriptors are "never mutated": the extended
    descriptor is a new object, and the result a new array. *)
Definition extendContractWithChildren (contracts : nat)
    (addressesByChainId : PrizePoolAddressesByChainId) (t : ContractType.t)
    (h : Heap) : nat * Heap :=
  let (elems, h1) :=
    fold_left (extend_one addressesByChainId t) (elements h contracts) ([], h) in
  alloc_array elems h1.

(** A [ContractList] object: its [contracts] field is a reference. *)
Record ContractListRef : Set := {
  ref_name : string;
  ref_contracts : nat
}.

(** A [LinkedPrizePool] object. *)
Record LinkedPrizePoolRef : Set := {
  ref_providers : Providers;
  ref_prizePools : list PrizePool;
  ref_contractList : ContractListRef
}.

Section Assembly.

Variable batch : Provider -> list Context -> option (gmap string ContextResult).

(** [extendContractWithChildren] of [./utils], which is not among the
    sources: it is handed the caller's array and returns the array that
    [extendContractsWithToken] then works on.  Any function on the store
    can stand for it, one returning the very array it was given
    included. *)
Variable extendWithChildren :
  nat -> PrizePoolAddressesByChainId -> ContractType.t -> Heap -> nat * Heap.

(** [initializeLinkedPrizePool]: the fetches only read the descriptors;
    the two extensions run on the store; the constructor of
    [LinkedPrizePool] reads the descriptors of the augmented array. *)
Definition initializeLinkedPrizePool (providers : Providers)
    (linkedPrizePoolContractList : ContractListRef) (h : Heap)
  : Result LinkedPrizePoolRef * Heap :=
  let contracts := ref_contracts linkedPrizePoolContractList in
  let prizePoolAddressesResponses := fetchAll batch providers (deref h contracts) in
  let prizePoolAddressesByChainId := collectAddresses prizePoolAddressesResponses in
  let (contractsWithChildren, h1) :=
    extendWithChildren contracts prizePoolAddressesByChainId
      ContractType.YieldSourcePrizePool h in
  let (contractsWithToken, h2) := extendContractsWithToken contractsWithChildren h1 in
  let updatedContractList :=
    {| ref_name := ref_name linkedPrizePoolContractList;
       ref_contracts := contractsWithToken |} in
  (match createPrizePools providers (deref h2 contractsWithToken) with
   | Thrown e => Thrown e
   | Returned prizePools =>
       Returned {| ref_providers := providers;
                   ref_prizePools := prizePools;
                   ref_contractList := updatedContractList |}
   end, h2).

End Assembly.

(** [h'] has everything [h] had, unchanged. *)
Definition extends (h h' : Heap) : Prop :=
  (next_loc h <= next_loc h')%nat /\
  forall l, (l < next_loc h)%nat ->
            arrays h' !! l = arrays h !! l /\ objects h' !! l = objects h !! l.

(** Every reference held by the store was allocated. *)
Definition well_formed (h : Heap) : Prop :=
  (forall l, is_Some (arrays h !! l) -> (l < next_loc h)%nat) /\
  (forall l, is_Some (objects h !! l) -> (l < next_loc h)%nat).

End Store.

(** The state of the loop of [extendContractsWithToken]: nothing of the
    store [h0] the function was called on has changed, and the copy holds
    allocated descriptors. *)
Record store_loop (h0 h : Store.Heap) (updated : nat) : Prop := {
  loop_extends : Store.extends h0 h;
  loop_fresh : (Store.next_loc h0 <= updated)%nat;
  loop_array : is_Some (Store.arrays h !! updated);
  loop_objects : forall o, is_Some (Store.objects h !! o) -> (o < Store.next_loc h)%nat;
  loop_elements :
    Forall (fun o => is_Some (Store.objects h !! o)) (Store.elements h updated)
}.


(** ** More of [extendContractsWithToken] *)

(** The [tokens] of [extendContractsWithToken]: the children declared by
    the descriptors of the list, in list order. *)
Definition declaredChildren (contracts : list Contract) : list Child :=
  flat_map (fun c => default [] (children (extensions c)))
    (filter (fun c => is_Some (children (extensions c))) contracts).

(** The declared children no descriptor of the list stands for. *)
Definition missingChildren (contracts : list Contract) : list Child :=
  filter (fun token => find_contract contracts token = None)
    (declaredChildren contracts).

(** The (network, address) pair that identifies a descriptor. *)
Definition contractKey (c : Contract) : Z * string := (chainId c, address c).

Definition childKey (token : Child) : Z * string :=
  (child_chainId token, child_address token).

(** ** More of the pool handle *)

(** The token cache and the token metadata go together: both unset, as the
    constructor leaves them, or both set by [getTokenContract], the
    metadata describing an ERC20 token of the handle's network at the
    address of the cached contract, and the contract going through the
    handle's client. *)
Definition token_consistent (t : PrizePool) : Prop :=
  match tokenContract t, tokenMetadata t with
  | None, None => True
  | Some c, Some m =>
      chainId m = pool_chainId t /\
      address m = contract_address c /\
      type m = ContractType.Token /\
      abi m = ERC20Abi /\
      contract_abi c = ERC20Abi /\
      contract_provider c = signerOrProvider t
  | _, _ => False
  end.

Section Keeps.

Variable chain : nat -> Call -> option Value.

(** The call [p] keeps the property [J] of the handle. *)
Definition keeps {A : Type} (J : PrizePool -> Prop) (p : Prog A) : Prop :=
  forall w, J (this w) -> J (this (snd (run chain p w))).

End Keeps.

(** ** Concrete handles and chains *)

Module Examples.

Definition is_hex_digit (a : ascii) : bool :=
  let n := nat_of_ascii a in
  ((48 <=? n) && (n <=? 57) || (65 <=? n) && (n <=? 70)
   || (97 <=? n) && (n <=? 102))%nat.

(** An address in hexadecimal: [0x] and forty hex digits. *)
Definition isAddress (s : string) : bool :=
  match s with
  | String "0" (String "x" digits) =>
      (String.length digits =? 40)%nat
      && forallb is_hex_digit (String.list_ascii_of_string digits)
  | _ => false
  end.

Definition pool_address : string := "0x1111111111111111111111111111111111111111".
Definition token_address : string := "0xaaaaaaaaaaaaaaaaaaaaaaaaaaaaaaaaaaaaaaaa".
Definition ticket_address : string := "0xbbbbbbbbbbbbbbbbbbbbbbbbbbbbbbbbbbbbbbbb".
Definition user : string := "0x2222222222222222222222222222222222222222".
Definition delegate : string := "0x3333333333333333333333333333333333333333".

Definition version1 : Version := {| major := 1; minor := 0; patch := 0 |}.

Definition pool_metadata : Contract :=
  {| chainId := 1; address := pool_address; version := version1;
     type := ContractType.PrizePool; abi := NamedAbi "PrizePool"; tags := [];
     extensions := {| children := None |} |}.

(** A handle on network 1, as its constructor leaves it: nothing cached. *)
Definition handle (p : Provider) : PrizePool :=
  {| pool_chainId := 1;
     signerOrProvider := p;
     contractMetadataList := [pool_metadata];
     prizePoolMetadata := pool_metadata;
     ticketMetadata := None;
     tokenMetadata := None;
     prizePoolContract :=
       {| contract_id := 0; contract_address := pool_address;
          contract_abi := NamedAbi "PrizePool"; contract_provider := p |};
     ticketContract := None;
     tokenContract := None |}.

Definition mainnet : Provider := {| provider_network := 1 |}.
Definition goerli : Provider := {| provider_network := 5 |}.

Definition world0 : World :=
  {| this := handle mainnet; reads := []; next_id := 1 |}.

(** The same handle with a client bound to another network. *)
Definition world_wrong_network : World :=
  {| this := handle goerli; reads := []; next_id := 1 |}.

(** A chain that answers every read. *)
Definition chain_ok (n : nat) (c : Call) : option Value :=
  match c with
  | call_getToken _ => Some (VAddress token_address)
  | call_getTicket _ => Some (VAddress ticket_address)
  | call_balanceOf _ _ => Some (VNumber 5)
  | call_getBalanceAt _ _ _ => Some (VNumber 4)
  | call_allowance _ _ _ => Some (VNumber 100)
  | call_delegateOf _ _ => Some (VAddress delegate)
  | call_totalSupply _ => Some (VNumber 1000)
  | call_getTotalSupplyAt _ _ => Some (VNumber 900)
  | call_tokenData _ =>
      Some (VTokenData {| decimals := 6; name := "USD Coin"; symbol := "USDC" |})
  end.

(** A chain on which the ticket's [getBalanceAt] reverts. *)
Definition chain_twab_reverts (n : nat) (c : Call) : option Value :=
  match c with
  | call_getBalanceAt _ _ _ => None
  | _ => chain_ok n c
  end.

Definition token_contract (id : nat) : EthersContract :=
  {| contract_id := id; contract_address := token_address;
     contract_abi := ERC20Abi; contract_provider := mainnet |}.

Definition ticket_contract (id : nat) : EthersContract :=
  {| contract_id := id; contract_address := ticket_address;
     contract_abi := TicketAbi; contract_provider := mainnet |}.

(** *** Contract lists *)

Definition pool2_address : string := "0x4444444444444444444444444444444444444444".
Definition ticket2_address : string := "0xcccccccccccccccccccccccccccccccccccccccc".

Definition descriptor (chain : Z) (addr : string) (t : ContractType.t)
    (a : Abi) (kids : option (list Child)) : Contract :=
  {| chainId := chain; address := addr; version := version1; type := t;
     abi := a; tags := []; extensions := {| children := kids |} |}.

Definition child (chain : Z) (addr : string) : Child :=
  {| child_chainId := chain; child_address := addr |}.

(** Two primary pools on network 1 over the same token, each with its own
    ticket; the tickets are in the list, the token is not. *)
Definition two_pools_one_token : list Contract :=
  [ descriptor 1 pool_address ContractType.YieldSourcePrizePool
      (NamedAbi "YieldSourcePrizePool")
      (Some [child 1 token_address; child 1 ticket_address]);
    descriptor 1 ticket_address ContractType.Ticket TicketAbi None;
    descriptor 1 pool2_address ContractType.YieldSourcePrizePool
      (NamedAbi "YieldSourcePrizePool")
      (Some [child 1 token_address; child 1 ticket2_address]);
    descriptor 1 ticket2_address ContractType.Ticket TicketAbi None ].

(** A flat list: one primary pool on network 1 and one on network 137. *)
Definition two_networks : list Contract :=
  [ descriptor 1 pool_address ContractType.YieldSourcePrizePool
      (NamedAbi "YieldSourcePrizePool") None;
    descriptor 137 pool2_address ContractType.YieldSourcePrizePool
      (NamedAbi "YieldSourcePrizePool") None ].

(** The same two deployments under the type tag [initializePrizePools]
    looks for. *)
Definition two_networks_PrizePool : list Contract :=
  [ descriptor 1 pool_address ContractType.PrizePool (NamedAbi "PrizePool") None;
    descriptor 137 pool2_address ContractType.PrizePool (NamedAbi "PrizePool") None ].

Definition polygon : Provider := {| provider_network := 137 |}.

(** Clients for network 1 only. *)
Definition mainnet_only : Providers := {[ 1 := mainnet ]}.

Definition both_networks : Providers := <[ 137 := polygon ]> {[ 1 := mainnet ]}.

(** A multicall that answers, for every context, with the same token and
    a ticket. *)
Definition batch_ok (p : Provider) (calls : list Context)
  : option (gmap string ContextResult) :=
  Some (list_to_map
          (map (fun ctx => (ctx_name ctx,
                            {| res_token := token_address;
                               res_ticket := ticket_address |})) calls)).

(** A multicall that fails on network 137. *)
Definition batch_polygon_down (p : Provider) (calls : list Context)
  : option (gmap string ContextResult) :=
  if decide (provider_network p = 137) then None else batch_ok p calls.

(** A store holding the flat list [two_networks] as the array 2 of the
    descriptor objects 0 and 1. *)
Definition store0 : Store.Heap :=
  {| Store.arrays := {[ 2%nat := [0%nat; 1%nat] ]};
     Store.objects :=
       <[ 1%nat := descriptor 137 pool2_address ContractType.YieldSourcePrizePool
                     (NamedAbi "YieldSourcePrizePool") None ]>
         {[ 0%nat := descriptor 1 pool_address ContractType.YieldSourcePrizePool
                       (NamedAbi "YieldSourcePrizePool") None ]};
     Store.next_loc := 3 |}.

Definition list0 : Store.ContractListRef :=
  {| Store.ref_name := "linked"; Store.ref_contracts := 2 |}.

End Examples.

(** ** More concrete chains and lists *)

Module MoreExamples.

(** A chain on which the first read sent, if it is [getToken], is not
    answered; every other read is answered as on [Examples.chain_ok]. *)
Definition chain_token_flaky (n : nat) (c : Call) : option Value :=
  match c, n with
  | call_getToken _, O => None
  | _, _ => Examples.chain_ok n c
  end.

(** The first pool of [Examples.two_pools_one_token] and its children. *)
Definition kidsA : list Child :=
  [Examples.child 1 Examples.token_address;
   Examples.child 1 Examples.ticket_address].

Definition poolA : Contract :=
  Examples.descriptor 1 Examples.pool_address ContractType.YieldSourcePrizePool
    (NamedAbi "YieldSourcePrizePool") (Some kidsA).

(** A list with no descriptor of type YieldSourcePrizePool: one pool under
    the type tag PrizePool, declaring a token the list does not hold. *)
Definition no_primary_pool : ContractList :=
  {| list_name := "linked";
     contracts :=
       [ Examples.descriptor 1 Examples.pool_address ContractType.PrizePool
           (NamedAbi "PrizePool")
           (Some [Examples.child 1 Examples.token_address]) ] |}.

(** Something that is not an address. *)
Definition not_an_address : string := "0x12".

(** A store holding the list [[poolA]] as the array 1 of the descriptor
    object 0: the pool declares a token and a ticket the list does not
    hold. *)
Definition store1 : Store.Heap :=
  {| Store.arrays := {[ 1%nat := [0%nat] ]};
     Store.objects := {[ 0%nat := poolA ]};
     Store.next_loc := 2 |}.

Definition list1 : Store.ContractListRef :=
  {| Store.ref_name := "linked"; Store.ref_contracts := 1 |}.

(** The least an [extendContractWithChildren] can do on the store: hand
    back the very array it was given. *)
Definition returnSameArray (contracts : nat)
    (addressesByChainId : PrizePoolAddressesByChainId) (t : ContractType.t)
    (h : Store.Heap) : nat * Store.Heap :=
  (contracts, h).

End MoreExamples.

(** * Properties of pool handles *)

Section PoolFacts.

Variable chain : nat -> Call -> option Value.
Variable isAddress : string -> bool.

#[local] Abbreviation run := (run chain).

Lemma run_bind {A B : Type} (p : Prog A) (f : A -> Prog B) (w : World) :
  run (bind p f) w =
  match run p w with
  | (Ok a, w') => run (f a) w'
  | (Err e, w') => (Err e, w')
  end.
Proof.
  revert w; induction p as [a|e|k IH|g k IH|addr a pr k IH|c k IH|n k IH|k IH];
    intros w; simpl; auto.
Qed.

Lemma response_fresh (c : Call) (w : World) :
  response chain (length (reads w)) (log_read c w) = chain (length (reads w)) c.
Proof.
  unfold response, log_read; simpl.
  rewrite lookup_app_r by lia.
  replace (length (reads w) - length (reads w))%nat with 0%nat by lia.
  reflexivity.
Qed.

Lemma run_issue (c : Call) (w : World) :
  run (issue c) w = (Ok (length (reads w)), log_read c w).
Proof. reflexivity. Qed.

Lemma run_resolve (key : ChildKey) (w : World) :
  run (resolve key) w = resolve_spec chain key w.
Proof.
  unfold resolve_spec.
  destruct key; simpl.
  - destruct (ticketContract (this w)) as [c|] eqn:Hc; simpl; [reflexivity|].
    rewrite response_fresh.
    destruct (chain _ _) as [[a|n|d]|]; simpl; reflexivity.
  - destruct (tokenContract (this w)) as [c|] eqn:Hc; simpl; [reflexivity|].
    rewrite response_fresh.
    destruct (chain _ _) as [[a|n|d]|]; simpl; reflexivity.
Qed.

(** *** Counting reads *)

Lemma count_call_app (c : Call) (l1 l2 : list Call) :
  count_call c (l1 ++ l2) = (count_call c l1 + count_call c l2)%nat.
Proof. unfold count_call. by rewrite filter_app, length_app. Qed.

Lemma failed_calls_app (c : Call) (n : nat) (l1 l2 : list Call) :
  failed_calls chain c n (l1 ++ l2) =
  (failed_calls chain c n l1 + failed_calls chain c (n + length l1) l2)%nat.
Proof.
  revert n; induction l1 as [|x l1 IH]; intros n; simpl.
  - by rewrite Nat.add_0_r.
  - rewrite IH. replace (S n + length l1)%nat with (n + S (length l1))%nat by lia.
    lia.
Qed.

Lemma failed_le_count (c : Call) (n : nat) (l : list Call) :
  (failed_calls chain c n l <= count_call c l)%nat.
Proof.
  revert n; induction l as [|x l IH]; intros n; simpl; [done|].
  unfold count_call in *. rewrite filter_cons.
  specialize (IH (S n)).
  destruct (decide (x = c)); simpl; [destruct (is_address_answer _)|]; lia.
Qed.

Lemma count_call_single (c x : Call) :
  count_call c [x] = if decide (x = c) then 1%nat else 0%nat.
Proof. unfold count_call. rewrite filter_cons. by destruct (decide (x = c)). Qed.

(** *** [evolves] is a preorder indexed by the reads sent *)

Lemma evolves_refl (w : World) : evolves chain [] w w.
Proof.
  split; auto.
  - by rewrite app_nil_r.
  - intros key. unfold count_call. simpl. lia.
Qed.

Lemma populated_trans (key : ChildKey) (w w' w'' : World) (l l' : list Call) :
  evolves chain l w w' -> evolves chain l' w' w'' ->
  populated key w w'' = (populated key w w' + populated key w' w'')%nat.
Proof.
  intros H1 H2. unfold populated.
  pose proof (ev_cached _ _ _ _ H1 key) as M1.
  pose proof (ev_cached _ _ _ _ H2 key) as M2.
  destruct (cached key (this w)) as [c|];
    destruct (cached key (this w')) as [c'|];
    destruct (cached key (this w'')) as [c''|]; try reflexivity;
    first [ specialize (M1 _ eq_refl); discriminate
          | specialize (M2 _ eq_refl); discriminate ].
Qed.

Lemma resolution_call_frame (key : ChildKey) (l : list Call) (w w' : World) :
  evolves chain l w w' ->
  resolution_call key (this w') = resolution_call key (this w).
Proof. intros H. destruct key; simpl; by rewrite (ev_contract _ _ _ _ H). Qed.

Lemma evolves_trans (l l' : list Call) (w w' w'' : World) :
  evolves chain l w w' -> evolves chain l' w' w'' ->
  evolves chain (l ++ l') w w''.
Proof.
  intros H1 H2. split.
  - by rewrite (ev_chainId _ _ _ _ H2), (ev_chainId _ _ _ _ H1).
  - by rewrite (ev_provider _ _ _ _ H2), (ev_provider _ _ _ _ H1).
  - by rewrite (ev_list _ _ _ _ H2), (ev_list _ _ _ _ H1).
  - by rewrite (ev_metadata _ _ _ _ H2), (ev_metadata _ _ _ _ H1).
  - by rewrite (ev_contract _ _ _ _ H2), (ev_contract _ _ _ _ H1).
  - intros key c E. eapply ev_cached; [exact H2|]. eapply ev_cached; eauto.
  - pose proof (ev_next_id _ _ _ _ H1). pose proof (ev_next_id _ _ _ _ H2). lia.
  - rewrite (ev_reads _ _ _ _ H2), (ev_reads _ _ _ _ H1). by rewrite app_assoc.
  - intros key [c E]. rewrite count_call_app.
    rewrite (ev_hit _ _ _ _ H1 key) by eauto.
    rewrite <- (resolution_call_frame key _ _ _ H1).
    rewrite (ev_hit _ _ _ _ H2 key); [done|].
    exists c. eapply ev_cached; eauto.
  - intros key. rewrite count_call_app, failed_calls_app.
    rewrite (populated_trans key _ _ _ _ _ H1 H2).
    pose proof (ev_miss _ _ _ _ H1 key) as M1.
    pose proof (ev_miss _ _ _ _ H2 key) as M2.
    rewrite (resolution_call_frame key _ _ _ H1) in M2.
    rewrite (ev_reads _ _ _ _ H1), length_app in M2.
    lia.
Qed.

(** *** The resolution budget of a call *)

Lemma within_weaken {A : Type} (key : ChildKey) (n m : nat) (p : Prog A) :
  within chain key n p -> (n <= m)%nat -> within chain key m p.
Proof.
  intros H Hle w. destruct (H w) as (l & He & Hc). exists l. split; [done|lia].
Qed.

Lemma within_bind {A B : Type} (key : ChildKey) (n m : nat)
    (p : Prog A) (f : A -> Prog B) :
  within chain key n p -> (forall a, within chain key m (f a)) ->
  within chain key (n + m) (bind p f).
Proof.
  intros Hp Hf w. rewrite run_bind.
  destruct (Hp w) as (l & He & Hc).
  destruct (run p w) as [[a|e] w'] eqn:E; simpl in *.
  - destruct (Hf a w') as (l' & He' & Hc').
    exists (l ++ l'). split; [eapply evolves_trans; eauto|].
    rewrite count_call_app.
    rewrite (resolution_call_frame key _ _ _ He) in Hc'. lia.
  - exists l. split; [done|lia].
Qed.

(** A call that leaves the world as it is. *)
Lemma within_quiet {A : Type} (key : ChildKey) (p : Prog A) :
  (forall w, snd (run p w) = w) -> within chain key 0 p.
Proof.
  intros H w. exists []. rewrite H. split; [apply evolves_refl|done].
Qed.

Lemma within_Ret {A : Type} (key : ChildKey) (a : A) : within chain key 0 (Ret a).
Proof. by apply within_quiet. Qed.

Lemma within_readThis (key : ChildKey) : within chain key 0 readThis.
Proof. by apply within_quiet. Qed.

Lemma within_validateAddress (key : ChildKey) (u : string) :
  within chain key 0 (validateAddress isAddress u).
Proof.
  apply within_quiet. intros w. unfold validateAddress. simpl.
  by destruct (isAddress u).
Qed.

Lemma within_validateSignerOrProviderNetwork (key : ChildKey) :
  within chain key 0 validateSignerOrProviderNetwork.
Proof.
  apply within_quiet. intros w. unfold validateSignerOrProviderNetwork. simpl.
  by destruct (decide _).
Qed.

Lemma within_awaitNumber (key : ChildKey) (n : nat) :
  within chain key 0 (awaitNumber n).
Proof.
  apply within_quiet. intros w. unfold awaitNumber. simpl.
  by destruct (response chain n w) as [[]|].
Qed.

Lemma within_awaitAddress (key : ChildKey) (n : nat) :
  within chain key 0 (awaitAddress n).
Proof.
  apply within_quiet. intros w. unfold awaitAddress. simpl.
  by destruct (response chain n w) as [[]|].
Qed.

Lemma within_awaitTokenData (key : ChildKey) (n : nat) :
  within chain key 0 (awaitTokenData n).
Proof.
  apply within_quiet. intros w. unfold awaitTokenData. simpl.
  by destruct (response chain n w) as [[]|].
Qed.

Lemma evolves_log_read (c : Call) (w : World) :
  is_accessor_read c = true -> evolves chain [c] w (log_read c w).
Proof.
  intros Hc.
  assert (Hne : forall key, count_call (resolution_call key (this w)) [c] = 0%nat).
  { intros key. rewrite count_call_single.
    destruct (decide _) as [->|]; [|done]. by destruct key. }
  split; simpl; auto.
  intros key. rewrite Hne. lia.
Qed.

Lemma within_issue (key : ChildKey) (c : Call) :
  is_accessor_read c = true -> within chain key 0 (issue c).
Proof.
  intros Hc w. exists [c]. simpl. split; [by apply evolves_log_read|].
  rewrite count_call_single. destruct (decide _) as [->|]; [|done].
  by destruct key.
Qed.

Lemma within_resolve (key key' : ChildKey) :
  within chain key (if decide (key = key') then 1 else 0) (resolve key').
Proof.
  intros w. rewrite run_resolve. unfold resolve_spec.
  destruct (cached key' (this w)) as [c|] eqn:Hc.
  { exists []. split; [apply evolves_refl|]. unfold count_call; simpl; lia. }
  assert (Hcount : forall k, count_call (resolution_call k (this w))
                     [resolution_call key' (this w)]
                   = if decide (k = key') then 1%nat else 0%nat).
  { intros k. rewrite count_call_single.
    destruct k, key'; simpl; repeat case_decide; congruence. }
  exists [resolution_call key' (this w)]. split; [|rewrite Hcount; lia].
  destruct (chain _ _) as [[a|n|d]|] eqn:Hans; simpl.
  1: { split; simpl; auto; try (by destruct key').
       - intros k c E. destruct k, key'; simpl in *; congruence.
       - intros k [c E]. rewrite Hcount. case_decide; [congruence|done].
       - intros k. rewrite Hcount. unfold populated. simpl.
         case_decide as Hk; [subst k|lia].
         rewrite Hc. destruct key'; simpl; lia. }
  all: split; simpl; auto;
    [ intros k [c E]; rewrite Hcount; case_decide; [congruence|done]
    | intros k; rewrite Hcount; case_decide as Hk; [subst k|lia];
      rewrite decide_True by done; rewrite Hans; simpl; lia ].
Qed.

Ltac within_step :=
  first
    [ apply within_Ret
    | apply within_readThis
    | apply within_validateAddress
    | apply within_validateSignerOrProviderNetwork
    | apply within_awaitNumber
    | apply within_awaitAddress
    | apply within_awaitTokenData
    | apply (within_resolve _ key_token)
    | apply (within_resolve _ key_ticket)
    | apply within_issue; reflexivity
    | eapply within_bind; [|intros ?] ].

(** One accessor call sends at most one resolution read per child, and
    keeps [evolves]. *)
Lemma within_call (key : ChildKey) (a : Accessor) :
  within chain key 1 (call isAddress a).
Proof.
  destruct a;
    (eapply within_weaken;
     [ unfold call, fmap_prog,
         getUserPrizePoolBalances, getUserTicketBalance, getUserTicketTwabAt,
         getUserTokenBalance, getUserDepositAllowance, getUserTicketDelegate,
         getTokenData, getTicketData, getTicketTotalSupply,
         getTicketTwabTotalSupplyAt, getUserERC20Balance, utils_getTokenData;
       repeat within_step
     | destruct key; simpl; lia ]).
Qed.

(** *** Sequences of calls *)

Lemma evolves_call (a : Accessor) (w : World) :
  exists l, evolves chain l w (snd (run (call isAddress a) w)).
Proof. destruct (within_call key_token a w) as (l & H & _). eauto. Qed.

Lemma evolves_run_calls (calls : list Accessor) (w : World) :
  exists l, evolves chain l w (run_calls chain isAddress calls w).
Proof.
  revert w; induction calls as [|a calls IH]; intros w; simpl.
  - exists []. apply evolves_refl.
  - destruct (evolves_call a w) as (l & H).
    destruct (IH (snd (run (call isAddress a) w))) as (l' & H').
    exists (l ++ l'). eapply evolves_trans; eauto.
Qed.

Lemma reads_since_evolves (l : list Call) (w w' : World) :
  evolves chain l w w' -> reads_since (length (reads w)) w' = l.
Proof.
  intros H. unfold reads_since. rewrite (ev_reads _ _ _ _ H).
  by rewrite drop_app_length.
Qed.

Lemma run_resolve_cached (key : ChildKey) (c : EthersContract) (w : World) :
  cached key (this w) = Some c -> run (resolve key) w = (Ok c, w).
Proof. intros H. rewrite run_resolve. unfold resolve_spec. by rewrite H. Qed.

(** Every resolution read of a child either failed or is the one that
    filled the cache: at most one of them is answered. *)
Lemma resolution_reads_failed_or_first (calls : list Accessor)
    (key : ChildKey) (w : World) :
  let w' := run_calls chain isAddress calls w in
  let l := reads_since (length (reads w)) w' in
  (resolution_reads key (this w) l
   <= failed_calls chain (resolution_call key (this w)) (length (reads w)) l + 1)%nat.
Proof.
  intros w' l. destruct (evolves_run_calls calls w) as (l0 & H).
  subst l w'. rewrite (reads_since_evolves _ _ _ H).
  pose proof (ev_miss _ _ _ _ H key) as M.
  unfold resolution_reads.
  assert (populated key w (run_calls chain isAddress calls w) <= 1)%nat.
  { unfold populated. repeat case_match; lia. }
  lia.
Qed.

Lemma failed_lt_count (c : Call) (start j : nat) (l : list Call) :
  l !! j = Some c ->
  is_address_answer (chain (start + j) c) = true ->
  (failed_calls chain c start l < count_call c l)%nat.
Proof.
  revert start j; induction l as [|x l IH]; intros start j Hj Hans; [done|].
  unfold count_call in *. simpl. rewrite filter_cons.
  destruct j as [|j]; simpl in Hj.
  - injection Hj as ->. rewrite Nat.add_0_r in Hans.
    rewrite !decide_True by done. rewrite Hans. simpl.
    pose proof (failed_le_count c (S start) l). unfold count_call in *. lia.
  - replace (start + S j)%nat with (S start + j)%nat in Hans by lia.
    specialize (IH (S start) j Hj Hans).
    destruct (decide (x = c)); simpl;
      [destruct (is_address_answer (chain start x))|]; lia.
Qed.

Lemma resolved_between_cached (l : list Call) (key : ChildKey) (w w' : World) :
  evolves chain l w w' -> resolved_between chain key w w' ->
  is_Some (cached key (this w')).
Proof.
  intros H (i & Hi & Hread & Hans).
  rewrite (ev_reads _ _ _ _ H) in Hread.
  rewrite lookup_app_r in Hread by lia.
  pose proof (failed_lt_count _ (length (reads w)) _ _ Hread) as Hlt.
  replace (length (reads w) + (i - length (reads w)))%nat with i in Hlt by lia.
  specialize (Hlt Hans).
  pose proof (ev_miss _ _ _ _ H key) as M.
  unfold populated in M.
  destruct (cached key (this w')) as [c|]; [eauto|].
  destruct (cached key (this w)); lia.
Qed.

(** *** Validation comes first *)

Lemma run_validateAddress (u : string) (w : World) :
  run (validateAddress isAddress u) w =
  (if isAddress u then Ok tt else Err InvalidAddress, w).
Proof. unfold validateAddress. simpl. by destruct (isAddress u). Qed.

Lemma run_validateSignerOrProviderNetwork (w : World) :
  run validateSignerOrProviderNetwork w =
  (if decide (provider_network (signerOrProvider (this w)) = pool_chainId (this w))
   then Ok tt else Err NetworkMismatch, w).
Proof. unfold validateSignerOrProviderNetwork. simpl. by destruct (decide _). Qed.

Ltac unfold_accessors :=
  unfold call, fmap_prog,
    getUserPrizePoolBalances, getUserTicketBalance, getUserTicketTwabAt,
    getUserTokenBalance, getUserDepositAllowance, getUserTicketDelegate,
    getTokenData, getTicketData, getTicketTotalSupply,
    getTicketTwabTotalSupplyAt, getUserERC20Balance, utils_getTokenData.

Ltac unfold_accessors_in H :=
  unfold
    getUserPrizePoolBalances, getUserTicketBalance, getUserTicketTwabAt,
    getUserTokenBalance, getUserDepositAllowance, getUserTicketDelegate,
    getTokenData, getTicketData, getTicketTotalSupply,
    getTicketTwabTotalSupplyAt, getUserERC20Balance, utils_getTokenData in H.

Lemma run_bind_Err {A B : Type} (p : Prog A) (f : A -> Prog B)
    (e : Error) (w w' : World) :
  run p w = (Err e, w') -> run (bind p f) w = (Err e, w').
Proof. intros H. by rewrite run_bind, H. Qed.

Lemma run_validateAddress_rejects {A : Type} (u : string)
    (f : unit -> Prog A) (w : World) :
  isAddress u = false ->
  run (bind (validateAddress isAddress u) f) w = (Err InvalidAddress, w).
Proof.
  intros H. apply run_bind_Err. by rewrite run_validateAddress, H.
Qed.

Lemma run_validateSignerOrProviderNetwork_rejects {A : Type}
    (f : unit -> Prog A) (w : World) :
  provider_network (signerOrProvider (this w)) <> pool_chainId (this w) ->
  run (bind validateSignerOrProviderNetwork f) w = (Err NetworkMismatch, w).
Proof.
  intros H. apply run_bind_Err.
  rewrite run_validateSignerOrProviderNetwork. by rewrite decide_False.
Qed.

Lemma run_past_validateAddress {A : Type} (u : string) (f : unit -> Prog A)
    (w : World) :
  isAddress u = true ->
  run (bind (validateAddress isAddress u) f) w = run (f tt) w.
Proof. intros H. by rewrite run_bind, run_validateAddress, H. Qed.

Lemma run_past_validateSignerOrProviderNetwork {A : Type}
    (f : unit -> Prog A) (w : World) :
  provider_network (signerOrProvider (this w)) = pool_chainId (this w) ->
  run (bind validateSignerOrProviderNetwork f) w = run (f tt) w.
Proof.
  intros H. rewrite run_bind, run_validateSignerOrProviderNetwork.
  by rewrite decide_True.
Qed.

Ltac split_validation H :=
  match type of H with
  | context [if isAddress ?u then _ else _] => destruct (isAddress u) eqn:?
  | context [decide ?P] => destruct (decide P)
  end.

(** A rejected validation ends the call before any read is sent and
    leaves the handle as it was. *)
Lemma validation_rejects (a : Accessor) (e : Error) (w : World) :
  validation isAddress a (this w) = Some e ->
  run (call isAddress a) w = (Err e, w).
Proof.
  unfold validation. intros H.
  destruct a; simpl in H;
    repeat split_validation H;
    try discriminate; injection H as <-;
    unfold call, fmap_prog; apply run_bind_Err; unfold_accessors;
    rewrite ?run_past_validateAddress by assumption;
    first [ by apply run_validateAddress_rejects
          | by apply run_validateSignerOrProviderNetwork_rejects ].
Qed.

Lemma fails_on_reads_only_bind {A B : Type} (p : Prog A) (f : A -> Prog B) :
  fails_on_reads_only chain p -> (forall a, fails_on_reads_only chain (f a)) ->
  fails_on_reads_only chain (bind p f).
Proof.
  intros Hp Hf w e w'. rewrite run_bind.
  destruct (run p w) as [[a|e0] w0] eqn:E.
  - apply Hf.
  - intros [= <- <-]. eapply Hp; eauto.
Qed.

Lemma fails_on_reads_only_never {A : Type} (p : Prog A) :
  (forall w, exists a w', run p w = (Ok a, w')) -> fails_on_reads_only chain p.
Proof. intros H w e w' E. destruct (H w) as (a & w0 & E0). congruence. Qed.

Lemma fails_on_reads_only_resolve (key : ChildKey) :
  fails_on_reads_only chain (resolve key).
Proof.
  intros w e w'. rewrite run_resolve. unfold resolve_spec.
  destruct (cached key (this w)); [congruence|].
  destruct (chain _ _) as [[]|]; simpl; congruence.
Qed.

Lemma fails_on_reads_only_awaitNumber (n : nat) :
  fails_on_reads_only chain (awaitNumber n).
Proof.
  intros w e w'. unfold awaitNumber. simpl.
  destruct (response chain n w) as [[]|]; simpl; congruence.
Qed.

Lemma fails_on_reads_only_awaitAddress (n : nat) :
  fails_on_reads_only chain (awaitAddress n).
Proof.
  intros w e w'. unfold awaitAddress. simpl.
  destruct (response chain n w) as [[]|]; simpl; congruence.
Qed.

Lemma fails_on_reads_only_awaitTokenData (n : nat) :
  fails_on_reads_only chain (awaitTokenData n).
Proof.
  intros w e w'. unfold awaitTokenData. simpl.
  destruct (response chain n w) as [[]|]; simpl; congruence.
Qed.

Ltac reads_only_step :=
  first
    [ apply fails_on_reads_only_awaitNumber
    | apply fails_on_reads_only_awaitAddress
    | apply fails_on_reads_only_awaitTokenData
    | apply (fails_on_reads_only_resolve key_token)
    | apply (fails_on_reads_only_resolve key_ticket)
    | apply fails_on_reads_only_never; intros ?; simpl; do 2 eexists; reflexivity
    | apply fails_on_reads_only_bind; [|intros ?] ].

(** Past its validations, an accessor call fails only when a read fails,
    and then with [ResolutionFailure]. *)
Lemma validated_call_fails_on_reads (a : Accessor) (w w' : World) (e : Error) :
  validation isAddress a (this w) = None ->
  run (call isAddress a) w = (Err e, w') ->
  e = ResolutionFailure.
Proof.
  unfold validation. intros H Hrun.
  destruct a; simpl in H;
    repeat split_validation H;
    try discriminate;
    unfold_accessors; unfold call, fmap_prog in Hrun;
    rewrite run_bind in Hrun;
    unfold_accessors_in Hrun;
    rewrite ?run_past_validateAddress in Hrun by assumption;
    rewrite ?run_past_validateSignerOrProviderNetwork in Hrun by assumption;
    match type of Hrun with
    | context [run ?p w] =>
        assert (Hp : fails_on_reads_only chain p) by (repeat reads_only_step);
        let E := fresh "E" in
        destruct (run p w) as [[?|?] ?] eqn:E;
        [ discriminate | injection Hrun as <- <-; exact (Hp _ _ _ E) ]
    end.
Qed.


(** [getUserTicketDelegate] never rejects with [NetworkMismatch], whatever
    network its client is bound to. *)
Lemma getUserTicketDelegate_never_NetworkMismatch (u : string) (w w' : World)
    (e : Error) :
  run (call isAddress (GetUserTicketDelegate u)) w = (Err e, w') ->
  e <> NetworkMismatch.
Proof.
  intros Hrun.
  destruct (validation isAddress (GetUserTicketDelegate u) (this w)) as [e0|] eqn:Hv.
  - rewrite (validation_rejects _ _ _ Hv) in Hrun. injection Hrun as <- <-.
    unfold validation in Hv. simpl in Hv.
    destruct (isAddress u); congruence.
  - by rewrite (validated_call_fails_on_reads _ _ _ _ Hv Hrun).
Qed.

(** ** Resolve once, cache forever *)

Lemma preserves_bind {A B : Type} (J : World -> Prop) (p : Prog A)
    (f : A -> Prog B) :
  preserves chain J p -> (forall a, preserves chain J (f a)) ->
  preserves chain J (bind p f).
Proof.
  intros Hp Hf w Hw. rewrite run_bind. specialize (Hp w Hw).
  destruct (run p w) as [[a|e] w']; cbn in *; [by apply Hf|done].
Qed.

Lemma preserves_quiet {A : Type} (J : World -> Prop) (p : Prog A) :
  (forall w, snd (run p w) = w) -> preserves chain J p.
Proof. intros H w Hw. by rewrite H. Qed.

Lemma cache_answered_refl (key : ChildKey) (w : World) :
  cache_answered chain key w w.
Proof. split; [done|]. split; [done|]. intros c Hc. by left. Qed.

Lemma cache_answered_log_read (key : ChildKey) (w0 w : World) (c : Call) :
  cache_answered chain key w0 w -> cache_answered chain key w0 (log_read c w).
Proof.
  intros (Hp & Hl & Hc). split; [done|]. split.
  { simpl. rewrite length_app. lia. }
  intros c0 Hc0. destruct (Hc c0 Hc0) as [H|(i & Hi & Hr & Ha)]; [by left|].
  right. exists i. split; [done|]. split; [|done].
  simpl. by apply lookup_app_l_Some.
Qed.

Lemma preserves_issue (key : ChildKey) (w0 : World) (c : Call) :
  preserves chain (cache_answered chain key w0) (issue c).
Proof. intros w Hw. rewrite run_issue. by apply cache_answered_log_read. Qed.

Lemma preserves_resolve (key : ChildKey) (w0 : World) (key' : ChildKey) :
  preserves chain (cache_answered chain key w0) (resolve key').
Proof.
  intros w Hw. rewrite run_resolve. unfold resolve_spec.
  destruct (cached key' (this w)) as [c'|] eqn:Hc'; [done|].
  destruct (chain _ _) as [[a|m|d]|] eqn:Hans;
    try (by apply cache_answered_log_read).
  destruct Hw as (Hp & Hl & Hc). cbn [resolved snd].
  split; [by destruct key'|]. split.
  { cbn [reads]. rewrite length_app. lia. }
  intros c0 Hc0.
  destruct (decide (key = key')) as [<-|Hne].
  - right. exists (length (reads w)). split; [done|].
    assert (Hrc : resolution_call key (this w) = resolution_call key (this w0))
      by (destruct key; cbn; by rewrite Hp).
    rewrite <- Hrc. split.
    + cbn [reads]. by rewrite lookup_app_r, Nat.sub_diag.
    + rewrite Hans. destruct key; cbn in Hc0; by injection Hc0 as <-.
  - assert (Hsame : cached key (this w) = Some c0)
      by (destruct key, key'; cbn in *; congruence).
    destruct (Hc c0 Hsame) as [H|(i & Hi & Hr & Ha)]; [by left|].
    right. exists i. split; [done|]. split; [|done].
    cbn [reads]. by apply lookup_app_l_Some.
Qed.

Ltac preserves_step :=
  first
    [ apply preserves_issue
    | apply (preserves_resolve _ _ key_token)
    | apply (preserves_resolve _ _ key_ticket)
    | apply preserves_quiet; intros ?;
      first [ reflexivity
            | rewrite run_validateAddress; reflexivity
            | rewrite run_validateSignerOrProviderNetwork; reflexivity
            | unfold awaitNumber, awaitAddress, awaitTokenData; simpl;
              match goal with
              | |- context [response ?c ?n ?w] =>
                  destruct (response c n w) as [[]|]; reflexivity
              end ]
    | apply preserves_bind; [|intros ?] ].

Lemma preserves_call (key : ChildKey) (w0 : World) (a : Accessor) :
  preserves chain (cache_answered chain key w0) (call isAddress a).
Proof. destruct a; unfold_accessors; repeat preserves_step. Qed.

(** Whatever accessor calls are made, one after the other, a child found
    cached afterwards was cached before, or is a contract at the address
    some read resolving it was answered with in the meantime. *)
Lemma cache_answered_run_calls (key : ChildKey) (calls : list Accessor)
    (w : World) :
  cache_answered chain key w (run_calls chain isAddress calls w).
Proof.
  assert (H : forall w1, cache_answered chain key w w1 ->
                         cache_answered chain key w
                           (run_calls chain isAddress calls w1)).
  { induction calls as [|a calls IH]; intros w1 Hw1; [done|].
    cbn [run_calls fold_left]. apply IH. by apply preserves_call. }
  apply H, cache_answered_refl.
Qed.

(** C3, amended.  Over accessor calls made one after the other on a
    handle, for each child (token or ticket):
    - one call sends at most one read resolving the child;
    - every read resolving the child either was not answered with an
      address or is the one that filled the cache, so the reads sent are
      at most the failed ones plus one;
    - a read resolving the child that is answered with an address leaves
      the child cached;
    - a child found cached after the calls was cached before them, or is
      a contract at the address that a read resolving it, sent by one of
      the calls, was answered with: while no such read is answered the
      cache stays empty, and every call that needs the child sends the
      read again;
    - once the child is cached, whatever calls follow, the cache holds the
      same contract object, no read resolving the child is sent, and
      resolving the child returns the cached object without touching the
      handle. *)
Theorem resolve_once_cache_forever (w : World) (calls later : list Accessor)
    (key : ChildKey) :
  let w1 := run_calls chain isAddress calls w in
  let w2 := run_calls chain isAddress later w1 in
  let sent := reads_since (length (reads w)) w1 in
  (forall a,
      (resolution_reads key (this w)
         (reads_since (length (reads w)) (run_calls chain isAddress [a] w))
       <= 1)%nat) /\
  (resolution_reads key (this w) sent
   <= failed_calls chain (resolution_call key (this w)) (length (reads w)) sent
      + 1)%nat /\
  (resolved_between chain key w w1 -> is_Some (cached key (this w1))) /\
  (forall c,
      cached key (this w1) = Some c ->
      cached key (this w) = Some c \/
      exists i : nat,
        (length (reads w) <= i)%nat /\
        reads w1 !! i = Some (resolution_call key (this w)) /\
        chain i (resolution_call key (this w))
        = Some (VAddress (contract_address c))) /\
  (cached key (this w) = None -> ~ resolved_between chain key w w1 ->
   cached key (this w1) = None) /\
  (forall c,
      cached key (this w1) = Some c ->
      cached key (this w2) = Some c /\
      resolution_reads key (this w) (reads_since (length (reads w1)) w2) = 0%nat /\
      run (resolve key) w2 = (Ok c, w2)).
Proof.
  intros w1 w2 sent.
  destruct (cache_answered_run_calls key calls w) as (_ & _ & Hfrom).
  fold w1 in Hfrom.
  split; [|split; [|split; [|split; [|split]]]].
  - intros a. cbn [run_calls fold_left].
    destruct (within_call key a w) as (l & He & Hn).
    unfold resolution_reads. by rewrite (reads_since_evolves _ _ _ He).
  - exact (resolution_reads_failed_or_first calls key w).
  - destruct (evolves_run_calls calls w) as (l & He).
    by apply (resolved_between_cached l).
  - exact Hfrom.
  - intros Hnone Hnot. destruct (cached key (this w1)) as [c|] eqn:Hc; [|done].
    destruct (Hfrom c eq_refl) as [H|(i & Hi & Hr & Ha)]; [congruence|].
    destruct Hnot. exists i. split; [done|]. split; [done|]. by rewrite Ha.
  - intros c Hc.
    destruct (evolves_run_calls calls w) as (l & He).
    destruct (evolves_run_calls later w1) as (l' & He'). fold w1 in He. fold w2 in He'.
    assert (Hc2 : cached key (this w2) = Some c)
      by exact (ev_cached _ _ _ _ He' _ _ Hc).
    split; [done|]. split; [|by apply run_resolve_cached].
    unfold resolution_reads. rewrite (reads_since_evolves _ _ _ He').
    rewrite <- (resolution_call_frame key _ _ _ He).
    apply (ev_hit _ _ _ _ He'). eauto.
Qed.

(** ** A failed read does not poison the cache *)

(** *** A call that succeeds had all its reads answered *)

Lemma awaits_awaitNumber : awaits chain awaitNumber.
Proof.
  intros m w. unfold awaitNumber. simpl.
  destruct (response chain m w) as [[]|]; simpl; split; done.
Qed.

Lemma awaits_awaitAddress : awaits chain awaitAddress.
Proof.
  intros m w. unfold awaitAddress. simpl.
  destruct (response chain m w) as [[]|]; simpl; split; done.
Qed.

Lemma awaits_awaitTokenData : awaits chain awaitTokenData.
Proof.
  intros m w. unfold awaitTokenData. simpl.
  destruct (response chain m w) as [[]|]; simpl; split; done.
Qed.

Lemma response_earlier (m : nat) (c : Call) (w : World) :
  (m < length (reads w))%nat ->
  response chain m (log_read c w) = response chain m w.
Proof.
  intros H. unfold response, log_read. simpl. by rewrite lookup_app_l.
Qed.

Lemma answered_start (w : World) : answered chain (length (reads w)) w.
Proof.
  intros i c Hi Hl _. apply lookup_lt_Some in Hl. lia.
Qed.

Lemma answered_log_read (n : nat) (c : Call) (w : World) :
  answered chain n w ->
  (is_accessor_read c = true -> chain (length (reads w)) c <> None) ->
  answered chain n (log_read c w).
Proof.
  intros Hw Hc i c' Hi Hl Ha. simpl in Hl.
  destruct (decide (i < length (reads w))%nat) as [Hlt|Hge].
  - rewrite lookup_app_l in Hl by done. by apply (Hw i c').
  - rewrite lookup_app_r in Hl by lia.
    destruct (i - length (reads w))%nat as [|j] eqn:E; [|by destruct j].
    injection Hl as <-. replace i with (length (reads w)) by lia. by apply Hc.
Qed.

Lemma succeeds_answered_bind {A B : Type} (n : nat) (p : Prog A)
    (f : A -> Prog B) :
  succeeds_answered chain n p -> (forall a, succeeds_answered chain n (f a)) ->
  succeeds_answered chain n (bind p f).
Proof.
  intros Hp Hf w b w' Hw. rewrite run_bind.
  destruct (run p w) as [[a|e] w1] eqn:E; [|done].
  intros Hrun. eapply Hf; [|exact Hrun]. eapply Hp; eauto.
Qed.

Lemma succeeds_answered_quiet {A : Type} (n : nat) (p : Prog A) :
  (forall w, snd (run p w) = w) -> succeeds_answered chain n p.
Proof.
  intros H w a w' Hw Hrun. specialize (H w). rewrite Hrun in H.
  simpl in H. by subst w'.
Qed.

Lemma succeeds_answered_resolve (n : nat) (key : ChildKey) :
  succeeds_answered chain n (resolve key).
Proof.
  intros w c w' Hw. rewrite run_resolve. unfold resolve_spec.
  destruct (cached key (this w)); [by intros [= _ <-]|].
  destruct (chain _ _) as [[a|m|d]|]; simpl; try done.
  intros [= _ <-].
  apply (answered_log_read n (resolution_call key (this w)) w Hw).
  by destruct key.
Qed.

(** A read sent and awaited at once. *)
Lemma succeeds_answered_read {A B : Type} (n : nat) (c : Call)
    (q : nat -> Prog A) (f : A -> Prog B) :
  awaits chain q -> (forall a, succeeds_answered chain n (f a)) ->
  succeeds_answered chain n (bind (issue c) (fun m => bind (q m) f)).
Proof.
  intros Hq Hf w b w' Hw. rewrite run_bind, run_issue, run_bind.
  destruct (Hq (length (reads w)) (log_read c w)) as [Hsame Hok].
  destruct (run (q (length (reads w))) (log_read c w)) as [[a|e] w1] eqn:E;
    [|done].
  simpl in Hsame. subst w1. specialize (Hok a eq_refl).
  rewrite response_fresh in Hok.
  intros Hrun. eapply Hf; [|exact Hrun]. by apply answered_log_read.
Qed.

Lemma succeeds_answered_read_last {A : Type} (n : nat) (c : Call)
    (q : nat -> Prog A) :
  awaits chain q -> succeeds_answered chain n (bind (issue c) q).
Proof.
  intros Hq w b w' Hw. rewrite run_bind, run_issue.
  destruct (Hq (length (reads w)) (log_read c w)) as [Hsame Hok].
  destruct (run (q (length (reads w))) (log_read c w)) as [[a|e] w1] eqn:E;
    [|done].
  simpl in Hsame. subst w1. specialize (Hok a eq_refl).
  rewrite response_fresh in Hok.
  intros [= _ <-]. by apply answered_log_read.
Qed.

(** Two reads sent, then awaited in turn ([Promise.all]). *)
Lemma succeeds_answered_two_reads {A B C : Type} (n : nat) (c1 c2 : Call)
    (q1 : nat -> Prog A) (q2 : nat -> Prog B) (f : A -> B -> Prog C) :
  awaits chain q1 -> awaits chain q2 -> (forall a b, succeeds_answered chain n (f a b)) ->
  succeeds_answered chain n
    (bind (issue c1) (fun m1 =>
     bind (issue c2) (fun m2 =>
     bind (q1 m1) (fun a =>
     bind (q2 m2) (fun b => f a b))))).
Proof.
  intros Hq1 Hq2 Hf w x w' Hw.
  rewrite run_bind, run_issue, run_bind, run_issue, run_bind.
  set (w1 := log_read c1 w). set (w2 := log_read c2 w1).
  destruct (Hq1 (length (reads w)) w2) as [Hsame1 Hok1].
  destruct (run (q1 (length (reads w))) w2) as [[a|e] w3] eqn:E1; [|done].
  simpl in Hsame1. subst w3. specialize (Hok1 a eq_refl).
  rewrite run_bind.
  destruct (Hq2 (length (reads w1)) w2) as [Hsame2 Hok2].
  destruct (run (q2 (length (reads w1))) w2) as [[b|e] w3] eqn:E2; [|done].
  simpl in Hsame2. subst w3. specialize (Hok2 b eq_refl).
  subst w2. rewrite response_fresh in Hok2.
  rewrite response_earlier in Hok1
    by (subst w1; simpl; rewrite length_app; simpl; lia).
  subst w1. rewrite response_fresh in Hok1.
  intros Hrun. eapply Hf; [|exact Hrun].
  apply answered_log_read; [by apply answered_log_read|done].
Qed.

Ltac answered_step :=
  first
    [ apply succeeds_answered_two_reads;
      [apply awaits_awaitNumber|apply awaits_awaitNumber|intros ? ?]
    | apply succeeds_answered_read;
      [first [apply awaits_awaitNumber|apply awaits_awaitAddress
             |apply awaits_awaitTokenData]|intros ?]
    | apply succeeds_answered_read_last;
      first [apply awaits_awaitNumber|apply awaits_awaitAddress
            |apply awaits_awaitTokenData]
    | apply (succeeds_answered_resolve _ key_token)
    | apply (succeeds_answered_resolve _ key_ticket)
    | apply succeeds_answered_quiet; intros ?;
      first [ reflexivity
            | rewrite run_validateAddress; reflexivity
            | rewrite run_validateSignerOrProviderNetwork; reflexivity ]
    | apply succeeds_answered_bind; [|intros ?] ].

(** An accessor call that returns had every read it sent for itself
    answered. *)
Lemma succeeds_answered_call (n : nat) (a : Accessor) :
  succeeds_answered chain n (call isAddress a).
Proof.
  destruct a; unfold_accessors; repeat answered_step.
Qed.

(** An accessor call whose own read is not answered rejects with
    [ResolutionFailure]. *)
Lemma unanswered_read_rejects (a : Accessor) (w : World) :
  (exists i c, (length (reads w) <= i)%nat /\
               reads (snd (run (call isAddress a) w)) !! i = Some c /\
               is_accessor_read c = true /\ chain i c = None) ->
  fst (run (call isAddress a) w) = Err ResolutionFailure.
Proof.
  intros (i & c & Hi & Hl & Ha & Hnone).
  destruct (run (call isAddress a) w) as [[x|e] w'] eqn:Hrun; cbn [fst snd] in *.
  - exfalso.
    pose proof (succeeds_answered_call (length (reads w)) a w x w'
                  (answered_start w) Hrun) as Hans.
    by apply (Hans i c).
  - f_equal.
    destruct (validation isAddress a (this w)) as [e'|] eqn:Hv.
    + rewrite (validation_rejects _ _ _ Hv) in Hrun. injection Hrun as _ <-.
      apply lookup_lt_Some in Hl. lia.
    + eapply validated_call_fails_on_reads; eauto.
Qed.

(** C6. When a read that an accessor call sent for itself (not one of
    the two reads resolving a child) is not answered, the call rejects
    with [ResolutionFailure]; a child that was cached before the call is
    still cached, as the same object; a child resolved during the call
    (the chain answered the resolution read) is cached after it although
    the call failed; and resolving a cached child afterwards returns it
    without sending a read. *)
Theorem failed_read_keeps_cache (w : World) (a : Accessor) :
  let out := run (call isAddress a) w in
  let w' := snd out in
  (exists i c, (length (reads w) <= i)%nat /\ reads w' !! i = Some c /\
               is_accessor_read c = true /\ chain i c = None) ->
  fst out = Err ResolutionFailure /\
  forall key,
    (forall c, cached key (this w) = Some c -> cached key (this w') = Some c) /\
    (resolved_between chain key w w' -> is_Some (cached key (this w'))) /\
    (forall c, cached key (this w') = Some c -> run (resolve key) w' = (Ok c, w')).
Proof.
  intros out w' Hread. split; [by apply unanswered_read_rejects|].
  intros key. destruct (evolves_call a w) as (l & He). fold out w' in He.
  split; [|split].
  - intros c. apply (ev_cached _ _ _ _ He).
  - by apply (resolved_between_cached l).
  - intros c. apply run_resolve_cached.
Qed.

(** ** The deposit allowance *)

(** C10. For a well-formed user address on a handle whose client is on the
    handle's network, if the token contract resolves and the chain answers
    the allowance read, [getUserDepositAllowance] sends exactly the read
    [allowance(usersAddress, prizePoolMetadata.address)] to the token
    contract, returns what the chain answered, and [isApproved] is true
    exactly when that allowance is not zero. *)
Theorem getUserDepositAllowance_reads_allowance (w w1 : World)
    (usersAddress : string) (tokenContract : EthersContract) (allowance : Z) :
  isAddress usersAddress = true ->
  provider_network (signerOrProvider (this w)) = pool_chainId (this w) ->
  run getTokenContract w = (Ok tokenContract, w1) ->
  chain (length (reads w1))
    (call_allowance (contract_address tokenContract) usersAddress
       (address (prizePoolMetadata (this w))))
  = Some (VNumber allowance) ->
  run (getUserDepositAllowance isAddress usersAddress) w =
    (Ok {| allowanceUnformatted := allowance;
           isApproved := negb (allowance =? 0)%Z |},
     log_read (call_allowance (contract_address tokenContract) usersAddress
                 (address (prizePoolMetadata (this w)))) w1)
  /\ (negb (allowance =? 0)%Z = true <-> allowance <> 0).
Proof.
  intros Hu Hn Htok Hans. split.
  - unfold getUserDepositAllowance.
    rewrite run_past_validateAddress by done.
    rewrite run_past_validateSignerOrProviderNetwork by done.
    rewrite run_bind, Htok.
    destruct (within_resolve key_token key_token w) as (l & He & _).
    change (resolve key_token) with getTokenContract in He.
    rewrite Htok in He. simpl in He.
    simpl. rewrite (ev_metadata _ _ _ _ He).
    rewrite response_fresh.
    rewrite Hans. reflexivity.
  - rewrite negb_true_iff, Z.eqb_neq. reflexivity.
Qed.

(** ** Calls in flight together *)

(** The interleaving semantics run on a single call is the sequential
    one: resuming a call until it settles is [run]. *)
Lemma run_advance {A : Type} (p : Prog A) (w : World) :
  run p w = run (fst (advance p w)) (snd (advance p w)).
Proof.
  revert w; induction p as [a|e|k IH|g k IH|addr a pr k IH|c k IH|n k IH|k IH];
    intros w; simpl; auto.
Qed.

Lemma run_resume {A : Type} (p : Prog A) (w : World) :
  run p w = run (fst (resume chain p w)) (snd (resume chain p w)).
Proof. destruct p; simpl; auto using run_advance. Qed.

(** A call resolving a child that is not cached sends the read at once
    and suspends; when resumed it builds a new contract object and
    stores it, whatever the cache holds by then. *)
Lemma advance_resolve_miss (key : ChildKey) (w : World) :
  cached key (this w) = None ->
  exists t,
    advance (resolve key) w = (t, log_read (resolution_call key (this w)) w) /\
    resolving key (length (reads w)) t.
Proof.
  intros H. destruct key; simpl in *; rewrite H; simpl;
    (eexists; split; [reflexivity|]);
    (eexists; split; [reflexivity|]);
    intros [[a|n|d]|] w'; reflexivity.
Qed.

Lemma cached_resolved (key : ChildKey) (a : string) (w : World) :
  cached key (this (snd (resolved key a w))) = Some (fst (resolved key a w)).
Proof. by destruct key. Qed.

Lemma contract_id_resolved (key : ChildKey) (a : string) (w : World) :
  contract_id (fst (resolved key a w)) = next_id w.
Proof. reflexivity. Qed.

Lemma in_flight_mono (key : ChildKey) (n b b' : nat) (t : Prog EthersContract) :
  (b <= b')%nat -> in_flight key n b t -> in_flight key n b' t.
Proof.
  intros Hb [H|[H|(c & H & Hc)]]; [by left|by right; left|].
  right; right. exists c. split; [done|lia].
Qed.

(** Resuming a call in flight: either nothing changes (it had settled
    already), or it fails and the world stays, or it stores a contract
    object newer than every one built so far. *)
Lemma resume_in_flight (key : ChildKey) (n : nat) (t : Prog EthersContract)
    (w : World) :
  in_flight key n (next_id w) t ->
  resume chain t w = (t, w) \/
  resume chain t w = (Throw ResolutionFailure, w) \/
  exists a,
    resume chain t w =
      (Ret (fst (resolved key a w)),
       {| this := this (snd (resolved key a w));
          reads := reads w;
          next_id := S (next_id w) |}).
Proof.
  intros [(k & -> & Hk)|[-> |(c & -> & Hc)]]; [|by left|by left].
  simpl. rewrite Hk.
  destruct (response chain n w) as [[a|m|d]|]; eauto.
Qed.

Lemma racing_spawn (key : ChildKey) (w : World) :
  cached key (this w) = None ->
  racing key w (spawn (resolve key) (spawn (resolve key) (idle w))).
Proof.
  intros H.
  destruct (advance_resolve_miss key w H) as (t0 & E0 & R0).
  assert (H1 : cached key (this (log_read (resolution_call key (this w)) w)) = None)
    by done.
  destruct (advance_resolve_miss key _ H1) as (t1 & E1 & R1).
  unfold spawn, idle. simpl. rewrite E0. simpl. rewrite E1. simpl.
  split; simpl.
  - exists t0, t1. split; [done|].
    split; [by left|]. split.
    { left. simpl in R1. rewrite length_app in R1. simpl in R1.
      by rewrite Nat.add_1_r in R1. }
    split.
    + intros c0 c1 ->. destruct R0 as (k & Hk & _). discriminate.
    + intros c. rewrite H. discriminate.
  - by rewrite <- app_assoc.
Qed.

#[local] Arguments resolved : simpl never.

Lemma racing_step (key : ChildKey) (w : World) (i : nat)
    (s : System EthersContract) :
  racing key w s -> racing key w (step chain i s).
Proof.
  intros [(t0 & t1 & Ht & F0 & F1 & Hd & Hc) Hr].
  unfold step. rewrite Ht.
  destruct i as [|[|i]]; simpl; [| |by split; eauto 10].
  - destruct (resume_in_flight key _ t0 (world s) F0) as [E|[E|(a & E)]];
      rewrite E; simpl.
    + split; simpl; eauto 10.
    + split; simpl; [|done]. exists (Throw ResolutionFailure), t1.
      split; [done|]. split; [by right; left|]. split; [done|].
      split; [discriminate|].
      intros c Hcc. destruct (Hc c Hcc) as [-> | ->];
        [simpl in E; discriminate|by right].
    + split; simpl; [|done].
      exists (Ret (fst (resolved key a (world s)))), t1.
      split; [done|]. split.
      { right; right. eexists. split; [done|].
        rewrite contract_id_resolved. simpl. lia. }
      split; [eapply in_flight_mono; [|exact F1]; lia|].
      split.
      * intros c0 c1 [= <-] ->. simpl.
        destruct F1 as [(k & Hk & _)|[Hk|(c & [= <-] & Hlt)]];
          try discriminate. lia.
      * intros c Hcc.
        change (cached key (this (snd (resolved key a (world s)))) = Some c) in Hcc.
        rewrite cached_resolved in Hcc. injection Hcc as <-. by left.
  - destruct (resume_in_flight key _ t1 (world s) F1) as [E|[E|(a & E)]];
      rewrite E; simpl.
    + split; simpl; eauto 10.
    + split; simpl; [|done]. exists t0, (Throw ResolutionFailure).
      split; [done|]. split; [done|]. split; [by right; left|].
      split; [discriminate|].
      intros c Hcc. destruct (Hc c Hcc) as [-> | ->];
        [by left|simpl in E; discriminate].
    + split; simpl; [|done].
      exists t0, (Ret (fst (resolved key a (world s)))).
      split; [done|].
      split; [eapply in_flight_mono; [|exact F0]; lia|].
      split.
      { right; right. eexists. split; [done|].
        rewrite contract_id_resolved. simpl. lia. }
      split.
      * intros c0 c1 -> [= <-]. simpl.
        destruct F0 as [(k & Hk & _)|[Hk|(c & [= <-] & Hlt)]];
          try discriminate. lia.
      * intros c Hcc.
        change (cached key (this (snd (resolved key a (world s)))) = Some c) in Hcc.
        rewrite cached_resolved in Hcc. injection Hcc as <-. by right.
Qed.

Lemma racing_schedule (key : ChildKey) (w : World) (order : list nat)
    (s : System EthersContract) :
  racing key w s -> racing key w (schedule chain order s).
Proof.
  revert s; induction order as [|i order IH]; intros s H; simpl; [done|].
  apply IH. by apply racing_step.
Qed.

(** Two calls resolving the same child, made before either is resumed:
    two resolution reads are sent, two calls that both succeed hold two
    distinct contract objects, and the object in the cache is the one of a
    call that succeeded. *)
Lemma racing_resolutions (key : ChildKey) (w : World) (order : list nat) :
  cached key (this w) = None ->
  let s := race chain (resolve key) (resolve key) order w in
  resolution_reads key (this w) (reads_since (length (reads w)) (world s)) = 2%nat /\
  (forall c0 c1,
      result_of 0 s = Some (Ok c0) -> result_of 1 s = Some (Ok c1) ->
      contract_id c0 <> contract_id c1) /\
  (forall c,
      cached key (this (world s)) = Some c ->
      result_of 0 s = Some (Ok c) \/ result_of 1 s = Some (Ok c)).
Proof.
  intros H s.
  assert (R : racing key w s).
  { subst s. unfold race. apply racing_schedule. by apply racing_spawn. }
  destruct R as [(t0 & t1 & Ht & F0 & F1 & Hd & Hc) Hr].
  split; [|split].
  - unfold reads_since, resolution_reads. rewrite Hr, drop_app_length.
    change [resolution_call key (this w); resolution_call key (this w)]
      with ([resolution_call key (this w)] ++ [resolution_call key (this w)]).
    rewrite count_call_app, count_call_single. by rewrite decide_True.
  - unfold result_of. rewrite Ht. simpl. intros c0 c1 E0 E1.
    apply Hd.
    + destruct t0; simpl in E0; congruence.
    + destruct t1; simpl in E1; congruence.
  - unfold result_of. rewrite Ht. simpl. intros c Hcc.
    destruct (Hc c Hcc) as [-> | ->]; auto.
Qed.

(** C1, as the code has it. [getTokenContract] holds no marker of a
    resolution in flight: it tests the cache, and the cache is only filled
    when the read has come back.  So when two calls of [getTokenContract]
    are made on a handle with no token cached, before either is resumed,
    then whatever the order in which they are resumed: two [getToken]
    reads are sent, not one; two calls that both succeed receive two
    distinct contract objects; and the object left in the cache is the one
    of a call that succeeded. *)
Theorem concurrent_getTokenContract_reads_twice (w : World) (order : list nat) :
  tokenContract (this w) = None ->
  let s := race chain getTokenContract getTokenContract order w in
  resolution_reads key_token (this w) (reads_since (length (reads w)) (world s))
  = 2%nat /\
  (forall c0 c1,
      result_of 0 s = Some (Ok c0) -> result_of 1 s = Some (Ok c1) ->
      contract_id c0 <> contract_id c1) /\
  (forall c,
      tokenContract (this (world s)) = Some c ->
      result_of 0 s = Some (Ok c) \/ result_of 1 s = Some (Ok c)).
Proof. exact (racing_resolutions key_token w order). Qed.

End PoolFacts.

(** ** The theorems on a concrete handle *)

Lemma resolve_once_cache_forever_witness :
  let chain := MoreExamples.chain_token_flaky in
  let w := Examples.world0 in
  let calls := [GetUserTokenBalance Examples.user; GetUserTokenBalance Examples.user] in
  let later := [GetUserDepositAllowance Examples.user; GetUserTokenBalance Examples.user] in
  let c := Examples.token_contract 1 in
  let w1 := run_calls chain Examples.isAddress calls w in
  let w2 := run_calls chain Examples.isAddress later w1 in
  resolved_between chain key_token w w1 /\
  cached key_token (this w1) = Some c /\
  cached key_token (this w2) = Some c /\
  resolution_reads key_token (this w) (reads_since (length (reads w1)) w2) = 0%nat /\
  run chain (resolve key_token) w2 = (Ok c, w2).
Proof.
  split; [exists 1%nat; split; [simpl; lia|split; reflexivity]|].
  split; [reflexivity|].
  exact (proj2 (proj2 (proj2 (proj2 (proj2
           (resolve_once_cache_forever MoreExamples.chain_token_flaky
              Examples.isAddress Examples.world0
              [GetUserTokenBalance Examples.user; GetUserTokenBalance Examples.user]
              [GetUserDepositAllowance Examples.user;
               GetUserTokenBalance Examples.user]
              key_token)))))
           (Examples.token_contract 1) eq_refl).
Defined.

(** C3, as the spec states it, fails on the code: two calls of
    [getUserTokenBalance] made one after the other, the first [getToken]
    read failing, send two reads resolving the token. *)
Lemma sequential_calls_resolve_twice :
  let w := Examples.world0 in
  let w' :=
    run_calls MoreExamples.chain_token_flaky Examples.isAddress
      [GetUserTokenBalance Examples.user; GetUserTokenBalance Examples.user] w in
  ~ (resolution_reads key_token (this w) (reads_since (length (reads w)) w')
     <= 1)%nat.
Proof. intros w w' H. vm_compute in H. lia. Qed.

(** What the two calls of the counterexample do, in full. *)
Example sequential_calls_resolve_twice_trace :
  let w1 :=
    run_calls MoreExamples.chain_token_flaky Examples.isAddress
      [GetUserTokenBalance Examples.user] Examples.world0 in
  let w2 :=
    run_calls MoreExamples.chain_token_flaky Examples.isAddress
      [GetUserTokenBalance Examples.user] w1 in
  reads w1 = [call_getToken Examples.pool_address] /\
  tokenContract (this w1) = None /\
  reads w2
  = [call_getToken Examples.pool_address;
     call_getToken Examples.pool_address;
     call_balanceOf Examples.token_address Examples.user] /\
  tokenContract (this w2) = Some (Examples.token_contract 1).
Proof. repeat split; vm_compute; reflexivity. Qed.

Lemma failed_read_keeps_cache_witness :
  let chain := Examples.chain_twab_reverts in
  let w := Examples.world0 in
  let a := GetUserTicketTwabAt Examples.user 1700000000 in
  let read := call_getBalanceAt Examples.ticket_address Examples.user 1700000000 in
  let w' := snd (run chain (call Examples.isAddress a) w) in
  reads w' !! 1%nat = Some read /\
  is_accessor_read read = true /\
  chain 1%nat read = None /\
  ticketContract (this w') = Some (Examples.ticket_contract 1) /\
  fst (run chain (call Examples.isAddress a) w) = Err ResolutionFailure /\
  forall key,
    (forall c, cached key (this w) = Some c -> cached key (this w') = Some c) /\
    (resolved_between chain key w w' -> is_Some (cached key (this w'))) /\
    (forall c, cached key (this w') = Some c ->
               run chain (resolve key) w' = (Ok c, w')).
Proof.
  split; [reflexivity|]. split; [reflexivity|]. split; [reflexivity|].
  split; [reflexivity|].
  apply (failed_read_keeps_cache Examples.chain_twab_reverts Examples.isAddress
           Examples.world0 (GetUserTicketTwabAt Examples.user 1700000000)).
  exists 1%nat,
    (call_getBalanceAt Examples.ticket_address Examples.user 1700000000).
  split; [simpl; lia|]. split; [reflexivity|]. split; reflexivity.
Defined.

Lemma getUserDepositAllowance_reads_allowance_witness :
  let w := Examples.world0 in
  let w1 := snd (run Examples.chain_ok getTokenContract w) in
  let read := call_allowance Examples.token_address Examples.user Examples.pool_address in
  Examples.isAddress Examples.user = true /\
  provider_network (signerOrProvider (this w)) = pool_chainId (this w) /\
  run Examples.chain_ok getTokenContract w = (Ok (Examples.token_contract 1), w1) /\
  Examples.chain_ok (length (reads w1)) read = Some (VNumber 100) /\
  (run Examples.chain_ok
     (getUserDepositAllowance Examples.isAddress Examples.user) w
   = (Ok {| allowanceUnformatted := 100; isApproved := true |}, log_read read w1)
   /\ (true = true <-> 100 <> 0)).
Proof.
  split; [reflexivity|]. split; [reflexivity|]. split; [reflexivity|].
  split; [reflexivity|].
  apply (getUserDepositAllowance_reads_allowance Examples.chain_ok
           Examples.isAddress Examples.world0 _ Examples.user
           (Examples.token_contract 1) 100); reflexivity.
Defined.

Lemma concurrent_getTokenContract_reads_twice_witness :
  let w := Examples.world0 in
  let s := race Examples.chain_ok getTokenContract getTokenContract [1; 0]%nat w in
  tokenContract (this w) = None /\
  resolution_reads key_token (this w) (reads_since (length (reads w)) (world s))
  = 2%nat /\
  (forall c0 c1,
      result_of 0 s = Some (Ok c0) -> result_of 1 s = Some (Ok c1) ->
      contract_id c0 <> contract_id c1) /\
  (forall c,
      tokenContract (this (world s)) = Some c ->
      result_of 0 s = Some (Ok c) \/ result_of 1 s = Some (Ok c)).
Proof.
  split; [reflexivity|].
  apply (concurrent_getTokenContract_reads_twice Examples.chain_ok
           Examples.world0 [1; 0]%nat).
  reflexivity.
Defined.

(** C1, as the spec states it, fails on the code: two calls of
    [getTokenContract] made together on a handle with nothing cached send
    two [getToken] reads, and the second caller gets another contract
    object than the first. *)
Lemma concurrent_getTokenContract_not_single_flight :
  let w := Examples.world0 in
  let s := race Examples.chain_ok getTokenContract getTokenContract [0; 1]%nat w in
  ~ (resolution_reads key_token (this w) (reads_since (length (reads w)) (world s)) = 1%nat /\
     exists c, result_of 0 s = Some (Ok c) /\ result_of 1 s = Some (Ok c)).
Proof.
  intros w s [H _]. vm_compute in H. discriminate.
Qed.

(** What the two calls of the counterexample do, in full. *)
Example concurrent_getTokenContract_trace :
  let s := race Examples.chain_ok getTokenContract getTokenContract [0; 1]%nat
             Examples.world0 in
  reads (world s)
  = [call_getToken Examples.pool_address; call_getToken Examples.pool_address] /\
  result_of 0 s = Some (Ok (Examples.token_contract 1)) /\
  result_of 1 s = Some (Ok (Examples.token_contract 2)) /\
  tokenContract (this (world s)) = Some (Examples.token_contract 2).
Proof. repeat split; vm_compute; reflexivity. Qed.

(** The same race between two accessor calls: each resolves the token for
    itself. *)
Example concurrent_getUserTokenBalance_trace :
  let p := call Examples.isAddress (GetUserTokenBalance Examples.user) in
  let s := race Examples.chain_ok p p [0; 1; 0; 1; 0; 1; 0; 1]%nat Examples.world0 in
  reads (world s)
  = [call_getToken Examples.pool_address;
     call_getToken Examples.pool_address;
     call_balanceOf Examples.token_address Examples.user;
     call_balanceOf Examples.token_address Examples.user] /\
  result_of 0 s = Some (Ok (OutNumber 5)) /\
  result_of 1 s = Some (Ok (OutNumber 5)).
Proof. repeat split; vm_compute; reflexivity. Qed.

(** One call awaited before the next: the second finds the token cached. *)
Example sequential_getUserTokenBalance_trace :
  reads (run_calls Examples.chain_ok Examples.isAddress
           [GetUserTokenBalance Examples.user; GetUserTokenBalance Examples.user]
           Examples.world0)
  = [call_getToken Examples.pool_address;
     call_balanceOf Examples.token_address Examples.user;
     call_balanceOf Examples.token_address Examples.user].
Proof. vm_compute. reflexivity. Qed.

(** C5 on the failing input: on a handle of network 1 whose client is bound
    to network 5, [getUserTicketBalance] rejects with [NetworkMismatch]
    before any read, but [getUserTicketDelegate], which has no call of
    [validateSignerOrProviderNetwork], sends the [getTicket] and
    [delegateOf] reads through that client and returns their answer. *)
Theorem getUserTicketDelegate_skips_network_validation :
  let w := Examples.world_wrong_network in
  provider_network (signerOrProvider (this w)) <> pool_chainId (this w) /\
  run Examples.chain_ok
    (call Examples.isAddress (GetUserTicketBalance Examples.user)) w
  = (Err NetworkMismatch, w) /\
  fst (run Examples.chain_ok
         (call Examples.isAddress (GetUserTicketDelegate Examples.user)) w)
  = Ok (OutAddress Examples.delegate) /\
  reads (snd (run Examples.chain_ok
                (call Examples.isAddress (GetUserTicketDelegate Examples.user)) w))
  = [call_getTicket Examples.pool_address;
     call_delegateOf Examples.ticket_address Examples.user].
Proof.
  split; [discriminate|]. repeat split; reflexivity.
Qed.

(** * Properties of the builders *)

(** ** [extendContractsWithToken] *)

Lemma extendContractsWithToken_fold (contracts updated : list Contract)
    (tokens : list Child) (c : Contract) :
  c ∈ fold_left (push_missing contracts) tokens updated ->
  c ∈ updated \/
  exists token, token ∈ tokens /\ find_contract contracts token = None /\
                c = createTokenContract (child_chainId token) (child_address token).
Proof.
  revert updated; induction tokens as [|t tokens IH]; intros updated; simpl.
  - by left.
  - intros H. destruct (IH _ H) as [Hin|(t' & Ht' & Hf & ->)].
    + unfold push_missing in Hin.
      destruct (find_contract contracts t) eqn:E; [by left|].
      apply elem_of_app in Hin as [Hin|Hin]; [by left|].
      apply list_elem_of_singleton in Hin as ->.
      right. exists t. split; [left|]; done.
    + right. exists t'. split; [by right|done].
Qed.

Lemma find_contract_None (contracts : list Contract) (token : Child) :
  find_contract contracts token = None ->
  forall c, c ∈ contracts ->
            ~ (address c = child_address token /\ chainId c = child_chainId token).
Proof.
  unfold find_contract. intros H c Hc Hm.
  apply list_elem_of_In in Hc.
  pose proof (find_none _ _ H c Hc) as Hn. simpl in Hn.
  by rewrite bool_decide_eq_false in Hn.
Qed.

(** The part of C4 that holds: a descriptor of the output is a descriptor
    of the input, or a Token descriptor synthesized for a declared child
    that no descriptor of the input has the network and address of. *)
Lemma extendContractsWithToken_only_missing (contracts : list Contract)
    (c : Contract) :
  c ∈ extendContractsWithToken contracts ->
  c ∈ contracts \/
  (type c = ContractType.Token /\
   forall c', c' ∈ contracts ->
              ~ (address c' = address c /\ chainId c' = chainId c)).
Proof.
  unfold extendContractsWithToken. intros H.
  apply extendContractsWithToken_fold in H as [H|(t & _ & Hf & ->)]; [by left|].
  right. split; [done|]. simpl. by apply find_contract_None.
Qed.

(** C4 on the failing input: two primary pools of network 1 declare the
    same token, which no descriptor of the list stands for.  The lookup is
    made in the list passed in, not in the list being extended, so the
    token is synthesized once per pool: the result holds two descriptors
    for the same (network, address). *)
Theorem extendContractsWithToken_duplicates_shared_token :
  let out := extendContractsWithToken Examples.two_pools_one_token in
  NoDup (map (fun c => (chainId c, address c)) Examples.two_pools_one_token) /\
  filter (fun c => chainId c = 1 /\ address c = Examples.token_address) out
  = [createTokenContract 1 Examples.token_address;
     createTokenContract 1 Examples.token_address] /\
  ~ NoDup (map (fun c => (chainId c, address c)) out).
Proof.
  split; [|split].
  - apply (bool_decide_unpack _). vm_compute. reflexivity.
  - vm_compute. reflexivity.
  - apply (bool_decide_unpack _). vm_compute. reflexivity.
Qed.

(** ** Building the pool set *)

Lemma initializePrizePools_fold (providers : Providers) (all : list Contract)
    (metadatas : list Contract) (acc : list PrizePool * list BuildError) :
  let out := fold_left (try_push providers all) metadatas acc in
  map prizePoolMetadata (fst out)
  = map prizePoolMetadata (fst acc)
    ++ filter (fun m => is_Some (providers !! chainId m)) metadatas /\
  snd out
  = snd acc
    ++ map (fun m => ConstructionFailure (chainId m) (address m))
         (filter (fun m => providers !! chainId m = None) metadatas).
Proof.
  revert acc; induction metadatas as [|m metadatas IH]; intros acc.
  - simpl. by rewrite !app_nil_r.
  - cbn [fold_left]. destruct (IH (try_push providers all acc m)) as [H1 H2].
    cbv zeta. rewrite H1, H2. rewrite !filter_cons.
    unfold try_push, new_PrizePool.
    destruct (providers !! chainId m) as [p|] eqn:E; simpl.
    + rewrite map_app. simpl. by rewrite <- app_assoc.
    + by rewrite <- app_assoc.
Qed.

(** The builder of [PrizePool.ts] does what C8 says: it returns, in input
    order, a handle for every primary descriptor whose construction
    succeeds, and logs one error for each of the others. *)
Lemma initializePrizePools_skips_failures (contractList : ContractList)
    (providers : Providers) :
  let metadatas := getContractsByType (contracts contractList) ContractType.PrizePool in
  map prizePoolMetadata (fst (initializePrizePools contractList providers))
  = filter (fun m => is_Some (providers !! chainId m)) metadatas /\
  snd (initializePrizePools contractList providers)
  = map (fun m => ConstructionFailure (chainId m) (address m))
      (filter (fun m => providers !! chainId m = None) metadatas).
Proof.
  unfold initializePrizePools.
  exact (initializePrizePools_fold providers (contracts contractList) _ ([], [])).
Qed.

(** [createPrizePools] builds no handle: the first group makes it throw,
    whether or not the network of its pool has a client. *)
Lemma createPrizePools_from_throws (providers : Providers)
    (groups : list (list Contract)) :
  groups <> [] ->
  createPrizePools_from providers groups
  = Thrown (TypeError "Cannot read properties of undefined").
Proof.
  destruct groups as [|contracts rest]; [done|]. intros _.
  cbn [createPrizePools_from].
  destruct (find _ contracts) as [prizePoolContract|]; [|done].
  cbv zeta. unfold new_PrizePool_two_arguments.
  by destruct (providers !! chainId prizePoolContract).
Qed.

Lemma createPrizePools_throws (providers : Providers) (contracts : list Contract) :
  getContractsByType contracts ContractType.YieldSourcePrizePool <> [] ->
  createPrizePools providers contracts
  = Thrown (TypeError "Cannot read properties of undefined").
Proof.
  intros Hne. unfold createPrizePools. apply createPrizePools_from_throws.
  unfold sortContractsByContractTypeAndChildren.
  destruct (getContractsByType contracts _); [done|discriminate].
Qed.

(** C8 on the failing input: a list with a primary pool on network 1 and
    one on network 137, and clients for network 1 only.
    [initializePrizePools] catches the failed construction, logs it and
    returns the handle of network 1.  [createPrizePools] has no
    [try]/[catch] around [new PrizePool]: the exception of the first
    construction leaves the function, which returns no list at all.  The
    construction throws there also when every network has a client, the
    constructor being called with the client in the place of the
    metadata. *)
Theorem createPrizePools_aborts_the_build :
  map (fun h => address (prizePoolMetadata h))
    (fst (initializePrizePools
            {| list_name := "pools"; contracts := Examples.two_networks_PrizePool |}
            Examples.mainnet_only))
  = [Examples.pool_address] /\
  snd (initializePrizePools
         {| list_name := "pools"; contracts := Examples.two_networks_PrizePool |}
         Examples.mainnet_only)
  = [ConstructionFailure 137 Examples.pool2_address] /\
  createPrizePools Examples.mainnet_only Examples.two_networks
  = Thrown (TypeError "Cannot read properties of undefined") /\
  createPrizePools Examples.both_networks Examples.two_networks
  = Thrown (TypeError "Cannot read properties of undefined").
Proof. repeat split; vm_compute; reflexivity. Qed.

(** ** Assembling a linked pool *)

Lemma sortContractsByChainId_lookup_aux (cs l : list Contract) (k : Z) :
  foldr (fun c m => <[chainId c := filter (fun x => chainId x = chainId c) cs]> m)
    (∅ : gmap Z (list Contract)) l !! k
  = if decide (Exists (fun c => chainId c = k) l)
    then Some (filter (fun x => chainId x = k) cs) else None.
Proof.
  induction l as [|c l IH].
  - cbn [foldr]. rewrite lookup_empty.
    destruct (decide (Exists _ [])) as [He|He]; [|done]. by apply Exists_nil in He.
  - cbn [foldr]. rewrite lookup_insert. destruct (decide (chainId c = k)) as [<-|Hne].
    + rewrite decide_True; [done|]. by left.
    + rewrite IH. destruct (decide (Exists _ l)) as [He|He].
      * rewrite decide_True; [done|]. by right.
      * rewrite decide_False; [done|]. rewrite Exists_cons. tauto.
Qed.

Lemma filter_none {A : Type} (P : A -> Prop) `{!forall x, Decision (P x)}
    (l : list A) :
  (forall x, x ∈ l -> ~ P x) -> filter P l = [].
Proof.
  induction l as [|x l IH]; intros Hall; [done|].
  rewrite filter_cons, decide_False by (apply Hall; left).
  apply IH. intros y Hy. apply Hall. by right.
Qed.

Lemma sortContractsByChainId_lookup (cs : list Contract) (k : Z) :
  sortContractsByChainId cs !! k
  = if decide (filter (fun x => chainId x = k) cs = [])
    then None else Some (filter (fun x => chainId x = k) cs).
Proof.
  unfold sortContractsByChainId. rewrite sortContractsByChainId_lookup_aux.
  destruct (decide (Exists _ cs)) as [He|He].
  - rewrite decide_False; [done|]. intros Hnil.
    apply Exists_exists in He as (c & Hc & Hk).
    assert (Hin : c ∈ filter (fun x => chainId x = k) cs)
      by (apply list_elem_of_filter; done).
    rewrite Hnil in Hin. by apply not_elem_of_nil in Hin.
  - rewrite decide_True; [done|].
    apply filter_none. intros c Hc Hk. apply He.
    apply Exists_exists. eauto.
Qed.

Section AssemblyFacts.

Variable batch : Provider -> list Context -> option (gmap string ContextResult).

(** The networks fetched are those holding a primary pool, each once. *)
Lemma chainIds_spec (contracts : list Contract) (k : Z) :
  k ∈ map fst (map_to_list
                 (sortContractsByChainId
                    (getContractsByType contracts ContractType.YieldSourcePrizePool)))
  <-> poolsOn k contracts <> [].
Proof.
  rewrite list_elem_of_fmap. split.
  - intros ([k' l] & -> & Hin). apply elem_of_map_to_list in Hin.
    rewrite sortContractsByChainId_lookup in Hin.
    simpl. unfold poolsOn. by destruct (decide _).
  - intros Hne. exists (k, poolsOn k contracts). split; [done|].
    apply elem_of_map_to_list.
    rewrite sortContractsByChainId_lookup. unfold poolsOn in *.
    by rewrite decide_False.
Qed.

Lemma fetchAll_spec (providers : Providers) (contracts : list Contract) :
  fetchAll batch providers contracts
  = map (fun k => fetchPrizePoolAddressesByChainId batch k (providers !! k)
                    (poolsOn k contracts))
      (map fst (map_to_list
                  (sortContractsByChainId
                     (getContractsByType contracts
                        ContractType.YieldSourcePrizePool)))).
Proof.
  unfold fetchAll.
  apply map_ext_in. intros k Hk.
  apply list_elem_of_In, chainIds_spec in Hk.
  rewrite sortContractsByChainId_lookup.
  unfold poolsOn in *. by rewrite decide_False.
Qed.

Lemma snd_fetch (providers : Providers) (contracts : list Contract) (k : Z) :
  snd (fetchPrizePoolAddressesByChainId batch k (providers !! k)
         (poolsOn k contracts))
  = (fun addresses => (k, addresses)) <$> addressesOn batch providers contracts k.
Proof.
  unfold fetchPrizePoolAddressesByChainId, addressesOn.
  by destruct (call_batch _ _ _).
Qed.

Lemma omap_snd_fetch (providers : Providers) (contracts : list Contract)
    (l : list Z) :
  omap snd
    (map (fun k => fetchPrizePoolAddressesByChainId batch k (providers !! k)
                     (poolsOn k contracts)) l)
  = omap (fun k => (fun addresses => (k, addresses))
                   <$> addressesOn batch providers contracts k) l.
Proof.
  induction l as [|k l IH]; [done|].
  cbn [map omap list_omap]. by rewrite snd_fetch, IH.
Qed.

Lemma collect_lookup_aux (g : Z -> option (gmap string ChildAddresses))
    (l : list Z) (m0 : PrizePoolAddressesByChainId) (k : Z) :
  fold_left (fun m ppa => <[fst ppa := snd ppa]> m)
    (omap (fun k => (fun addresses => (k, addresses)) <$> g k) l) m0 !! k
  = if decide (k ∈ l)
    then match g k with Some v => Some v | None => m0 !! k end
    else m0 !! k.
Proof.
  revert m0; induction l as [|x l IH]; intros m0.
  - cbn [omap list_omap fold_left].
    destruct (decide (k ∈ [])) as [Hin|Hin]; [by apply not_elem_of_nil in Hin|done].
  - cbn [omap list_omap]. destruct (g x) as [v|] eqn:Hg; cbn [fmap option_fmap option_map].
    + cbn [fold_left]. rewrite IH. cbn [fst snd].
      destruct (decide (k ∈ l)) as [Hin|Hin].
      * rewrite decide_True by (by right).
        destruct (g k) eqn:Hgk; [done|].
        rewrite lookup_insert. destruct (decide (x = k)) as [->|]; [congruence|done].
      * rewrite lookup_insert. destruct (decide (x = k)) as [->|Hne].
        -- rewrite decide_True by (by left). by rewrite Hg.
        -- rewrite decide_False; [done|].
           rewrite elem_of_cons. intros [->|?]; done.
    + rewrite IH.
      destruct (decide (k ∈ l)) as [Hin|Hin].
      * by rewrite decide_True by (by right).
      * destruct (decide (x = k)) as [->|Hne].
        -- rewrite decide_True by (by left). by rewrite Hg.
        -- rewrite decide_False; [done|].
           rewrite elem_of_cons. intros [->|?]; done.
Qed.

(** What [initializeLinkedPrizePool] collects from the settled fetches:
    an entry for a network exactly when it holds a primary pool and its
    batch was fulfilled. *)
Lemma collectAddresses_lookup (providers : Providers)
    (contracts : list Contract) (k : Z) :
  collectAddresses (fetchAll batch providers contracts) !! k
  = if decide (poolsOn k contracts = []) then None
    else addressesOn batch providers contracts k.
Proof.
  unfold collectAddresses. rewrite fetchAll_spec. cbv zeta.
  rewrite omap_snd_fetch.
  rewrite collect_lookup_aux, lookup_empty.
  destruct (decide (poolsOn k contracts = [])) as [He|He].
  - rewrite decide_False; [done|]. rewrite chainIds_spec. tauto.
  - rewrite decide_True by (by rewrite chainIds_spec).
    by destruct (addressesOn _ _ _ _).
Qed.

Lemma getContractsByType_push_tokens (lookup updated : list Contract)
    (tokens : list Child) :
  getContractsByType (fold_left (push_missing lookup) tokens updated)
    ContractType.YieldSourcePrizePool
  = getContractsByType updated ContractType.YieldSourcePrizePool.
Proof.
  revert updated; induction tokens as [|t tokens IH]; intros updated; [done|].
  cbn [fold_left]. rewrite IH. unfold push_missing.
  destruct (find_contract lookup t); [done|].
  unfold getContractsByType. rewrite filter_app. cbn. by rewrite app_nil_r.
Qed.

Lemma getContractsByType_extendContractsWithToken (cs : list Contract) :
  getContractsByType (extendContractsWithToken cs) ContractType.YieldSourcePrizePool
  = getContractsByType cs ContractType.YieldSourcePrizePool.
Proof. apply getContractsByType_push_tokens. Qed.

Lemma type_withChildren (c : Contract) (found : option ChildAddresses) :
  type (withChildren c found) = type c /\
  chainId (withChildren c found) = chainId c /\
  address (withChildren c found) = address c.
Proof. by destruct found. Qed.

Lemma getContractsByType_extendContractWithChildren (cs : list Contract)
    (m : PrizePoolAddressesByChainId) :
  getContractsByType
    (extendContractWithChildren cs m ContractType.YieldSourcePrizePool)
    ContractType.YieldSourcePrizePool
  = flat_map
      (fun c => match m !! chainId c with
                | None => []
                | Some addresses => [withChildren c (addresses !! address c)]
                end)
      (getContractsByType cs ContractType.YieldSourcePrizePool).
Proof.
  unfold getContractsByType, extendContractWithChildren.
  induction cs as [|c cs IH]; [done|].
  cbn [flat_map]. rewrite filter_app, filter_cons, IH.
  destruct (decide (type c = ContractType.YieldSourcePrizePool)) as [Ht|Ht].
  - cbn [flat_map]. f_equal.
    destruct (m !! chainId c) as [addresses|]; [|done].
    rewrite filter_cons, decide_True; [done|].
    by destruct (type_withChildren c (addresses !! address c)) as (-> & _).
  - by rewrite filter_cons, decide_False.
Qed.

(** ** Partial failure *)

(** The part of C2 that holds.  The fetches are all settled before any is
    looked at: the map of discovered addresses has an entry for a network
    exactly when the network holds a primary pool and its batch was
    fulfilled, whatever became of the other batches. *)
Lemma collectAddresses_fulfilled_networks (providers : Providers)
    (cs : list Contract) (k : Z) :
  is_Some (collectAddresses (fetchAll batch providers cs) !! k)
  <-> poolsOn k cs <> [] /\ batch_succeeds batch providers cs k.
Proof.
  rewrite collectAddresses_lookup.
  unfold batch_succeeds, addressesOn.
  destruct (decide (poolsOn k cs = [])) as [He|He].
  - split; [by intros [? ?]|tauto].
  - destruct (call_batch _ _ _); split; try done; try tauto.
    intros [_ Hn]. done.
Qed.

(** With a primary pool on a network whose batch was fulfilled, the
    augmented list holds a primary pool, and the constructor of
    [LinkedPrizePool], through [createPrizePools], throws: the assembling
    rejects. *)
Lemma initializeLinkedPrizePool_rejects (providers : Providers)
    (linkedPrizePoolContractList : ContractList) (c : Contract) :
  c ∈ getContractsByType (contracts linkedPrizePoolContractList)
        ContractType.YieldSourcePrizePool ->
  batch_succeeds batch providers (contracts linkedPrizePoolContractList) (chainId c) ->
  snd (initializeLinkedPrizePool batch providers linkedPrizePoolContractList)
  = Thrown (TypeError "Cannot read properties of undefined").
Proof.
  intros Hc Hs. set (cs := contracts linkedPrizePoolContractList) in *.
  unfold initializeLinkedPrizePool, new_LinkedPrizePool.
  cbn [snd contracts]. fold cs.
  rewrite createPrizePools_throws; [done|].
  rewrite getContractsByType_extendContractsWithToken.
  rewrite getContractsByType_extendContractWithChildren.
  set (m := collectAddresses (fetchAll batch providers cs)).
  assert (Hm : is_Some (m !! chainId c)).
  { apply collectAddresses_fulfilled_networks. split; [|done].
    intros Hnil.
    assert (Hin : c ∈ poolsOn (chainId c) cs).
    { apply list_elem_of_filter. split; [done|exact Hc]. }
    rewrite Hnil in Hin. by apply not_elem_of_nil in Hin. }
  destruct Hm as [addresses Hm].
  induction (getContractsByType cs ContractType.YieldSourcePrizePool)
    as [|c' l IH]; [by apply not_elem_of_nil in Hc|].
  cbn [flat_map]. apply elem_of_cons in Hc as [<-|Hc].
  - by rewrite Hm.
  - intros Happ. apply app_eq_nil in Happ as [_ Hl]. by apply IH.
Qed.

(** ** One batched read per network *)

Lemma fst_fetch (k : Z) (provider : option Provider) (pools : list Contract) :
  fst (fetchPrizePoolAddressesByChainId batch k provider pools)
  = [ {| req_chainId := k; req_provider := provider;
         req_contexts := map batchCall pools |} ].
Proof.
  unfold fetchPrizePoolAddressesByChainId. by destruct (call_batch _ _ _).
Qed.

Lemma requests_spec (providers : Providers) (cl : ContractList) :
  fst (initializeLinkedPrizePool batch providers cl)
  = map (fun k => {| req_chainId := k; req_provider := providers !! k;
                     req_contexts := map batchCall (poolsOn k (contracts cl)) |})
      (map fst (map_to_list
                  (sortContractsByChainId
                     (getContractsByType (contracts cl)
                        ContractType.YieldSourcePrizePool)))).
Proof.
  unfold initializeLinkedPrizePool. cbn [fst]. rewrite fetchAll_spec.
  induction (map fst (map_to_list _)) as [|k l IH]; [done|].
  cbn [map concat]. by rewrite fst_fetch, IH.
Qed.

Lemma filter_eq_NoDup (l : list Z) (k : Z) :
  NoDup l -> filter (fun x => x = k) l = if decide (k ∈ l) then [k] else [].
Proof.
  induction 1 as [|x l Hx Hnd IH]; [done|].
  rewrite filter_cons, IH.
  destruct (decide (x = k)) as [->|Hne].
  - rewrite decide_False by done. rewrite decide_True by (by left). done.
  - destruct (decide (k ∈ l)) as [Hin|Hin].
    + by rewrite decide_True by (by right).
    + rewrite decide_False; [done|]. rewrite elem_of_cons. intros [->|?]; done.
Qed.

Lemma filter_requests (providers : Providers) (cs : list Contract)
    (l : list Z) (k : Z) :
  filter (fun r => req_chainId r = k)
    (map (fun k => {| req_chainId := k; req_provider := providers !! k;
                      req_contexts := map batchCall (poolsOn k cs) |}) l)
  = map (fun k => {| req_chainId := k; req_provider := providers !! k;
                     req_contexts := map batchCall (poolsOn k cs) |})
      (filter (fun x => x = k) l).
Proof.
  induction l as [|x l IH]; [done|].
  cbn [map]. rewrite !filter_cons. cbn [req_chainId].
  destruct (decide (x = k)); cbn [map]; by rewrite IH.
Qed.

(** A network without a primary pool gets no batched read. *)
Lemma no_batch_without_pools (providers : Providers) (cl : ContractList) (k : Z) :
  poolsOn k (contracts cl) = [] ->
  filter (fun r => req_chainId r = k)
    (fst (initializeLinkedPrizePool batch providers cl)) = [].
Proof.
  intros Hnil. rewrite requests_spec, filter_requests.
  rewrite filter_eq_NoDup by apply NoDup_fst_map_to_list.
  rewrite decide_False; [done|]. rewrite chainIds_spec. tauto.
Qed.

(** C7. For a network holding at least one primary pool, the assembler
    calls [batch] exactly once, with the client of that network and one
    context per primary pool of the network, each addressed to the pool
    and chaining the two calls [token] and [ticket]; and when that batch
    is fulfilled with an answer for every pool of the request, the
    addresses recorded for the network map every one of these pools to
    the (token, ticket) pair the batch returned for it. *)
Theorem one_batch_per_network (providers : Providers) (cl : ContractList)
    (k : Z) :
  let cs := contracts cl in
  let pools := poolsOn k cs in
  pools <> [] ->
  filter (fun r => req_chainId r = k)
    (fst (initializeLinkedPrizePool batch providers cl))
  = [ {| req_chainId := k; req_provider := providers !! k;
         req_contexts := map batchCall pools |} ] /\
  map ctx_address (map batchCall pools) = map address pools /\
  Forall (fun ctx => ctx_calls ctx = ["token"; "ticket"]) (map batchCall pools) /\
  length (concat (map ctx_calls (map batchCall pools))) = (2 * length pools)%nat /\
  forall result,
    call_batch batch (providers !! k) (map batchCall pools) = Some result ->
    (forall c, c ∈ pools -> is_Some (result !! address c)) ->
    exists addresses,
      collectAddresses (fetchAll batch providers cs) !! k = Some addresses /\
      forall c, c ∈ pools ->
        exists r, result !! address c = Some r /\
                  addresses !! address c
                  = Some {| addr_token := res_token r; addr_ticket := res_ticket r |}.
Proof.
  intros cs pools Hne. split; [|split; [|split; [|split]]].
  - rewrite requests_spec, filter_requests.
    rewrite filter_eq_NoDup by apply NoDup_fst_map_to_list.
    rewrite decide_True by (by apply chainIds_spec). done.
  - rewrite <- list_fmap_compose. done.
  - apply Forall_fmap, Forall_forall. done.
  - clear Hne. induction pools as [|c l IH]; [done|].
    cbn [map concat]. rewrite length_app, IH. simpl. lia.
  - intros result Hres Hall. exists (addressesOfResult result). split.
    + rewrite collectAddresses_lookup. fold cs pools.
      rewrite decide_False by done.
      unfold addressesOn. fold cs pools. by rewrite Hres.
    + intros c Hc. destruct (Hall c Hc) as [r Hr]. exists r. split; [done|].
      unfold addressesOfResult. by rewrite lookup_fmap, Hr.
Qed.

End AssemblyFacts.

(** ** The assembler on concrete lists *)

(** C2 on the failing input: two networks with a primary pool each and a
    client each; the batch of network 137 fails, that of network 1 is
    fulfilled.  The fetching goes as C2 says: the addresses of network 1
    are kept, network 137 has none.  But the assembling does not return a
    linked pool: its last step, the constructor of [LinkedPrizePool],
    builds the handles with [createPrizePools], which throws on the first
    one.  It does so when no batch fails, too. *)
Theorem assembling_rejects_after_partial_failure :
  let cl := {| list_name := "linked"; contracts := Examples.two_networks |} in
  let responses :=
    fetchAll Examples.batch_polygon_down Examples.both_networks
      Examples.two_networks in
  poolsOn 1 Examples.two_networks <> [] /\
  poolsOn 137 Examples.two_networks <> [] /\
  batch_succeeds Examples.batch_polygon_down Examples.both_networks
    Examples.two_networks 1 /\
  ~ batch_succeeds Examples.batch_polygon_down Examples.both_networks
      Examples.two_networks 137 /\
  is_Some (collectAddresses responses !! 1) /\
  collectAddresses responses !! 137 = None /\
  snd (initializeLinkedPrizePool Examples.batch_polygon_down
         Examples.both_networks cl)
  = Thrown (TypeError "Cannot read properties of undefined") /\
  snd (initializeLinkedPrizePool Examples.batch_ok Examples.both_networks cl)
  = Thrown (TypeError "Cannot read properties of undefined").
Proof.
  intros cl responses.
  split; [discriminate|]. split; [discriminate|].
  split; [apply (bool_decide_unpack _); vm_compute; reflexivity|].
  split; [apply (bool_decide_unpack _); vm_compute; reflexivity|].
  split; [apply (bool_decide_unpack _); vm_compute; reflexivity|].
  repeat split; vm_compute; reflexivity.
Qed.

Lemma one_batch_per_network_witness :
  let cl := {| list_name := "linked"; contracts := Examples.two_networks |} in
  let pools := poolsOn 1 Examples.two_networks in
  pools <> [] /\
  filter (fun r => req_chainId r = 1)
    (fst (initializeLinkedPrizePool Examples.batch_ok Examples.both_networks cl))
  = [ {| req_chainId := 1; req_provider := Some Examples.mainnet;
         req_contexts :=
           [ {| ctx_name := Examples.pool_address;
                ctx_abi := NamedAbi "YieldSourcePrizePool";
                ctx_address := Examples.pool_address;
                ctx_calls := ["token"; "ticket"] |} ] |} ].
Proof.
  split; [discriminate|].
  exact (proj1 (one_batch_per_network Examples.batch_ok Examples.both_networks
                  {| list_name := "linked"; contracts := Examples.two_networks |} 1
                  ltac:(discriminate))).
Defined.

(** * The assembler leaves the caller's objects alone *)

Lemma store_extends_refl (h : Store.Heap) : Store.extends h h.
Proof. split; [lia|done]. Qed.

Lemma store_extends_trans (h1 h2 h3 : Store.Heap) :
  Store.extends h1 h2 -> Store.extends h2 h3 -> Store.extends h1 h3.
Proof.
  intros [L1 F1] [L2 F2]. split; [lia|].
  intros l Hl. destruct (F1 l Hl) as [A1 O1].
  destruct (F2 l ltac:(lia)) as [A2 O2]. split; congruence.
Qed.

Lemma store_extends_alloc_array (elems : list nat) (h : Store.Heap) :
  Store.extends h (snd (Store.alloc_array elems h)).
Proof.
  split; simpl; [lia|]. intros l Hl. split; [|done].
  apply lookup_insert_ne. lia.
Qed.

Lemma store_extends_alloc_object (c : Contract) (h : Store.Heap) :
  Store.extends h (snd (Store.alloc_object c h)).
Proof.
  split; simpl; [lia|]. intros l Hl. split; [done|].
  apply lookup_insert_ne. lia.
Qed.

(** Pushing onto an array allocated after [h0] changes nothing of [h0]. *)
Lemma store_extends_push (h0 h : Store.Heap) (array x : nat) :
  Store.extends h0 h -> (Store.next_loc h0 <= array)%nat ->
  Store.extends h0 (Store.push array x h).
Proof.
  intros [L F] Ha. split; simpl; [lia|].
  intros l Hl. destruct (F l Hl) as [A O]. split; [|done].
  rewrite lookup_alter_ne by lia. done.
Qed.

Lemma store_deref_app (h : Store.Heap) (l1 l2 : list nat) :
  omap (fun o => Store.objects h !! o) (l1 ++ l2)
  = omap (fun o => Store.objects h !! o) l1
    ++ omap (fun o => Store.objects h !! o) l2.
Proof. apply omap_app. Qed.

Lemma store_omap_insert_fresh (objs : gmap nat Contract) (o : nat) (c : Contract)
    (l : list nat) :
  Forall (fun x => x <> o) l ->
  omap (fun x => <[o := c]> objs !! x) l = omap (fun x => objs !! x) l.
Proof.
  induction 1 as [|x l Hx Hl IH]; [done|].
  cbn [omap list_omap]. rewrite lookup_insert_ne by done. by rewrite IH.
Qed.

Lemma store_push_missing_step (values : list Contract) (h0 h : Store.Heap)
    (updated : nat) (token : Child) :
  store_loop h0 h updated ->
  store_loop h0 (Store.push_missing values updated h token) updated /\
  Store.deref (Store.push_missing values updated h token) updated
  = push_missing values (Store.deref h updated) token.
Proof.
  intros [He Hf [l Hl] Ho Hel].
  unfold Store.push_missing, push_missing.
  destruct (find_contract values token); [by split|].
  unfold Store.alloc_object, Store.push, Store.deref, Store.elements in *.
  cbn [Store.arrays Store.objects Store.next_loc] in *.
  rewrite Hl in Hel. cbn [default] in Hel.
  assert (Hlt : Forall (fun x => x <> Store.next_loc h) l).
  { eapply Forall_impl; [exact Hel|]. intros x Hx. apply Ho in Hx. lia. }
  split.
  - split; cbn [Store.arrays Store.objects Store.next_loc].
    + destruct He as [L F]. split; cbn [Store.arrays Store.objects Store.next_loc];
        [lia|].
      intros l' Hl'. destruct (F l' Hl') as [A O]. split.
      * rewrite lookup_alter_ne by lia. done.
      * rewrite lookup_insert_ne by lia. done.
    + done.
    + rewrite lookup_alter_eq, Hl. eauto.
    + intros o. rewrite lookup_insert. destruct (decide _) as [<-|]; [lia|].
      intros Hs. apply Ho in Hs. lia.
    + unfold Store.elements. cbn [Store.arrays].
      rewrite lookup_alter_eq, Hl. cbn. apply Forall_app. split.
      * eapply Forall_impl; [exact Hel|]. intros x Hx. cbn.
        rewrite lookup_insert. by destruct (decide _).
      * constructor; [|done]. rewrite lookup_insert_eq. eauto.
  - rewrite lookup_alter_eq, Hl. cbn [fmap option_fmap option_map default].
    unfold id. rewrite omap_app, store_omap_insert_fresh by done.
    cbn [omap list_omap]. by rewrite lookup_insert_eq.
Qed.

Lemma store_push_missing_fold (values : list Contract) (h0 h : Store.Heap)
    (updated : nat) (tokens : list Child) :
  store_loop h0 h updated ->
  store_loop h0 (fold_left (Store.push_missing values updated) tokens h) updated /\
  Store.deref (fold_left (Store.push_missing values updated) tokens h) updated
  = fold_left (push_missing values) tokens (Store.deref h updated).
Proof.
  revert h; induction tokens as [|t tokens IH]; intros h Hloop; [done|].
  cbn [fold_left].
  destruct (store_push_missing_step values h0 h updated t Hloop) as [Hl Hd].
  destruct (IH _ Hl) as [Hl' Hd']. split; [done|]. by rewrite Hd', Hd.
Qed.

Lemma store_extendContractsWithToken_spec (contracts : nat) (h : Store.Heap) :
  (forall o, is_Some (Store.objects h !! o) -> (o < Store.next_loc h)%nat) ->
  Forall (fun o => is_Some (Store.objects h !! o)) (Store.elements h contracts) ->
  let updated := fst (Store.extendContractsWithToken contracts h) in
  let h' := snd (Store.extendContractsWithToken contracts h) in
  updated = Store.next_loc h /\
  store_loop h h' updated /\
  Store.deref h' updated = extendContractsWithToken (Store.deref h contracts).
Proof.
  intros Ho Hel. unfold Store.extendContractsWithToken.
  cbn [Store.alloc_array fst snd].
  set (h1 := {| Store.arrays := _; Store.objects := _; Store.next_loc := _ |}).
  assert (Hloop : store_loop h h1 (Store.next_loc h)).
  { split.
    - apply (store_extends_alloc_array (Store.elements h contracts) h).
    - done.
    - subst h1. cbn [Store.arrays]. rewrite lookup_insert_eq. eauto.
    - subst h1. cbn [Store.objects Store.next_loc]. intros o Hs. apply Ho in Hs. lia.
    - subst h1. unfold Store.elements in *. cbn [Store.arrays Store.objects].
      rewrite lookup_insert_eq. exact Hel. }
  assert (Hd : Store.deref h1 (Store.next_loc h) = Store.deref h contracts).
  { subst h1. unfold Store.deref, Store.elements.
    cbn [Store.arrays Store.objects]. by rewrite lookup_insert_eq. }
  destruct (store_push_missing_fold (Store.deref h contracts) h h1
              (Store.next_loc h)
              (flat_map (fun c => default [] (children (extensions c)))
                 (filter (fun c => is_Some (children (extensions c)))
                    (Store.deref h contracts))) Hloop) as [Hl' Hd'].
  split; [done|]. split; [done|].
  rewrite Hd', Hd. reflexivity.
Qed.

(** What [extendContractWithChildren] puts in its result for one
    descriptor. *)
Lemma store_extend_one_step (m : PrizePoolAddressesByChainId) (t : ContractType.t)
    (acc : list nat) (h : Store.Heap) (o : nat) (c : Contract) :
  (forall o, is_Some (Store.objects h !! o) -> (o < Store.next_loc h)%nat) ->
  Forall (fun o => is_Some (Store.objects h !! o)) acc ->
  Store.objects h !! o = Some c ->
  let acc' := fst (Store.extend_one m t (acc, h) o) in
  let h' := snd (Store.extend_one m t (acc, h) o) in
  Store.extends h h' /\
  (forall o, is_Some (Store.objects h' !! o) -> (o < Store.next_loc h')%nat) /\
  Forall (fun o => is_Some (Store.objects h' !! o)) acc' /\
  omap (fun o => Store.objects h' !! o) acc'
  = omap (fun o => Store.objects h !! o) acc
    ++ (if decide (type c = t) then
          match m !! chainId c with
          | None => []
          | Some addresses => [withChildren c (addresses !! address c)]
          end
        else [c]).
Proof.
  intros Ho Hacc Hc. unfold Store.extend_one. cbn [fst snd]. rewrite Hc.
  assert (Hkeep :
    Store.extends h h /\
    (forall o, is_Some (Store.objects h !! o) -> (o < Store.next_loc h)%nat) /\
    Forall (fun o => is_Some (Store.objects h !! o)) (acc ++ [o]) /\
    omap (fun o => Store.objects h !! o) (acc ++ [o])
    = omap (fun o => Store.objects h !! o) acc ++ [c]).
  { split; [apply store_extends_refl|]. split; [done|]. split.
    - apply Forall_app. split; [done|]. constructor; [eauto|done].
    - rewrite omap_app. cbn. by rewrite Hc. }
  destruct (decide (type c = t)); [|exact Hkeep].
  destruct (m !! chainId c) as [addresses|].
  2: { split; [apply store_extends_refl|]. split; [done|]. split; [done|].
       by rewrite app_nil_r. }
  destruct (addresses !! address c) as [found|]; [|exact Hkeep].
  cbn [Store.alloc_object fst snd Store.objects Store.next_loc].
  assert (Hne : Forall (fun x => x <> Store.next_loc h) acc).
  { eapply Forall_impl; [exact Hacc|]. intros x Hx. apply Ho in Hx. lia. }
  split; [apply (store_extends_alloc_object (withChildren c (Some found)) h)|].
  split.
  { intros x. rewrite lookup_insert. destruct (decide _) as [<-|]; [lia|].
    intros Hs. apply Ho in Hs. lia. }
  split.
  - apply Forall_app. split.
    + eapply Forall_impl; [exact Hacc|]. intros x Hx. cbn.
      rewrite lookup_insert. by destruct (decide _).
    + constructor; [|done]. rewrite lookup_insert_eq. eauto.
  - rewrite omap_app, store_omap_insert_fresh by done.
    cbn [omap list_omap]. by rewrite lookup_insert_eq.
Qed.

Lemma store_extend_fold (m : PrizePoolAddressesByChainId) (t : ContractType.t)
    (elems acc : list nat) (h : Store.Heap) :
  (forall o, is_Some (Store.objects h !! o) -> (o < Store.next_loc h)%nat) ->
  Forall (fun o => is_Some (Store.objects h !! o)) acc ->
  Forall (fun o => is_Some (Store.objects h !! o)) elems ->
  let out := fold_left (Store.extend_one m t) elems (acc, h) in
  Store.extends h (snd out) /\
  (forall o, is_Some (Store.objects (snd out) !! o) ->
             (o < Store.next_loc (snd out))%nat) /\
  Forall (fun o => is_Some (Store.objects (snd out) !! o)) (fst out) /\
  omap (fun o => Store.objects (snd out) !! o) (fst out)
  = omap (fun o => Store.objects h !! o) acc
    ++ extendContractWithChildren (omap (fun o => Store.objects h !! o) elems) m t.
Proof.
  revert acc h; induction elems as [|o elems IH]; intros acc h Ho Hacc Hel.
  - cbn. split; [apply store_extends_refl|]. split; [done|]. split; [done|].
    by rewrite app_nil_r.
  - apply Forall_cons in Hel as [[c Hc] Hel].
    cbn [fold_left].
    destruct (store_extend_one_step m t acc h o c Ho Hacc Hc)
      as (He1 & Ho1 & Hacc1 & Hd1).
    destruct (Store.extend_one m t (acc, h) o) as [acc1 h1] eqn:E1.
    cbn [fst snd] in *.
    assert (Hel1 : Forall (fun o => is_Some (Store.objects h1 !! o)) elems).
    { eapply Forall_impl; [exact Hel|]. intros x Hx. cbn in *.
      destruct He1 as [_ F]. destruct (F x (Ho x Hx)) as [_ ->]. done. }
    destruct (IH acc1 h1 Ho1 Hacc1 Hel1) as (He2 & Ho2 & Hacc2 & Hd2).
    split; [eapply store_extends_trans; eauto|]. split; [done|]. split; [done|].
    rewrite Hd2, Hd1. cbn [omap list_omap]. rewrite Hc.
    unfold extendContractWithChildren. cbn [flat_map].
    rewrite <- app_assoc. f_equal. f_equal.
    f_equal. apply list_omap_ext. apply Forall_Forall2_diag.
    eapply Forall_impl; [exact Hel|]. intros x Hx. cbn in *.
    destruct He1 as [_ F]. destruct (F x (Ho x Hx)) as [_ ->]. done.
Qed.

Lemma store_extendContractWithChildren_spec (contracts : nat)
    (m : PrizePoolAddressesByChainId) (t : ContractType.t) (h : Store.Heap) :
  (forall o, is_Some (Store.objects h !! o) -> (o < Store.next_loc h)%nat) ->
  Forall (fun o => is_Some (Store.objects h !! o)) (Store.elements h contracts) ->
  let extended := fst (Store.extendContractWithChildren contracts m t h) in
  let h' := snd (Store.extendContractWithChildren contracts m t h) in
  (Store.next_loc h <= extended)%nat /\
  Store.extends h h' /\
  (forall o, is_Some (Store.objects h' !! o) -> (o < Store.next_loc h')%nat) /\
  Forall (fun o => is_Some (Store.objects h' !! o)) (Store.elements h' extended) /\
  Store.deref h' extended = extendContractWithChildren (Store.deref h contracts) m t.
Proof.
  intros Ho Hel. unfold Store.extendContractWithChildren.
  destruct (store_extend_fold m t (Store.elements h contracts) [] h Ho
              ltac:(constructor) Hel) as (He & Ho' & Hacc & Hd).
  destruct (fold_left _ _ _) as [elems h1]. cbn [fst snd] in *.
  cbn [Store.alloc_array fst snd].
  split; [by destruct He|]. split.
  { eapply store_extends_trans; [exact He|].
    apply (store_extends_alloc_array elems h1). }
  split.
  { cbn [Store.objects Store.next_loc]. intros o Hs. apply Ho' in Hs. lia. }
  unfold Store.deref, Store.elements. cbn [Store.arrays Store.objects].
  rewrite lookup_insert_eq. cbn [default from_option]. unfold id.
  split; [done|]. rewrite Hd. reflexivity.
Qed.

(** *** What the two extensions leave alone *)

Lemma store_push_missing_frame (values : list Contract) (h0 h : Store.Heap)
    (updated : nat) (token : Child) :
  Store.extends h0 h -> (Store.next_loc h0 <= updated)%nat ->
  Store.extends h0 (Store.push_missing values updated h token).
Proof.
  intros He Hu. unfold Store.push_missing.
  destruct (find_contract values token); [done|].
  cbn [Store.alloc_object]. apply store_extends_push; [|done].
  eapply store_extends_trans; [exact He|].
  apply (store_extends_alloc_object
           (createTokenContract (child_chainId token) (child_address token)) h).
Qed.

Lemma store_push_missing_fold_frame (values : list Contract) (h0 h : Store.Heap)
    (updated : nat) (tokens : list Child) :
  Store.extends h0 h -> (Store.next_loc h0 <= updated)%nat ->
  Store.extends h0 (fold_left (Store.push_missing values updated) tokens h).
Proof.
  revert h; induction tokens as [|t tokens IH]; intros h He Hu; [done|].
  cbn [fold_left]. apply IH; [|done]. by apply store_push_missing_frame.
Qed.

(** [extendContractsWithToken] works on a copy: its result is an array
    that did not exist, and nothing the store held has changed, the array
    it was given included. *)
Lemma store_extendContractsWithToken_frame (contracts : nat) (h : Store.Heap) :
  fst (Store.extendContractsWithToken contracts h) = Store.next_loc h /\
  Store.extends h (snd (Store.extendContractsWithToken contracts h)).
Proof.
  unfold Store.extendContractsWithToken. cbn [Store.alloc_array fst snd].
  split; [done|].
  apply store_push_missing_fold_frame; [|done].
  apply (store_extends_alloc_array (Store.elements h contracts) h).
Qed.

(** [extendContractWithChildren] as the spec has it changes nothing of
    what the store held either. *)
Lemma store_extend_one_frame (m : PrizePoolAddressesByChainId)
    (t : ContractType.t) (acc : list nat * Store.Heap) (o : nat) :
  Store.extends (snd acc) (snd (Store.extend_one m t acc o)).
Proof.
  unfold Store.extend_one.
  destruct (Store.objects (snd acc) !! o) as [c|]; [|apply store_extends_refl].
  destruct (decide (type c = t)); [|apply store_extends_refl].
  destruct (m !! chainId c) as [addresses|]; [|apply store_extends_refl].
  destruct (addresses !! address c) as [found|]; [|apply store_extends_refl].
  cbn [Store.alloc_object snd].
  apply (store_extends_alloc_object (withChildren c (Some found)) (snd acc)).
Qed.

Lemma store_extendContractWithChildren_frame (contracts : nat)
    (m : PrizePoolAddressesByChainId) (t : ContractType.t) (h : Store.Heap) :
  Store.extends h (snd (Store.extendContractWithChildren contracts m t h)).
Proof.
  unfold Store.extendContractWithChildren.
  assert (Hfold : forall elems acc,
             Store.extends h (snd acc) ->
             Store.extends h (snd (fold_left (Store.extend_one m t) elems acc))).
  { induction elems as [|o elems IH]; intros acc Hacc; [done|].
    cbn [fold_left]. apply IH.
    eapply store_extends_trans; [exact Hacc|]. apply store_extend_one_frame. }
  specialize (Hfold (Store.elements h contracts) ([], h) (store_extends_refl h)).
  destruct (fold_left _ _ _) as [elems h1]. cbn [snd] in *.
  eapply store_extends_trans; [exact Hfold|].
  apply (store_extends_alloc_array elems h1).
Qed.

Section StoreAssembly.

Variable batch : Provider -> list Context -> option (gmap string ContextResult).

(** What stands for [extendContractWithChildren], and the one thing asked
    of it: it changes nothing of what the store holds when it is called.
    It may return a new array or the one it was given. *)
Variable extendWithChildren :
  nat -> PrizePoolAddressesByChainId -> ContractType.t -> Store.Heap
  -> nat * Store.Heap.

Hypothesis extendWithChildren_frame :
  forall contracts m t h,
    Store.extends h (snd (extendWithChildren contracts m t h)).

(** C9. Assembling a linked pool leaves the caller's descriptor list as
    it was, whether the assembling returns or throws: the array passed in
    holds the same references, every descriptor it refers to is unchanged,
    and so is everything else the store held.  The list of a linked pool
    that is returned is an array that did not exist before the call.  This
    holds whatever array [extendContractWithChildren] hands on, the
    caller's own included: [extendContractsWithToken] pushes onto a copy. *)
Theorem assembling_leaves_input_untouched (providers : Providers)
    (linkedPrizePoolContractList : Store.ContractListRef) (h : Store.Heap) :
  Store.well_formed h ->
  is_Some (Store.arrays h !! Store.ref_contracts linkedPrizePoolContractList) ->
  Forall (fun o => is_Some (Store.objects h !! o))
    (Store.elements h (Store.ref_contracts linkedPrizePoolContractList)) ->
  let input := Store.ref_contracts linkedPrizePoolContractList in
  let out :=
    Store.initializeLinkedPrizePool batch extendWithChildren providers
      linkedPrizePoolContractList h in
  let h' := snd out in
  Store.arrays h' !! input = Store.arrays h !! input /\
  Forall (fun o => Store.objects h' !! o = Store.objects h !! o)
    (Store.elements h input) /\
  Store.deref h' input = Store.deref h input /\
  Store.extends h h' /\
  forall linked,
    fst out = Returned linked ->
    (Store.next_loc h <= Store.ref_contracts (Store.ref_contractList linked))%nat /\
    Store.ref_contracts (Store.ref_contractList linked) <> input.
Proof.
  intros [Hwa Hwo] Harr Hel input out h'.
  assert (Hlt : (input < Store.next_loc h)%nat) by (by apply Hwa).
  subst out h'. unfold Store.initializeLinkedPrizePool. fold input.
  set (m := collectAddresses (fetchAll batch providers (Store.deref h input))).
  pose proof (extendWithChildren_frame input m
                ContractType.YieldSourcePrizePool h) as He1.
  destruct (extendWithChildren input m _ h) as [c1 h1].
  cbn [snd] in He1.
  destruct (store_extendContractsWithToken_frame c1 h1) as [Hu He2].
  destruct (Store.extendContractsWithToken c1 h1) as [c2 h2].
  cbn [fst snd] in *.
  assert (He : Store.extends h h2) by (eapply store_extends_trans; eauto).
  destruct He as [HL HF]. destruct (HF input Hlt) as [HA HO].
  split; [done|]. split.
  { eapply Forall_impl; [exact Hel|]. intros o Hs. cbn in *.
    by destruct (HF o (Hwo o Hs)). }
  split.
  { unfold Store.deref, Store.elements. rewrite HA.
    apply list_omap_ext, Forall_Forall2_diag.
    eapply Forall_impl; [exact Hel|]. intros o Hs. cbn in *.
    by destruct (HF o (Hwo o Hs)). }
  split; [by split|].
  intros linked Hret.
  destruct (createPrizePools providers (Store.deref h2 c2)) as [pools|e];
    [|discriminate].
  injection Hret as <-. cbn.
  destruct He1 as [HL1 _]. lia.
Qed.

End StoreAssembly.

Lemma assembling_leaves_input_untouched_witness :
  let h := MoreExamples.store1 in
  let out :=
    Store.initializeLinkedPrizePool Examples.batch_ok
      MoreExamples.returnSameArray Examples.both_networks MoreExamples.list1 h in
  (forall contracts m t h0,
      Store.extends h0 (snd (MoreExamples.returnSameArray contracts m t h0))) /\
  Store.well_formed h /\
  is_Some (Store.arrays h !! 1%nat) /\
  Forall (fun o => is_Some (Store.objects h !! o)) (Store.elements h 1) /\
  Store.arrays (snd out) !! 1%nat = Some [0%nat] /\
  Store.arrays (snd out) !! 2%nat = Some [0%nat; 3%nat; 4%nat] /\
  Store.arrays (snd out) !! 1%nat = Store.arrays h !! 1%nat /\
  Store.deref (snd out) 1 = Store.deref h 1.
Proof.
  assert (Hframe : forall contracts m t h0,
             Store.extends h0
               (snd (MoreExamples.returnSameArray contracts m t h0))).
  { intros contracts m t h0. apply store_extends_refl. }
  assert (Hwf : Store.well_formed MoreExamples.store1).
  { split; intros l [x Hx]; cbn in *.
    - destruct (decide (l = 1%nat)) as [->|]; [lia|].
      by rewrite lookup_singleton_ne in Hx.
    - destruct (decide (l = 0%nat)) as [->|]; [lia|].
      by rewrite lookup_singleton_ne in Hx. }
  assert (Harr : is_Some (Store.arrays MoreExamples.store1 !! 1%nat))
    by (by eexists).
  assert (Hel : Forall (fun o => is_Some (Store.objects MoreExamples.store1 !! o))
                  (Store.elements MoreExamples.store1 1)).
  { repeat constructor; by eexists. }
  split; [exact Hframe|]. split; [exact Hwf|]. split; [exact Harr|].
  split; [exact Hel|].
  split; [vm_compute; reflexivity|]. split; [vm_compute; reflexivity|].
  pose proof (assembling_leaves_input_untouched Examples.batch_ok
                MoreExamples.returnSameArray Hframe
                Examples.both_networks MoreExamples.list1 MoreExamples.store1
                Hwf Harr Hel) as (H1 & _ & H3 & _).
  split; [exact H1|exact H3].
Defined.

(** The same with [extendContractWithChildren] as the spec has it, on two
    networks of which one fails: the assembling throws, and the caller's
    array and descriptors are as they were. *)
Example assembling_with_polygon_down_leaves_input :
  let out :=
    Store.initializeLinkedPrizePool Examples.batch_polygon_down
      Store.extendContractWithChildren Examples.both_networks Examples.list0
      Examples.store0 in
  fst out = Thrown (TypeError "Cannot read properties of undefined") /\
  Store.arrays (snd out) !! 2%nat = Some [0%nat; 1%nat] /\
  Store.deref (snd out) 2 = Examples.two_networks.
Proof. repeat split; vm_compute; reflexivity. Qed.

(** * More properties of the assembler *)

(** ** [extendContractsWithToken], in closed form *)

Lemma find_contract_Some_iff (contracts : list Contract) (token : Child) :
  is_Some (find_contract contracts token) <->
  exists c, c ∈ contracts /\ contractKey c = childKey token.
Proof.
  unfold find_contract, contractKey, childKey. split.
  - intros [c Hc]. apply find_some in Hc as [Hin Hb].
    apply bool_decide_eq_true in Hb as [Ha Hn].
    exists c. split; [by apply list_elem_of_In|congruence].
  - intros (c & Hin & Hk). injection Hk as Hn Ha.
    destruct (find _ contracts) as [d|] eqn:E; [eauto|].
    apply list_elem_of_In in Hin.
    pose proof (find_none _ _ E c Hin) as Hb. simpl in Hb.
    apply bool_decide_eq_false in Hb. tauto.
Qed.

Lemma find_contract_None_iff (contracts : list Contract) (token : Child) :
  find_contract contracts token = None <->
  forall c, c ∈ contracts -> contractKey c <> childKey token.
Proof.
  split.
  - intros Hn c Hin Hk.
    assert (Hs : is_Some (find_contract contracts token))
      by (apply find_contract_Some_iff; eauto).
    rewrite Hn in Hs. by destruct Hs.
  - intros Hall. destruct (find_contract contracts token) as [d|] eqn:E; [|done].
    assert (Hs : is_Some (find_contract contracts token)) by (rewrite E; eauto).
    apply find_contract_Some_iff in Hs as (c & Hin & Hk). by destruct (Hall c Hin).
Qed.

Lemma push_missing_fold (lookup updated : list Contract) (tokens : list Child) :
  fold_left (push_missing lookup) tokens updated
  = updated
    ++ map (fun token => createTokenContract (child_chainId token) (child_address token))
         (filter (fun token => find_contract lookup token = None) tokens).
Proof.
  revert updated; induction tokens as [|t tokens IH]; intros updated.
  - cbn. by rewrite app_nil_r.
  - cbn [fold_left]. rewrite IH, filter_cons. unfold push_missing.
    destruct (find_contract lookup t) as [c|] eqn:E.
    + by rewrite decide_False.
    + rewrite decide_True by done. cbn [map]. by rewrite <- app_assoc.
Qed.

Lemma extendContractsWithToken_closed_form (contracts : list Contract) :
  extendContractsWithToken contracts
  = contracts
    ++ map (fun token => createTokenContract (child_chainId token) (child_address token))
         (missingChildren contracts).
Proof. apply push_missing_fold. Qed.

(** X1. [extendContractsWithToken] only appends: its result is the list
    passed in, in the same order, followed by one synthesized descriptor
    for every declared child, token or ticket alike, that no descriptor of
    the input has the network and address of, in the order the children
    are declared and once per declaration. *)
Theorem extendContractsWithToken_appends (contracts : list Contract) :
  extendContractsWithToken contracts
  = contracts
    ++ map (fun token => createTokenContract (child_chainId token) (child_address token))
         (missingChildren contracts).
Proof. exact (extendContractsWithToken_closed_form contracts). Qed.

Lemma declaredChildren_spec (contracts : list Contract) (token : Child) :
  token ∈ declaredChildren contracts <->
  exists c kids, c ∈ contracts /\ children (extensions c) = Some kids /\ token ∈ kids.
Proof.
  unfold declaredChildren. rewrite list_elem_of_In, in_flat_map. split.
  - intros (c & Hc & Ht). apply list_elem_of_In, list_elem_of_filter in Hc as [[kids Hk] Hc].
    rewrite Hk in Ht. exists c, kids. split; [done|]. split; [done|].
    by apply list_elem_of_In.
  - intros (c & kids & Hc & Hk & Ht). exists c. split.
    + apply list_elem_of_In, list_elem_of_filter. split; [rewrite Hk; eauto|done].
    + rewrite Hk. by apply list_elem_of_In.
Qed.

Lemma declaredChildren_app (l1 l2 : list Contract) :
  declaredChildren (l1 ++ l2) = declaredChildren l1 ++ declaredChildren l2.
Proof. unfold declaredChildren. by rewrite filter_app, flat_map_app. Qed.

Lemma declaredChildren_synthesized (tokens : list Child) :
  declaredChildren
    (map (fun token => createTokenContract (child_chainId token) (child_address token))
       tokens) = [].
Proof.
  induction tokens as [|t tokens IH]; [done|].
  unfold declaredChildren in *. cbn [map]. rewrite filter_cons.
  rewrite decide_False; [done|]. cbn. by intros [? ?].
Qed.

Lemma covered_after_extension (contracts : list Contract) (token : Child) :
  token ∈ declaredChildren contracts ->
  is_Some (find_contract (extendContractsWithToken contracts) token).
Proof.
  intros Ht. rewrite extendContractsWithToken_closed_form.
  apply find_contract_Some_iff.
  destruct (find_contract contracts token) as [d|] eqn:E.
  - assert (Hs : is_Some (find_contract contracts token)) by (rewrite E; eauto).
    apply find_contract_Some_iff in Hs as (c & Hin & Hk).
    exists c. split; [|done]. apply elem_of_app. by left.
  - exists (createTokenContract (child_chainId token) (child_address token)).
    split; [|done]. apply elem_of_app. right.
    apply list_elem_of_fmap. exists token. split; [done|].
    unfold missingChildren. by apply list_elem_of_filter.
Qed.

(** X2. After [extendContractsWithToken] every declared child is
    catalogued: for each child declared by a descriptor of the input, the
    result holds a descriptor with the child's network and address. *)
Theorem extendContractsWithToken_covers_children (contracts : list Contract)
    (parent : Contract) (kids : list Child) (token : Child) :
  parent ∈ contracts ->
  children (extensions parent) = Some kids ->
  token ∈ kids ->
  exists d, d ∈ extendContractsWithToken contracts /\
            chainId d = child_chainId token /\ address d = child_address token.
Proof.
  intros Hp Hk Ht.
  assert (Hd : token ∈ declaredChildren contracts)
    by (apply declaredChildren_spec; eauto).
  apply covered_after_extension, find_contract_Some_iff in Hd as (d & Hin & Hkey).
  exists d. split; [done|]. injection Hkey as -> ->. done.
Qed.

Lemma missingChildren_nil_iff (contracts : list Contract) :
  missingChildren contracts = [] <->
  Forall (fun token => is_Some (find_contract contracts token))
    (declaredChildren contracts).
Proof.
  unfold missingChildren. induction (declaredChildren contracts) as [|t l IH].
  - split; [constructor|done].
  - rewrite filter_cons, Forall_cons.
    destruct (find_contract contracts t) as [c|] eqn:E.
    + rewrite decide_False by done. rewrite IH. split; [eauto|tauto].
    + rewrite decide_True by done. split; [done|]. intros [[? ?] _]. done.
Qed.

(** X3. [extendContractsWithToken] returns the list unchanged exactly when
    every declared child already has a descriptor in it; so it does on an
    empty list and on a list whose descriptors declare no children. *)
Theorem extendContractsWithToken_unchanged_iff (contracts : list Contract) :
  extendContractsWithToken contracts = contracts <->
  Forall (fun token => exists c, c ∈ contracts /\ contractKey c = childKey token)
    (declaredChildren contracts).
Proof.
  rewrite extendContractsWithToken_closed_form.
  rewrite <- (Forall_iff (fun token => is_Some (find_contract contracts token)))
    by (intros token; apply find_contract_Some_iff).
  rewrite <- missingChildren_nil_iff. split.
  - intros H.
    assert (Hl : length (contracts
                          ++ map (fun token =>
                                    createTokenContract (child_chainId token)
                                      (child_address token))
                               (missingChildren contracts))
                 = length contracts) by (by rewrite H).
    rewrite length_app, length_map in Hl.
    destruct (missingChildren contracts); [done|]. simpl in Hl. lia.
  - intros ->. cbn. by rewrite app_nil_r.
Qed.

(** X4. [extendContractsWithToken] is idempotent: applied to its own
    result it adds nothing, the synthesized descriptors declaring no
    children and every declared child being catalogued by then. *)
Theorem extendContractsWithToken_idempotent (contracts : list Contract) :
  extendContractsWithToken (extendContractsWithToken contracts)
  = extendContractsWithToken contracts.
Proof.
  rewrite (extendContractsWithToken_closed_form (extendContractsWithToken contracts)).
  assert (Hm : missingChildren (extendContractsWithToken contracts) = []).
  { apply missingChildren_nil_iff, Forall_forall. intros token Ht.
    rewrite extendContractsWithToken_closed_form in Ht.
    rewrite declaredChildren_app, declaredChildren_synthesized, app_nil_r in Ht.
    rewrite extendContractsWithToken_closed_form in *.
    rewrite <- extendContractsWithToken_closed_form.
    by apply covered_after_extension. }
  rewrite Hm. cbn. by rewrite app_nil_r.
Qed.

#[local] Instance childKey_inj : Inj (=) (=) childKey.
Proof. intros [c1 a1] [c2 a2] [= -> ->]. done. Qed.

(** X5. When duplicates appear.  The result of [extendContractsWithToken]
    has no two descriptors with the same (network, address) exactly when
    the input has none and no missing child is declared twice: a child
    missing from the list and declared by two descriptors, or twice by
    one, is what puts the same descriptor in twice. *)
Theorem extendContractsWithToken_NoDup_iff (contracts : list Contract) :
  NoDup (map contractKey (extendContractsWithToken contracts)) <->
  NoDup (map contractKey contracts) /\ NoDup (missingChildren contracts).
Proof.
  rewrite extendContractsWithToken_closed_form, map_app, map_map.
  change (map (fun x => contractKey (createTokenContract (child_chainId x) (child_address x))))
    with (map childKey).
  rewrite NoDup_app.
  assert (Hdisj : forall k, k ∈ map contractKey contracts ->
                            k ∉ map childKey (missingChildren contracts)).
  { intros k Hk Hm. apply list_elem_of_fmap in Hk as (c & -> & Hc).
    apply list_elem_of_fmap in Hm as (t & Hkey & Ht).
    unfold missingChildren in Ht. apply list_elem_of_filter in Ht as [Hn _].
    by apply (proj1 (find_contract_None_iff contracts t) Hn c Hc). }
  change (map childKey (missingChildren contracts))
    with (childKey <$> missingChildren contracts) in *.
  rewrite (NoDup_fmap childKey). tauto.
Qed.

(** ** What [initializeLinkedPrizePool] keeps of the settled fetches *)

Lemma collect_fold_lookup (l : list (Z * gmap string ChildAddresses))
    (m0 : PrizePoolAddressesByChainId) (k : Z) :
  fold_left (fun m ppa => <[fst ppa := snd ppa]> m) l m0 !! k
  = match last (filter (fun ppa => fst ppa = k) l) with
    | Some ppa => Some (snd ppa)
    | None => m0 !! k
    end.
Proof.
  revert m0; induction l as [|x l IH]; intros m0; [done|].
  cbn [fold_left]. rewrite IH, filter_cons.
  destruct (decide (fst x = k)) as [Hx|Hx].
  - rewrite last_cons.
    destruct (last (filter _ l)); [done|]. by rewrite Hx, lookup_insert_eq.
  - destruct (last (filter _ l)); [done|]. by rewrite lookup_insert_ne.
Qed.

(** X6. Whatever the fetches settled to, the map of discovered addresses
    [initializeLinkedPrizePool] builds from them drops the rejected ones,
    and holds for a network the addresses of the last fulfilled response
    that names it: no entry for a network none of the fulfilled responses
    names. *)
Theorem collectAddresses_last_fulfilled
    (responses : list (list BatchRequest * option (Z * gmap string ChildAddresses)))
    (k : Z) :
  collectAddresses responses !! k
  = snd <$> last (filter (fun ppa => fst ppa = k) (omap snd responses)).
Proof.
  unfold collectAddresses. rewrite collect_fold_lookup, lookup_empty.
  by destruct (last _).
Qed.

(** ** The constructor of [LinkedPrizePool] *)


(** ** [initializePrizePools], handle by handle *)

Lemma try_push_fold_handles (providers : Providers) (all : list Contract)
    (metadatas : list Contract) (acc : list PrizePool * list BuildError)
    (P : PrizePool -> Prop) :
  (forall id m p h, new_PrizePool id m (Some p) all = Returned h ->
                    providers !! chainId m = Some p -> P h) ->
  Forall P (fst acc) ->
  Forall P (fst (fold_left (try_push providers all) metadatas acc)).
Proof.
  intros Hnew. revert acc; induction metadatas as [|m metadatas IH];
    intros acc Hacc; [done|].
  cbn [fold_left]. apply IH. unfold try_push.
  destruct (providers !! chainId m) as [p|] eqn:Ep; cbn; [|done].
  apply Forall_app. split; [done|]. constructor; [|done].
  by eapply Hnew.
Qed.

(** X8. [initializePrizePools] gives every descriptor of type PrizePool
    either a handle or a logged error, never both and never neither: the
    handles are those of the descriptors whose network has a client, in
    input order, and the errors those of the others.  Descriptors of any
    other type, YieldSourcePrizePool included, get nothing.  Every handle
    holds the whole contract list, is bound to the client of its own
    network, addresses its primary contract at the descriptor's address
    and has nothing cached. *)
Theorem initializePrizePools_handles (contractList : ContractList)
    (providers : Providers) :
  let metadatas := getContractsByType (contracts contractList) ContractType.PrizePool in
  let out := initializePrizePools contractList providers in
  map prizePoolMetadata (fst out)
  = filter (fun m => is_Some (providers !! chainId m)) metadatas /\
  snd out
  = map (fun m => ConstructionFailure (chainId m) (address m))
      (filter (fun m => providers !! chainId m = None) metadatas) /\
  (length (fst out) + length (snd out) = length metadatas)%nat /\
  Forall (fun h =>
            contractMetadataList h = contracts contractList /\
            pool_chainId h = chainId (prizePoolMetadata h) /\
            providers !! pool_chainId h = Some (signerOrProvider h) /\
            contract_address (prizePoolContract h) = address (prizePoolMetadata h) /\
            contract_provider (prizePoolContract h) = signerOrProvider h /\
            ticketContract h = None /\ tokenContract h = None)
    (fst out).
Proof.
  intros metadatas out.
  destruct (initializePrizePools_skips_failures contractList providers) as [H1 H2].
  fold metadatas in H1, H2. subst out.
  split; [exact H1|]. split; [exact H2|]. split.
  - rewrite <- (length_map prizePoolMetadata), H1, H2, length_map.
    clear. induction metadatas as [|m l IH]; [done|].
    rewrite !filter_cons.
    destruct (providers !! chainId m) as [p|]; cbn.
    + rewrite decide_True by eauto. rewrite decide_False by done. cbn. lia.
    + rewrite decide_False by (by intros [? ?]). rewrite decide_True by done.
      cbn. lia.
  - unfold initializePrizePools. apply try_push_fold_handles; [|constructor].
    intros id m p h [= <-] Hp. cbn. by repeat split.
Qed.

(** ** A list without primary pools *)

Lemma extendContractWithChildren_no_parent (cs : list Contract)
    (m : PrizePoolAddressesByChainId) (t : ContractType.t) :
  getContractsByType cs t = [] -> extendContractWithChildren cs m t = cs.
Proof.
  unfold getContractsByType, extendContractWithChildren.
  induction cs as [|c cs IH]; [done|].
  rewrite filter_cons. cbn [flat_map].
  destruct (decide (type c = t)); [done|].
  intros H. by rewrite (IH H).
Qed.

Section NoPrimaryPool.

Variable batch : Provider -> list Context -> option (gmap string ContextResult).

(** X9. On a list holding no descriptor of type YieldSourcePrizePool,
    [initializeLinkedPrizePool] calls [batch] for no network and returns a
    linked pool without handles, over the list extended by
    [extendContractsWithToken]: children declared in the input still get
    their descriptor synthesized. *)
Theorem initializeLinkedPrizePool_without_pools (providers : Providers)
    (linkedPrizePoolContractList : ContractList) :
  getContractsByType (contracts linkedPrizePoolContractList)
    ContractType.YieldSourcePrizePool = [] ->
  initializeLinkedPrizePool batch providers linkedPrizePoolContractList
  = ([],
     Returned
       {| providers := providers;
          prizePools := [];
          contractList :=
            {| list_name := list_name linkedPrizePoolContractList;
               contracts :=
                 extendContractsWithToken (contracts linkedPrizePoolContractList) |} |}).
Proof.
  intros Hnone.
  assert (Hf : fetchAll batch providers (contracts linkedPrizePoolContractList) = []).
  { unfold fetchAll. rewrite Hnone. cbn. by rewrite map_to_list_empty. }
  unfold initializeLinkedPrizePool. rewrite Hf. cbn [map concat collectAddresses].
  unfold collectAddresses. cbn [omap list_omap fold_left].
  rewrite (extendContractWithChildren_no_parent _ _ _ Hnone).
  unfold new_LinkedPrizePool, createPrizePools,
    sortContractsByContractTypeAndChildren.
  cbn [contracts]. rewrite getContractsByType_extendContractsWithToken, Hnone.
  reflexivity.
Qed.

End NoPrimaryPool.

(** ** The copy [extendContractsWithToken] makes *)

Lemma store_push_missing_elements (values : list Contract) (updated : nat)
    (tokens : list Child) (h : Store.Heap) (l : list nat) :
  Store.arrays h !! updated = Some l ->
  exists added,
    Store.arrays (fold_left (Store.push_missing values updated) tokens h) !! updated
    = Some (l ++ added) /\
    Forall (fun o => (Store.next_loc h <= o)%nat) added /\
    (Store.next_loc h
     <= Store.next_loc (fold_left (Store.push_missing values updated) tokens h))%nat.
Proof.
  revert h l; induction tokens as [|t tokens IH]; intros h l Hl.
  - exists []. cbn. rewrite app_nil_r. by repeat split.
  - cbn [fold_left]. unfold Store.push_missing at 2 4.
    destruct (find_contract values t); [by apply IH|].
    cbn [Store.alloc_object].
    set (h1 := Store.push _ _ _).
    assert (Hl1 : Store.arrays h1 !! updated = Some (l ++ [Store.next_loc h])).
    { subst h1. unfold Store.push. cbn [Store.arrays].
      by rewrite lookup_alter_eq, Hl. }
    destruct (IH h1 _ Hl1) as (added & Ha & Hf & Hn).
    exists (Store.next_loc h :: added). split; [by rewrite Ha, <- app_assoc|].
    subst h1. unfold Store.push in *. cbn [Store.next_loc] in *. split; [|lia].
    constructor; [done|]. eapply Forall_impl; [exact Hf|]. cbn. intros. lia.
Qed.

(** X10. On the store, [extendContractsWithToken] always returns a new
    array, also when it adds nothing; that array starts with the very
    references the input array holds, so the descriptors of the input are
    shared with the result, not copied; and the references that follow
    are those of objects created by the call. *)
Theorem store_extendContractsWithToken_shallow_copy (contracts : nat)
    (h : Store.Heap) :
  let updated := fst (Store.extendContractsWithToken contracts h) in
  let h' := snd (Store.extendContractsWithToken contracts h) in
  updated = Store.next_loc h /\
  exists added,
    Store.elements h' updated = Store.elements h contracts ++ added /\
    Forall (fun o => (Store.next_loc h < o)%nat) added.
Proof.
  unfold Store.extendContractsWithToken. cbn [Store.alloc_array fst snd].
  split; [done|].
  set (h1 := {| Store.arrays := _; Store.objects := _; Store.next_loc := _ |}).
  assert (Hl : Store.arrays h1 !! Store.next_loc h = Some (Store.elements h contracts)).
  { subst h1. cbn [Store.arrays]. by rewrite lookup_insert_eq. }
  destruct (store_push_missing_elements (Store.deref h contracts) (Store.next_loc h)
              (flat_map (fun c => default [] (children (extensions c)))
                 (filter (fun c => is_Some (children (extensions c)))
                    (Store.deref h contracts))) h1 _ Hl)
    as (added & Ha & Hf & _).
  exists added. split.
  - unfold Store.elements at 1. by rewrite Ha.
  - eapply Forall_impl; [exact Hf|]. subst h1. cbn. intros. lia.
Qed.

(** * More properties of pool handles *)

Section PoolExtras.

Variable chain : nat -> Call -> option Value.
Variable isAddress : string -> bool.

#[local] Abbreviation run := (run chain).

(** ** Invariants of the handle under accessor calls *)

Lemma keeps_bind {A B : Type} (J : PrizePool -> Prop) (p : Prog A)
    (f : A -> Prog B) :
  keeps chain J p -> (forall a, keeps chain J (f a)) -> keeps chain J (bind p f).
Proof.
  intros Hp Hf w Hw. rewrite run_bind. specialize (Hp w Hw).
  destruct (run p w) as [[a|e] w']; cbn in *; [by apply Hf|done].
Qed.

Lemma keeps_same_this {A : Type} (J : PrizePool -> Prop) (p : Prog A) :
  (forall w, this (snd (run p w)) = this w) -> keeps chain J p.
Proof. intros H w Hw. by rewrite H. Qed.

Ltac keeps_step :=
  first
    [ apply keeps_same_this; intros ?;
      first [ reflexivity
            | rewrite run_validateAddress; reflexivity
            | rewrite run_validateSignerOrProviderNetwork; reflexivity
            | unfold awaitNumber, awaitAddress, awaitTokenData; simpl;
              match goal with
              | |- context [response ?c ?n ?w] =>
                  destruct (response c n w) as [[]|]; reflexivity
              end ]
    | match goal with
      | H : forall key, keeps _ _ (resolve key) |- keeps _ _ getTokenContract =>
          exact (H key_token)
      | H : forall key, keeps _ _ (resolve key) |- keeps _ _ getTicketContract =>
          exact (H key_ticket)
      end
    | apply keeps_bind; [|intros ?] ].

(** A property of the handle kept by the two resolutions is kept by every
    accessor: the accessors touch the handle through them only. *)
Lemma keeps_call (J : PrizePool -> Prop) (a : Accessor) :
  (forall key, keeps chain J (resolve key)) -> keeps chain J (call isAddress a).
Proof.
  intros Hres.
  destruct a; unfold call, fmap_prog,
    getUserPrizePoolBalances, getUserTicketBalance, getUserTicketTwabAt,
    getUserTokenBalance, getUserDepositAllowance, getUserTicketDelegate,
    getTokenData, getTicketData, getTicketTotalSupply,
    getTicketTwabTotalSupplyAt, getUserERC20Balance, utils_getTokenData;
    repeat keeps_step.
Qed.

Lemma keeps_run_calls (J : PrizePool -> Prop) (calls : list Accessor) (w : World) :
  (forall key, keeps chain J (resolve key)) ->
  J (this w) -> J (this (run_calls chain isAddress calls w)).
Proof.
  intros Hres. revert w; induction calls as [|a calls IH]; intros w Hw; [done|].
  cbn. apply IH. by apply keeps_call.
Qed.

Lemma keeps_token_consistent (key : ChildKey) :
  keeps chain token_consistent (resolve key).
Proof.
  intros w Hw. rewrite run_resolve. unfold resolve_spec.
  destruct (cached key (this w)) as [c|] eqn:Hc; [done|].
  destruct (chain _ _) as [[a|n|d]|]; cbn; try done.
  unfold token_consistent in *. destruct key; cbn in *.
  - exact Hw.
  - by repeat split.
Qed.

(** X11. The token cache stays consistent through any sequence of accessor
    calls: starting from a handle whose token contract and token metadata
    are both unset (or already consistent), they are at any later time
    both unset or both set, the metadata saying ERC20 token of the
    handle's network at the address of the cached contract, and the cached
    contract going through the handle's client. *)
Theorem token_cache_stays_consistent (calls : list Accessor) (w : World) :
  token_consistent (this w) ->
  token_consistent (this (run_calls chain isAddress calls w)).
Proof. apply keeps_run_calls. exact keeps_token_consistent. Qed.

(** X12. No accessor call ever changes what the constructor set: the
    network id of the handle, its client, its contract list, its primary
    metadata and its primary contract are the same after any sequence of
    calls, and the reads already sent stay where they are in the trace. *)
Theorem accessors_leave_handle_identity (calls : list Accessor) (w : World) :
  let w' := run_calls chain isAddress calls w in
  pool_chainId (this w') = pool_chainId (this w) /\
  signerOrProvider (this w') = signerOrProvider (this w) /\
  contractMetadataList (this w') = contractMetadataList (this w) /\
  prizePoolMetadata (this w') = prizePoolMetadata (this w) /\
  prizePoolContract (this w') = prizePoolContract (this w) /\
  take (length (reads w)) (reads w') = reads w.
Proof.
  intros w'. destruct (evolves_run_calls chain isAddress calls w) as (l & H).
  fold w' in H.
  split; [exact (ev_chainId _ _ _ _ H)|]. split; [exact (ev_provider _ _ _ _ H)|].
  split; [exact (ev_list _ _ _ _ H)|]. split; [exact (ev_metadata _ _ _ _ H)|].
  split; [exact (ev_contract _ _ _ _ H)|].
  rewrite (ev_reads _ _ _ _ H). by rewrite take_app_length.
Qed.

(** ** Validation *)

(** X13. Validation comes before anything else, the address first.  A
    call of an accessor that takes a user address, made with a malformed
    one, rejects with [InvalidAddress] whatever network the client is on;
    a call of an accessor that checks the network, made through a client
    of another network with a well-formed address or none, rejects with
    [NetworkMismatch].  Either way no read has been sent and the handle,
    caches included, is as it was. *)
Theorem rejected_validation_sends_nothing (a : Accessor) (w : World) :
  ((exists u, usersAddress_of a = Some u /\ isAddress u = false) ->
   run (call isAddress a) w = (Err InvalidAddress, w)) /\
  (validates_network a = true ->
   (forall u, usersAddress_of a = Some u -> isAddress u = true) ->
   provider_network (signerOrProvider (this w)) <> pool_chainId (this w) ->
   run (call isAddress a) w = (Err NetworkMismatch, w)).
Proof.
  split.
  - intros (u & Hu & Hf). apply validation_rejects.
    unfold validation. by rewrite Hu, Hf.
  - intros Hv Hu Hn. apply validation_rejects.
    unfold validation. rewrite Hv.
    destruct (usersAddress_of a) as [u|].
    + rewrite (Hu u eq_refl). by rewrite decide_False.
    + by rewrite decide_False.
Qed.

(** ** What the accessors read *)

Lemma run_awaitNumber_fresh (c : Call) (w : World) (n : Z) :
  chain (length (reads w)) c = Some (VNumber n) ->
  run (awaitNumber (length (reads w))) (log_read c w) = (Ok n, log_read c w).
Proof.
  intros H. unfold awaitNumber. simpl. by rewrite response_fresh, H.
Qed.

Lemma run_awaitAddress_fresh (c : Call) (w : World) (a : string) :
  chain (length (reads w)) c = Some (VAddress a) ->
  run (awaitAddress (length (reads w))) (log_read c w) = (Ok a, log_read c w).
Proof.
  intros H. unfold awaitAddress. simpl. by rewrite response_fresh, H.
Qed.

(** X14. [getUserTicketTwabAt], for a well-formed address on a client of
    the handle's network: once the ticket contract is resolved, the one
    read sent is [getBalanceAt(usersAddress, unixTimestamp)] on that
    ticket contract, address and timestamp passed as given, and the call
    returns what the chain answers. *)
Theorem getUserTicketTwabAt_reads_getBalanceAt (w w1 : World)
    (usersAddress : string) (unixTimestamp : Z) (ticketContract : EthersContract)
    (twab : Z) :
  isAddress usersAddress = true ->
  provider_network (signerOrProvider (this w)) = pool_chainId (this w) ->
  run getTicketContract w = (Ok ticketContract, w1) ->
  chain (length (reads w1))
    (call_getBalanceAt (contract_address ticketContract) usersAddress unixTimestamp)
  = Some (VNumber twab) ->
  run (getUserTicketTwabAt isAddress usersAddress unixTimestamp) w
  = (Ok twab,
     log_read (call_getBalanceAt (contract_address ticketContract)
                 usersAddress unixTimestamp) w1).
Proof.
  intros Hu Hn Ht Hans. unfold getUserTicketTwabAt.
  rewrite run_past_validateAddress by done.
  rewrite run_past_validateSignerOrProviderNetwork by done.
  rewrite run_bind, Ht, run_bind, run_issue, run_bind.
  by rewrite (run_awaitNumber_fresh _ _ _ Hans).
Qed.

(** X15. [getUserTicketDelegate], for a well-formed address: once the
    ticket contract is resolved, the one read sent is
    [delegateOf(usersAddress)] on that ticket contract and the call
    returns the address the chain answers, whatever network the client of
    the handle is on. *)
Theorem getUserTicketDelegate_reads_delegateOf (w w1 : World)
    (usersAddress : string) (ticketContract : EthersContract) (delegate : string) :
  isAddress usersAddress = true ->
  run getTicketContract w = (Ok ticketContract, w1) ->
  chain (length (reads w1))
    (call_delegateOf (contract_address ticketContract) usersAddress)
  = Some (VAddress delegate) ->
  run (getUserTicketDelegate isAddress usersAddress) w
  = (Ok delegate,
     log_read (call_delegateOf (contract_address ticketContract) usersAddress) w1).
Proof.
  intros Hu Ht Hans. unfold getUserTicketDelegate.
  rewrite run_past_validateAddress by done.
  rewrite run_bind, Ht, run_bind, run_issue.
  by rewrite (run_awaitAddress_fresh _ _ _ Hans).
Qed.

(** X16. The two supply accessors take no address and validate the network
    only.  On a client of the handle's network, once the ticket contract
    is resolved, [getTicketTotalSupply] sends [totalSupply()] and
    [getTicketTwabTotalSupplyAt] sends [getTotalSupplyAt(unixTimestamp)]
    on that ticket contract, one read each, and return what the chain
    answers. *)
Theorem supply_accessors_read_the_ticket (w w1 : World)
    (ticketContract : EthersContract) :
  provider_network (signerOrProvider (this w)) = pool_chainId (this w) ->
  run getTicketContract w = (Ok ticketContract, w1) ->
  (forall totalSupply,
      chain (length (reads w1)) (call_totalSupply (contract_address ticketContract))
      = Some (VNumber totalSupply) ->
      run getTicketTotalSupply w
      = (Ok totalSupply,
         log_read (call_totalSupply (contract_address ticketContract)) w1)) /\
  (forall unixTimestamp totalSupply,
      chain (length (reads w1))
        (call_getTotalSupplyAt (contract_address ticketContract) unixTimestamp)
      = Some (VNumber totalSupply) ->
      run (getTicketTwabTotalSupplyAt unixTimestamp) w
      = (Ok totalSupply,
         log_read (call_getTotalSupplyAt (contract_address ticketContract)
                     unixTimestamp) w1)).
Proof.
  intros Hn Ht. split.
  - intros totalSupply Hans. unfold getTicketTotalSupply.
    rewrite run_past_validateSignerOrProviderNetwork by done.
    rewrite run_bind, Ht, run_bind, run_issue, run_bind.
    by rewrite (run_awaitNumber_fresh _ _ _ Hans).
  - intros unixTimestamp totalSupply Hans. unfold getTicketTwabTotalSupplyAt.
    rewrite run_past_validateSignerOrProviderNetwork by done.
    rewrite run_bind, Ht, run_bind, run_issue, run_bind.
    by rewrite (run_awaitNumber_fresh _ _ _ Hans).
Qed.

(** ** Failed resolutions *)

(** X17. A failed token resolution can be retried.  When the [getToken]
    read of [getTokenContract] is not answered with an address, the call
    rejects with [ResolutionFailure] and leaves the handle exactly as it
    was, nothing cached; the next call sends [getToken] again, and if
    that read is answered it returns a contract at the answered address
    and caches it. *)
Theorem getTokenContract_retry_after_failure (w : World) (tokenAddress : string) :
  tokenContract (this w) = None ->
  is_address_answer
    (chain (length (reads w))
       (call_getToken (contract_address (prizePoolContract (this w))))) = false ->
  chain (S (length (reads w)))
    (call_getToken (contract_address (prizePoolContract (this w))))
  = Some (VAddress tokenAddress) ->
  let getToken := call_getToken (contract_address (prizePoolContract (this w))) in
  let w1 := snd (run getTokenContract w) in
  let w2 := snd (run getTokenContract w1) in
  run getTokenContract w = (Err ResolutionFailure, log_read getToken w) /\
  this w1 = this w /\
  reads w2 = reads w ++ [getToken; getToken] /\
  exists c,
    run getTokenContract w1 = (Ok c, w2) /\
    contract_address c = tokenAddress /\
    tokenContract (this w2) = Some c.
Proof.
  intros Hc Hfail Hok getToken w1 w2.
  assert (H1 : run getTokenContract w = (Err ResolutionFailure, log_read getToken w)).
  { rewrite (run_resolve chain key_token). unfold resolve_spec. cbn [cached].
    rewrite Hc. cbn [resolution_call]. fold getToken.
    unfold is_address_answer in Hfail.
    by destruct (chain _ _) as [[]|]. }
  subst w2 w1. rewrite H1. cbn [snd].
  split; [done|]. split; [done|].
  rewrite (run_resolve chain key_token). unfold resolve_spec.
  cbn [cached log_read this reads]. rewrite Hc. cbn [resolution_call].
  rewrite length_app. cbn [length]. rewrite Nat.add_1_r.
  rewrite Hok. cbn. split; [by rewrite <- app_assoc|].
  eexists. split; [reflexivity|]. by split.
Qed.

(** X18. [getUserPrizePoolBalances] resolves the token before the ticket
    and stops at the first failure: when the token is not cached and its
    [getToken] read is not answered with an address, the call rejects with
    [ResolutionFailure] having sent that one read; no [getTicket] and no
    [balanceOf] is sent, and the handle is as it was. *)
Theorem getUserPrizePoolBalances_token_first (w : World) (usersAddress : string) :
  isAddress usersAddress = true ->
  provider_network (signerOrProvider (this w)) = pool_chainId (this w) ->
  tokenContract (this w) = None ->
  is_address_answer
    (chain (length (reads w))
       (call_getToken (contract_address (prizePoolContract (this w))))) = false ->
  run (getUserPrizePoolBalances isAddress usersAddress) w
  = (Err ResolutionFailure,
     log_read (call_getToken (contract_address (prizePoolContract (this w)))) w).
Proof.
  intros Hu Hn Hc Hfail. unfold getUserPrizePoolBalances.
  rewrite run_past_validateAddress by done.
  rewrite run_past_validateSignerOrProviderNetwork by done.
  apply run_bind_Err.
  rewrite (run_resolve chain key_token). unfold resolve_spec. cbn [cached].
  rewrite Hc. cbn [resolution_call].
  unfold is_address_answer in Hfail.
  by destruct (chain _ _) as [[]|].
Qed.

End PoolExtras.

(** * The properties above on concrete handles and lists *)

Lemma extendContractsWithToken_covers_children_witness :
  let token := Examples.child 1 Examples.token_address in
  MoreExamples.poolA ∈ Examples.two_pools_one_token /\
  children (extensions MoreExamples.poolA) = Some MoreExamples.kidsA /\
  token ∈ MoreExamples.kidsA /\
  exists d, d ∈ extendContractsWithToken Examples.two_pools_one_token /\
            chainId d = 1 /\ address d = Examples.token_address.
Proof.
  split; [constructor|]. split; [reflexivity|]. split; [constructor|].
  apply (extendContractsWithToken_covers_children Examples.two_pools_one_token
           MoreExamples.poolA MoreExamples.kidsA
           (Examples.child 1 Examples.token_address));
    [constructor | reflexivity | constructor].
Defined.


Lemma initializeLinkedPrizePool_without_pools_witness :
  getContractsByType (contracts MoreExamples.no_primary_pool)
    ContractType.YieldSourcePrizePool = [] /\
  initializeLinkedPrizePool Examples.batch_ok Examples.both_networks
    MoreExamples.no_primary_pool
  = ([],
     Returned
       {| providers := Examples.both_networks;
          prizePools := [];
          contractList :=
            {| list_name := "linked";
               contracts :=
                 contracts MoreExamples.no_primary_pool
                 ++ [createTokenContract 1 Examples.token_address] |} |}).
Proof.
  split; [reflexivity|].
  exact (initializeLinkedPrizePool_without_pools Examples.batch_ok
           Examples.both_networks MoreExamples.no_primary_pool eq_refl).
Defined.

Lemma token_cache_stays_consistent_witness :
  let calls := [GetUserDepositAllowance Examples.user; GetTokenData;
                GetUserTicketBalance MoreExamples.not_an_address] in
  token_consistent (this Examples.world0) /\
  token_consistent
    (this (run_calls Examples.chain_ok Examples.isAddress calls Examples.world0)).
Proof.
  split; [exact I|].
  apply (token_cache_stays_consistent Examples.chain_ok Examples.isAddress
           [GetUserDepositAllowance Examples.user; GetTokenData;
            GetUserTicketBalance MoreExamples.not_an_address]
           Examples.world0).
  exact I.
Defined.

Lemma rejected_validation_sends_nothing_witness :
  let w := Examples.world_wrong_network in
  Examples.isAddress MoreExamples.not_an_address = false /\
  provider_network (signerOrProvider (this w)) <> pool_chainId (this w) /\
  run Examples.chain_ok
    (call Examples.isAddress (GetUserTicketBalance MoreExamples.not_an_address)) w
  = (Err InvalidAddress, w) /\
  run Examples.chain_ok
    (call Examples.isAddress (GetUserTicketBalance Examples.user)) w
  = (Err NetworkMismatch, w) /\
  run Examples.chain_ok (call Examples.isAddress GetTicketTotalSupply) w
  = (Err NetworkMismatch, w).
Proof.
  split; [reflexivity|]. split; [discriminate|]. split; [|split].
  - apply (proj1 (rejected_validation_sends_nothing Examples.chain_ok
                    Examples.isAddress
                    (GetUserTicketBalance MoreExamples.not_an_address)
                    Examples.world_wrong_network)).
    exists MoreExamples.not_an_address. split; reflexivity.
  - apply (proj2 (rejected_validation_sends_nothing Examples.chain_ok
                    Examples.isAddress (GetUserTicketBalance Examples.user)
                    Examples.world_wrong_network));
      [reflexivity | intros u [= <-]; reflexivity | discriminate].
  - apply (proj2 (rejected_validation_sends_nothing Examples.chain_ok
                    Examples.isAddress GetTicketTotalSupply
                    Examples.world_wrong_network));
      [reflexivity | intros u [=] | discriminate].
Defined.

Lemma getUserTicketTwabAt_reads_getBalanceAt_witness :
  let w := Examples.world0 in
  let w1 := snd (run Examples.chain_ok getTicketContract w) in
  let read := call_getBalanceAt Examples.ticket_address Examples.user 1700000000 in
  Examples.isAddress Examples.user = true /\
  provider_network (signerOrProvider (this w)) = pool_chainId (this w) /\
  run Examples.chain_ok getTicketContract w = (Ok (Examples.ticket_contract 1), w1) /\
  Examples.chain_ok (length (reads w1)) read = Some (VNumber 4) /\
  run Examples.chain_ok
    (getUserTicketTwabAt Examples.isAddress Examples.user 1700000000) w
  = (Ok 4, log_read read w1).
Proof.
  split; [reflexivity|]. split; [reflexivity|]. split; [reflexivity|].
  split; [reflexivity|].
  apply (getUserTicketTwabAt_reads_getBalanceAt Examples.chain_ok
           Examples.isAddress Examples.world0 _ Examples.user 1700000000
           (Examples.ticket_contract 1) 4); reflexivity.
Defined.

Lemma getUserTicketDelegate_reads_delegateOf_witness :
  let w := Examples.world0 in
  let w1 := snd (run Examples.chain_ok getTicketContract w) in
  let read := call_delegateOf Examples.ticket_address Examples.user in
  Examples.isAddress Examples.user = true /\
  run Examples.chain_ok getTicketContract w = (Ok (Examples.ticket_contract 1), w1) /\
  Examples.chain_ok (length (reads w1)) read = Some (VAddress Examples.delegate) /\
  run Examples.chain_ok (getUserTicketDelegate Examples.isAddress Examples.user) w
  = (Ok Examples.delegate, log_read read w1).
Proof.
  split; [reflexivity|]. split; [reflexivity|]. split; [reflexivity|].
  apply (getUserTicketDelegate_reads_delegateOf Examples.chain_ok
           Examples.isAddress Examples.world0 _ Examples.user
           (Examples.ticket_contract 1) Examples.delegate); reflexivity.
Defined.

Lemma supply_accessors_read_the_ticket_witness :
  let w := Examples.world0 in
  let w1 := snd (run Examples.chain_ok getTicketContract w) in
  provider_network (signerOrProvider (this w)) = pool_chainId (this w) /\
  run Examples.chain_ok getTicketContract w = (Ok (Examples.ticket_contract 1), w1) /\
  run Examples.chain_ok getTicketTotalSupply w
  = (Ok 1000, log_read (call_totalSupply Examples.ticket_address) w1) /\
  run Examples.chain_ok (getTicketTwabTotalSupplyAt 1700000000) w
  = (Ok 900, log_read (call_getTotalSupplyAt Examples.ticket_address 1700000000) w1).
Proof.
  split; [reflexivity|]. split; [reflexivity|]. split.
  - apply (proj1 (supply_accessors_read_the_ticket Examples.chain_ok
                    Examples.world0 _ (Examples.ticket_contract 1)
                    eq_refl eq_refl) 1000).
    reflexivity.
  - apply (proj2 (supply_accessors_read_the_ticket Examples.chain_ok
                    Examples.world0 _ (Examples.ticket_contract 1)
                    eq_refl eq_refl) 1700000000 900).
    reflexivity.
Defined.

Lemma getTokenContract_retry_after_failure_witness :
  let chain := MoreExamples.chain_token_flaky in
  let w := Examples.world0 in
  let getToken := call_getToken Examples.pool_address in
  let w1 := snd (run chain getTokenContract w) in
  let w2 := snd (run chain getTokenContract w1) in
  tokenContract (this w) = None /\
  is_address_answer (chain 0%nat getToken) = false /\
  chain 1%nat getToken = Some (VAddress Examples.token_address) /\
  run chain getTokenContract w = (Err ResolutionFailure, log_read getToken w) /\
  this w1 = this w /\
  reads w2 = [getToken; getToken] /\
  exists c,
    run chain getTokenContract w1 = (Ok c, w2) /\
    contract_address c = Examples.token_address /\
    tokenContract (this w2) = Some c.
Proof.
  split; [reflexivity|]. split; [reflexivity|]. split; [reflexivity|].
  exact (getTokenContract_retry_after_failure MoreExamples.chain_token_flaky
           Examples.world0 Examples.token_address eq_refl eq_refl eq_refl).
Defined.

Lemma getUserPrizePoolBalances_token_first_witness :
  let chain := MoreExamples.chain_token_flaky in
  let w := Examples.world0 in
  let getToken := call_getToken Examples.pool_address in
  Examples.isAddress Examples.user = true /\
  provider_network (signerOrProvider (this w)) = pool_chainId (this w) /\
  tokenContract (this w) = None /\
  is_address_answer (chain 0%nat getToken) = false /\
  run chain (getUserPrizePoolBalances Examples.isAddress Examples.user) w
  = (Err ResolutionFailure, log_read getToken w).
Proof.
  split; [reflexivity|]. split; [reflexivity|]. split; [reflexivity|].
  split; [reflexivity|].
  exact (getUserPrizePoolBalances_token_first MoreExamples.chain_token_flaky
           Examples.isAddress Examples.world0 Examples.user
           eq_refl eq_refl eq_refl eq_refl).
Defined.
